(** * Doge-vs-Pepe tic-tac-toe: the tamper-evident game log

    A shallow embedding of the log protocol of the repository:

    - the canonical serializer [getCanonicalString] (server/index.js and
      client/main.js carry the same function),
    - the hash chain ([calculateEntryHash], [addLogEntry], [verifyHashChain]),
    - the game state machine of fsm.js ([transition], [checkWin],
      [checkDraw], [getInitialGameState]),
    - the replay verifier [verifyFsmGameplay],
    - the part of the client that authors the log ([startGame],
      [handleCellClick], [render], [addLogEntry]), as the browser runs it:
      the handlers cut at their awaits, events in any order ([page_step]).

    Modelling conventions.  A JavaScript string is a [string]: a sequence of
    code units below 256.  A JavaScript number is an integer [Z] (the
    protocol only carries sequence numbers, timestamps and board indices).
    A value that may be [undefined] is an [option].  A call that may throw
    returns a [completion].  Arrays are lists, read by index with stdpp's
    lookup. *)

From Stdlib Require Import ZArith String Ascii DecimalString.
From stdpp Require Import base list strings sorting.

#[local] Set Warnings "-register-all,-clear-no-such-hyp".

(** ** Completions: a call returns a value or throws *)

Inductive jsError :=
  | TypeError (msg : string)
  | SyntaxError (msg : string)
  | Error (msg : string).

Inductive completion (A : Type) :=
  | Returns (a : A)
  | Throws (e : jsError).
Arguments Returns {A} a.
Arguments Throws {A} e.

Definition bindC {A B} (c : completion A) (k : A → completion B) : completion B :=
  match c with
  | Returns a => k a
  | Throws e => Throws e
  end.

Notation "x ←! c ; k" := (bindC c (fun x => k))
  (at level 20, c at level 100, k at level 200, right associativity, only parsing).

(** ** JSON values *)

(** The trees the serializer is applied to.  An object keeps its properties
    in insertion order; a JavaScript object holds a key at most once, which
    is [wf_json]. *)
Inductive json :=
  | JNull
  | JBool (b : bool)
  | JNum (n : Z)
  | JStr (s : string)
  | JArr (items : list json)
  | JObj (props : list (string * json)).

Fixpoint wf_json (v : json) : Prop :=
  match v with
  | JArr items => (fix all (l : list json) : Prop :=
                     match l with [] => True | x :: l' => wf_json x ∧ all l' end) items
  | JObj props => NoDup (map fst props) ∧
                  (fix all (l : list (string * json)) : Prop :=
                     match l with [] => True | (_, x) :: l' => wf_json x ∧ all l' end) props
  | _ => True
  end.

(** [Object.keys(obj)]: the own keys.  (JavaScript lists integer-like keys
    first; every use below sorts the result.) *)
Definition Object_keys (props : list (string * json)) : list string := map fst props.

(** [obj[key]] on a table of properties: the first property of that name. *)
Fixpoint get_prop {A} (default : A) (props : list (string * A)) (key : string) : A :=
  match props with
  | [] => default
  | (k, v) :: rest => if String.eqb k key then v else get_prop default rest key
  end.

(** *** [JSON.stringify] on primitives *)

Definition dquote : ascii := "034"%char.
Definition backslash : ascii := "092"%char.

Definition hex_digit (n : N) : ascii :=
  match String.get (N.to_nat n) "0123456789abcdef" with
  | Some c => c
  | None => "0"%char
  end.

(** One code unit inside a JSON string literal (QuoteJSONString). *)
Definition escape_code_unit (c : ascii) : string :=
  let n := N_of_ascii c in
  if Ascii.eqb c dquote then String backslash (String dquote EmptyString)
  else if Ascii.eqb c backslash then String backslash (String backslash EmptyString)
  else if (n =? 8)%N then String backslash "b"
  else if (n =? 9)%N then String backslash "t"
  else if (n =? 10)%N then String backslash "n"
  else if (n =? 12)%N then String backslash "f"
  else if (n =? 13)%N then String backslash "r"
  else if (n <? 32)%N then
    String backslash ("u00" +:+ String (hex_digit (n / 16)) (String (hex_digit (n mod 16)) EmptyString))
  else String c EmptyString.

Fixpoint escape_string (s : string) : string :=
  match s with
  | EmptyString => EmptyString
  | String c s' => escape_code_unit c +:+ escape_string s'
  end.

Definition JSON_stringify_string (s : string) : string :=
  String dquote (escape_string s +:+ String dquote EmptyString).

(** [JSON.stringify] on a number that is an integer: its decimal digits.
    This is what JavaScript prints for the safe integers
    ([Number.isSafeInteger], below 2^53 in magnitude); from 10^21 on it
    prints an exponent, and fractions and the negative zero are no [Z]:
    those numbers are outside this model, and a statement that depends on
    the text of a number says [safe_json]. *)
Definition JSON_stringify_number (n : Z) : string :=
  NilZero.string_of_int (Z.to_int n).

(** ** The canonical serializer *)

(** [String.prototype] order used by [Array.prototype.sort] without a
    comparator: code unit by code unit. *)
Definition key_le (a b : string) : Prop := String.leb a b = true.

Global Instance key_le_dec a b : Decision (key_le a b).
Proof. unfold key_le. apply _. Defined.

Definition sort_keys (keys : list string) : list string := merge_sort key_le keys.

(** [getCanonicalString] (server/index.js:22-35, client/main.js:181-198).

    For an object the source maps over the sorted keys and serializes
    [obj[key]] for each; here the values are serialized first, into a table
    under their keys, and the sorted keys read that table, which keeps the
    recursion structural ([getCanonicalString_obj] below states the source's
    form). *)
Fixpoint getCanonicalString (obj : json) : string :=
  match obj with
  | JNull => "null"
  | JBool true => "true"
  | JBool false => "false"
  | JNum n => JSON_stringify_number n
  | JStr s => JSON_stringify_string s
  | JArr items =>
      "[" +:+ String.concat "," (map getCanonicalString items) +:+ "]"
  | JObj props =>
      let sortedKeys := sort_keys (Object_keys props) in
      let values := map (fun kv => match kv with (k, v) => (k, getCanonicalString v) end) props in
      let keyValuePairs :=
        map (fun key => JSON_stringify_string key +:+ ":" +:+ get_prop "undefined" values key)
            sortedKeys in
      "{" +:+ String.concat "," keyValuePairs +:+ "}"
  end.

(** *** Values that differ in insertion order only *)

(** Two trees are the same value when they agree everywhere but in the
    order in which the properties of their objects were inserted: arrays
    agree position by position, objects have the same keys and agree under
    every key. *)
Inductive same_value : json → json → Prop :=
  | same_null : same_value JNull JNull
  | same_bool b : same_value (JBool b) (JBool b)
  | same_num n : same_value (JNum n) (JNum n)
  | same_str s : same_value (JStr s) (JStr s)
  | same_arr xs ys :
      length xs = length ys →
      (∀ i x y, xs !! i = Some x → ys !! i = Some y → same_value x y) →
      same_value (JArr xs) (JArr ys)
  | same_obj ps qs :
      Object_keys ps ≡ₚ Object_keys qs →
      (∀ k v w, (k, v) ∈ ps → (k, w) ∈ qs → same_value v w) →
      same_value (JObj ps) (JObj qs).


(** ** SHA-256 *)

(** [crypto.createHash('sha256').update(s).digest('hex')] (server) and
    [crypto.subtle.digest('SHA-256', encoder.encode(s))] rendered in hex
    (client): FIPS 180-4 over the UTF-8 bytes of the string, as 64 lowercase
    hexadecimal digits.  Words are integers below 2^32. *)
Module SHA256.
Local Open Scope Z_scope.

Definition word_mask : Z := 0xffffffff.
Definition add32 (a b : Z) : Z := Z.land (a + b) word_mask.
Definition rotr (n x : Z) : Z :=
  Z.lor (Z.shiftr x n) (Z.land (Z.shiftl x (32 - n)) word_mask).
Definition not32 (x : Z) : Z := Z.lxor x word_mask.

Definition Ch (x y z : Z) : Z := Z.lxor (Z.land x y) (Z.land (not32 x) z).
Definition Maj (x y z : Z) : Z :=
  Z.lxor (Z.lxor (Z.land x y) (Z.land x z)) (Z.land y z).
Definition Sigma0 (x : Z) : Z := Z.lxor (Z.lxor (rotr 2 x) (rotr 13 x)) (rotr 22 x).
Definition Sigma1 (x : Z) : Z := Z.lxor (Z.lxor (rotr 6 x) (rotr 11 x)) (rotr 25 x).
Definition sigma0 (x : Z) : Z := Z.lxor (Z.lxor (rotr 7 x) (rotr 18 x)) (Z.shiftr x 3).
Definition sigma1 (x : Z) : Z := Z.lxor (Z.lxor (rotr 17 x) (rotr 19 x)) (Z.shiftr x 10).

(** The constants of FIPS 180-4, 4.2.2 and 5.3.3: the first 32 bits of the
    fractional parts of the cube roots (square roots, for the initial hash
    value) of the first primes. *)
Definition is_prime (n : Z) : bool :=
  forallb (fun d => negb (n mod d =? 0)) (seqZ 2 (n - 2)).

Definition primes_below (n : Z) : list Z :=
  List.filter is_prime (seqZ 2 (n - 2)).

(** The largest [r] below [2^bits] with [r^3 <= n]. *)
Fixpoint cube_root (bits : nat) (n r : Z) : Z :=
  match bits with
  | O => r
  | S bits' =>
      let r' := r + Z.shiftl 1 (Z.of_nat bits') in
      cube_root bits' n (if r' * r' * r' <=? n then r' else r)
  end.

Definition K : list Z :=
  Eval vm_compute in
    map (fun p => Z.land (cube_root 36 (Z.shiftl p 96) 0) word_mask)
        (take 64 (primes_below 312)).

Definition H0 : list Z :=
  Eval vm_compute in
    map (fun p => Z.land (Z.sqrt (Z.shiftl p 64)) word_mask)
        (take 8 (primes_below 312)).

(** UTF-8 of a string of code units below 256. *)
Fixpoint utf8 (s : string) : list Z :=
  match s with
  | EmptyString => []
  | String c s' =>
      let n := Z.of_N (N_of_ascii c) in
      if n <? 128 then n :: utf8 s'
      else Z.lor 0xc0 (Z.shiftr n 6) :: Z.lor 0x80 (Z.land n 0x3f) :: utf8 s'
  end.

(** Big-endian bytes of [x], [n] of them. *)
Fixpoint be_bytes (n : nat) (x : Z) : list Z :=
  match n with
  | O => []
  | S n' => Z.land (Z.shiftr x (8 * Z.of_nat n')) 0xff :: be_bytes n' x
  end.

Definition pad (msg : list Z) : list Z :=
  let len := Z.of_nat (length msg) in
  let zeros := Z.to_nat ((55 - len) mod 64) in
  msg ++ 0x80 :: replicate zeros 0 ++ be_bytes 8 (8 * len).

Fixpoint words (fuel : nat) (bytes : list Z) : list Z :=
  match fuel, bytes with
  | S fuel', b0 :: b1 :: b2 :: b3 :: rest =>
      Z.lor (Z.shiftl b0 24) (Z.lor (Z.shiftl b1 16) (Z.lor (Z.shiftl b2 8) b3))
      :: words fuel' rest
  | _, _ => []
  end.

Fixpoint blocks (fuel : nat) (ws : list Z) : list (list Z) :=
  match fuel, ws with
  | S fuel', _ :: _ => take 16 ws :: blocks fuel' (drop 16 ws)
  | _, _ => []
  end.

(** The message schedule: [w] holds W_0 .. W_(t-1); [n] more words follow. *)
Fixpoint schedule (n : nat) (w : list Z) : list Z :=
  match n with
  | O => w
  | S n' =>
      let t := length w in
      let at_ i := default 0 (w !! (t - i)%nat) in
      schedule n' (w ++ [add32 (add32 (sigma1 (at_ 2%nat)) (at_ 7%nat))
                               (add32 (sigma0 (at_ 15%nat)) (at_ 16%nat))])
  end.

Record regs := Regs { ra : Z; rb : Z; rc : Z; rd : Z; re : Z; rf : Z; rg : Z; rh : Z }.

Definition round (s : regs) (kw : Z * Z) : regs :=
  let T1 := add32 (add32 (add32 (rh s) (Sigma1 (re s))) (Ch (re s) (rf s) (rg s)))
                  (add32 (fst kw) (snd kw)) in
  let T2 := add32 (Sigma0 (ra s)) (Maj (ra s) (rb s) (rc s)) in
  Regs (add32 T1 T2) (ra s) (rb s) (rc s) (add32 (rd s) T1) (re s) (rf s) (rg s).

Definition compress (h : regs) (block : list Z) : regs :=
  let s := foldl round h (zip K (schedule 48 block)) in
  Regs (add32 (ra h) (ra s)) (add32 (rb h) (rb s)) (add32 (rc h) (rc s))
       (add32 (rd h) (rd s)) (add32 (re h) (re s)) (add32 (rf h) (rf s))
       (add32 (rg h) (rg s)) (add32 (rh h) (rh s)).

Definition regs_of (ws : list Z) : regs :=
  match ws with
  | [a; b; c; d; e; f; g; h] => Regs a b c d e f g h
  | _ => Regs 0 0 0 0 0 0 0 0
  end.

Definition initial : regs := regs_of H0.

Definition hex_byte (b : Z) : string :=
  String (hex_digit (Z.to_N (Z.shiftr b 4)))
    (String (hex_digit (Z.to_N (Z.land b 0xf))) EmptyString).

Definition hex_word (w : Z) : string :=
  String.concat EmptyString (map hex_byte (be_bytes 4 w)).

Definition digest_hex (s : string) : string :=
  let bytes := pad (utf8 s) in
  let h := foldl compress initial (blocks (length bytes) (words (length bytes) bytes)) in
  String.concat EmptyString
    (map hex_word [ra h; rb h; rc h; rd h; re h; rf h; rg h; rh h]).

End SHA256.

Definition sha256_hex (s : string) : string := SHA256.digest_hex s.
Global Arguments sha256_hex : simpl never.
Global Opaque sha256_hex.


(** ** The server's logger *)

(** What [logger.error(message, data)] and [logger.info(message)] write;
    the verifiers return their lines along with their result. *)
Inductive logLine :=
  | logger_error (message : string) (data : list (string * json))
  | logger_info (message : string).

(** ** Log entries *)

(** A move, as the page writes it: [rowIndex] and [colIndex] are integers
    (the page gets them from [parseInt] of the cell's data attributes).  A
    move whose indices are missing or are no integers is outside this
    model; on such a move the state machine can throw a TypeError at
    [board[rowIndex][colIndex]]. *)
Record Move := { rowIndex : Z; colIndex : Z }.

(** [eventData]: an object that may carry a [move] and a [playerId], and
    whatever else the event kind records ([symbolPlaced], [attemptedMove],
    [reason], [playerX], [playerO], [winningPlayerId]). *)
Record EventData := {
  move : option Move;
  playerId : option string;
  otherProps : list (string * json)
}.

Record LogEntry := {
  sequence : Z;
  eventType : string;
  clientTimestamp : Z;
  eventData : EventData;
  boardState : json;
  fsmState : string;
  previousEntryChainHash : string;
  currentEntryChainHash : string
}.

Definition Move_json (m : Move) : json :=
  JObj [("rowIndex", JNum (rowIndex m)); ("colIndex", JNum (colIndex m))].

Definition optional_prop {A} (key : string) (to_json : A → json) (v : option A)
  : list (string * json) :=
  match v with
  | Some a => [(key, to_json a)]
  | None => []
  end.

Definition EventData_json (d : EventData) : json :=
  JObj (optional_prop "playerId" JStr (playerId d) ++
        optional_prop "move" Move_json (move d) ++
        otherProps d).

(** The entry as the object the server parses out of the submitted text. *)
Definition LogEntry_json (e : LogEntry) : json :=
  JObj [("sequence", JNum (sequence e));
        ("eventType", JStr (eventType e));
        ("clientTimestamp", JNum (clientTimestamp e));
        ("eventData", EventData_json (eventData e));
        ("boardState", boardState e);
        ("fsmState", JStr (fsmState e));
        ("previousEntryChainHash", JStr (previousEntryChainHash e));
        ("currentEntryChainHash", JStr (currentEntryChainHash e))].

(** ** The hash chain *)

(** [const { key, ...rest } = obj]: the object without the property. *)
Definition omit_prop (key : string) (obj : json) : json :=
  match obj with
  | JObj props => JObj (List.filter (fun kv => negb (String.eqb (fst kv) key)) props)
  | other => other
  end.

(** [getObjectToHash] (server/index.js:37-40, client/main.js:206-209). *)
Definition getObjectToHash (logEntry : LogEntry) : json :=
  omit_prop "currentEntryChainHash" (LogEntry_json logEntry).

(** [calculateEntryHash] (server/index.js:42-46, client/main.js:216-224). *)
Definition calculateEntryHash (logEntry : LogEntry) : string :=
  let objectToHash := getObjectToHash logEntry in
  let canonicalString := getCanonicalString objectToHash in
  sha256_hex canonicalString.

(** ["0".repeat(64)] *)
Fixpoint String_repeat (s : string) (n : nat) : string :=
  match n with
  | O => EmptyString
  | S n' => s +:+ String_repeat s n'
  end.

Definition zeroHash : string := String_repeat "0" 64.

(** [verifyHashChain] (server/index.js:50-66): the loop, entered with the
    hash the next entry has to name. *)
Fixpoint verifyHashChain_loop (previousHash : string) (gameLog : list LogEntry)
  : bool * list logLine :=
  match gameLog with
  | [] => (true, [logger_info "Hash chain successfully verified."])
  | entry :: rest =>
      if negb (String.eqb (previousEntryChainHash entry) previousHash) then
        (false, [logger_error "Hash chain broken!"
                   [("sequence", JNum (sequence entry));
                    ("expected", JStr previousHash);
                    ("found", JStr (previousEntryChainHash entry))]])
      else
        let recalculatedHash := calculateEntryHash entry in
        if negb (String.eqb recalculatedHash (currentEntryChainHash entry)) then
          (false, [logger_error "Entry hash mismatch! Data may be tampered."
                     [("sequence", JNum (sequence entry));
                      ("calculated", JStr recalculatedHash);
                      ("stored", JStr (currentEntryChainHash entry))]])
        else
          verifyHashChain_loop (currentEntryChainHash entry) rest
  end.

Definition verifyHashChain (gameLog : list LogEntry) : bool * list logLine :=
  let previousHash := zeroHash in
  verifyHashChain_loop previousHash gameLog.

(** *** The chain as the specification words it *)

(** SHA-256 of the canonical serialization of the entry with the
    [currentEntryChainHash] field removed. *)
Definition entryHash (e : LogEntry) : string :=
  sha256_hex (getCanonicalString
    (JObj [("sequence", JNum (sequence e));
           ("eventType", JStr (eventType e));
           ("clientTimestamp", JNum (clientTimestamp e));
           ("eventData", EventData_json (eventData e));
           ("boardState", boardState e);
           ("fsmState", JStr (fsmState e));
           ("previousEntryChainHash", JStr (previousEntryChainHash e))])).

(** Entry 0 names the zero hash, entry i>0 names the hash of entry i-1,
    and every entry carries its own hash. *)
Record chain_intact (log : list LogEntry) : Prop := {
  chain_first : ∀ e, log !! 0%nat = Some e → previousEntryChainHash e = zeroHash;
  chain_link : ∀ i e e', log !! i = Some e → log !! S i = Some e' →
               previousEntryChainHash e' = currentEntryChainHash e;
  chain_hash : ∀ (i : nat) e, log !! i = Some e → currentEntryChainHash e = entryHash e
}.

(** The hash an entry appended to [log] has to name. *)
Definition expected_previous (log : list LogEntry) : string :=
  match last log with
  | Some e => currentEntryChainHash e
  | None => zeroHash
  end.

(** The entry violates the chain when it is put after [log]. *)
Definition violates (log : list LogEntry) (e : LogEntry) : Prop :=
  previousEntryChainHash e ≠ expected_previous log ∨ currentEntryChainHash e ≠ entryHash e.

(** ** The game state machine (fsm.js) *)

Module STATES.
Definition GAME_STARTING : string := "GAME_STARTING".
Definition PLAYER_X_TURN : string := "PLAYER_X_TURN".
Definition PLAYER_O_TURN : string := "PLAYER_O_TURN".
Definition GAME_OVER_X_WINS : string := "GAME_OVER_X_WINS".
Definition GAME_OVER_O_WINS : string := "GAME_OVER_O_WINS".
Definition GAME_OVER_DRAW : string := "GAME_OVER_DRAW".
End STATES.

Module EVENTS.
Definition PLAYER_MOVE_ATTEMPTED : string := "PLAYER_MOVE_ATTEMPTED".
End EVENTS.

(** The board: an array of rows, each an array of cells; a cell is the
    empty string, ["X"] or ["O"]. *)
Abbreviation Board := (list (list string)).

Record GameState := {
  currentState : string;
  board : Board;
  playerX : string;
  playerO : string
}.

(** [FSMTransitionResult]: [newBoard] is present on a valid move only,
    [error] on an invalid one only. *)
Record TransitionResult := {
  newState : string;
  isValidMove : bool;
  newBoard : option Board;
  error : option string
}.

(** [arr[i]] for an integer [i]: [undefined] outside the array. *)
Definition Array_get {A} (arr : list A) (i : Z) : option A :=
  if (i <? 0)%Z then None else arr !! Z.to_nat i.

(** [board[r][c]]: reading a property of [undefined] throws. *)
Definition board_get (board : Board) (r c : Z) : completion (option string) :=
  match Array_get board r with
  | None => Throws (TypeError "Cannot read properties of undefined")
  | Some row => Returns (Array_get row c)
  end.

(** [board[r][c] = v], for a cell that exists (the only use, in
    [transition], comes after the cell was read as empty). *)
Definition board_set (board : Board) (r c : Z) (v : string) : completion Board :=
  match Array_get board r with
  | None => Throws (TypeError "Cannot set properties of undefined")
  | Some row => Returns (<[Z.to_nat r := <[Z.to_nat c := v]> row]> board)
  end.

(** [cloneBoard]: [JSON.parse(JSON.stringify(board))], a deep copy; on
    values, the same board.  ([Store.cloneBoard] is the copy in a store.) *)
Definition cloneBoard (board : Board) : Board := board.

(** [Array.prototype.every] and [some] with a callback that may throw. *)
Fixpoint Array_every {A} (f : A → completion bool) (arr : list A) : completion bool :=
  match arr with
  | [] => Returns true
  | x :: rest => b ←! f x; if b : bool then Array_every f rest else Returns false
  end.

Fixpoint Array_some {A} (f : A → completion bool) (arr : list A) : completion bool :=
  match arr with
  | [] => Returns false
  | x :: rest => b ←! f x; if b : bool then Returns true else Array_some f rest
  end.

Definition winConditions : list (list (Z * Z)) :=
  [ [(0, 0); (0, 1); (0, 2)];  (* Top row *)
    [(1, 0); (1, 1); (1, 2)];  (* Middle row *)
    [(2, 0); (2, 1); (2, 2)];  (* Bottom row *)
    [(0, 0); (1, 0); (2, 0)];  (* Left column *)
    [(0, 1); (1, 1); (2, 1)];  (* Middle column *)
    [(0, 2); (1, 2); (2, 2)];  (* Right column *)
    [(0, 0); (1, 1); (2, 2)];  (* Diagonal L-R *)
    [(0, 2); (1, 1); (2, 0)]   (* Diagonal R-L *)
  ]%Z.

(** [checkWin] (fsm.js). *)
Definition checkWin (board : Board) (playerSymbol : string) : completion bool :=
  Array_some (fun combination =>
    Array_every (fun rc : Z * Z =>
      cell ←! board_get board (fst rc) (snd rc);
      Returns (bool_decide (cell = Some playerSymbol)))
    combination)
  winConditions.

(** [checkDraw] (fsm.js). *)
Definition checkDraw (board : Board) : bool :=
  forallb (fun row => forallb (fun cell => negb (String.eqb cell "")) row) board.

Definition invalid_move (currentState reason : string) : TransitionResult :=
  {| newState := currentState; isValidMove := false; newBoard := None; error := Some reason |}.

Definition valid_move (state : string) (board : Board) : TransitionResult :=
  {| newState := state; isValidMove := true; newBoard := Some board; error := None |}.

(** The body of [case STATES.PLAYER_X_TURN] and of [case
    STATES.PLAYER_O_TURN] for the event [PLAYER_MOVE_ATTEMPTED]: the two
    cases are the same code up to the mover's id and symbol, the state of
    a win, the state of the other player's turn and the wrong-turn text. *)
Definition player_move (currentState : string) (board : Board)
    (mover symbol winState nextState notYourTurn : string)
    (playerId : option string) (rowIndex colIndex : Z)
  : completion TransitionResult :=
  (* Game rule validation *)
  if negb (bool_decide (playerId = Some mover)) then
    Returns (invalid_move currentState notYourTurn)
  else
    occupied ←!
      (if (rowIndex <? 0)%Z || (2 <? rowIndex)%Z || (colIndex <? 0)%Z || (2 <? colIndex)%Z
       then Returns true
       else cell ←! board_get board rowIndex colIndex;
            Returns (negb (bool_decide (cell = Some ""))));
    if occupied : bool then
      Returns (invalid_move currentState "Invalid move: cell is occupied or out of bounds.")
    else
      (* Apply the move *)
      let newBoard := cloneBoard board in
      newBoard ←! board_set newBoard rowIndex colIndex symbol;
      (* Check for win / draw *)
      won ←! checkWin newBoard symbol;
      if won : bool then Returns (valid_move winState newBoard)
      else if checkDraw newBoard then Returns (valid_move STATES.GAME_OVER_DRAW newBoard)
      else Returns (valid_move nextState newBoard).

(** [transition] (fsm.js). *)
Definition transition (currentGameState : GameState) (event : string) (eventData : EventData)
  : completion TransitionResult :=
  match move eventData with
  | None => Throws (Error "Invalid arguments provided to FSM transition function.")
  | Some mv =>
    if String.eqb event "" then
      Throws (Error "Invalid arguments provided to FSM transition function.")
    else
      let currentState := currentState currentGameState in
      let board := board currentGameState in
      let rowIndex := rowIndex mv in
      let colIndex := colIndex mv in
      let default :=
        Returns (invalid_move currentState
                   ("No valid transition for event " +:+ event +:+ " from state " +:+ currentState +:+ ".")) in
      if String.eqb currentState STATES.PLAYER_X_TURN then
        if String.eqb event EVENTS.PLAYER_MOVE_ATTEMPTED then
          player_move currentState board (playerX currentGameState) "X"
            STATES.GAME_OVER_X_WINS STATES.PLAYER_O_TURN "Not player X's turn."
            (playerId eventData) rowIndex colIndex
        else default
      else if String.eqb currentState STATES.PLAYER_O_TURN then
        if String.eqb event EVENTS.PLAYER_MOVE_ATTEMPTED then
          player_move currentState board (playerO currentGameState) "O"
            STATES.GAME_OVER_O_WINS STATES.PLAYER_X_TURN "Not player O's turn."
            (playerId eventData) rowIndex colIndex
        else default
      else if String.eqb currentState STATES.GAME_OVER_X_WINS
              || String.eqb currentState STATES.GAME_OVER_O_WINS
              || String.eqb currentState STATES.GAME_OVER_DRAW then
        Returns (invalid_move currentState "Game is already over.")
      else default
  end.

(** [getInitialGameState] (fsm.js). *)
Definition getInitialGameState (playerX_Id playerO_Id : string) : GameState :=
  {| currentState := STATES.PLAYER_X_TURN;
     board := [ [""; ""; ""]; [""; ""; ""]; [""; ""; ""] ];
     playerX := playerX_Id;
     playerO := playerO_Id |}.

(** *** The rules as the specification words them *)

(** A game state's board is a 3x3 grid. *)
Definition is_3x3 (b : Board) : Prop :=
  length b = 3%nat ∧ Forall (fun row => length row = 3%nat) b.

(** The cell at a row and column, if there is one. *)
Definition cell_at (b : Board) (r c : Z) : option string :=
  match Array_get b r with
  | Some row => Array_get row c
  | None => None
  end.

Definition is_turn (state : string) : Prop :=
  state = STATES.PLAYER_X_TURN ∨ state = STATES.PLAYER_O_TURN.

Definition is_game_over (state : string) : Prop :=
  state = STATES.GAME_OVER_X_WINS ∨ state = STATES.GAME_OVER_O_WINS ∨
  state = STATES.GAME_OVER_DRAW.

(** In a turn state: whose turn it is, their symbol, the state of their
    win, the state of the other player's turn, and the wrong-turn text. *)
Definition x_to_move (st : GameState) : bool :=
  String.eqb (currentState st) STATES.PLAYER_X_TURN.
Definition turn_player (st : GameState) : string :=
  if x_to_move st then playerX st else playerO st.
Definition turn_symbol (st : GameState) : string :=
  if x_to_move st then "X" else "O".
Definition win_state (st : GameState) : string :=
  if x_to_move st then STATES.GAME_OVER_X_WINS else STATES.GAME_OVER_O_WINS.
Definition other_turn (st : GameState) : string :=
  if x_to_move st then STATES.PLAYER_O_TURN else STATES.PLAYER_X_TURN.
Definition wrong_turn_text (st : GameState) : string :=
  if x_to_move st then "Not player X's turn." else "Not player O's turn.".
Definition occupied_text : string := "Invalid move: cell is occupied or out of bounds.".

(** The board with the symbol placed in one cell. *)
Definition place (b : Board) (r c : Z) (symbol : string) : Board :=
  alter (fun row => <[Z.to_nat c := symbol]> row) (Z.to_nat r) b.

(** The eight triples: three rows, three columns, two diagonals. *)
Definition rows : list (list (Z * Z)) :=
  map (fun r => [(r, 0); (r, 1); (r, 2)]%Z) [0; 1; 2]%Z.
Definition columns : list (list (Z * Z)) :=
  map (fun c => [(0, c); (1, c); (2, c)]%Z) [0; 1; 2]%Z.
Definition diagonals : list (list (Z * Z)) :=
  [ [(0, 0); (1, 1); (2, 2)]; [(0, 2); (1, 1); (2, 0)] ]%Z.

(** Some triple has all three cells equal to the symbol. *)
Definition has_three_in_line (b : Board) (symbol : string) : Prop :=
  Exists (Forall (fun rc : Z * Z => cell_at b (fst rc) (snd rc) = Some symbol))
         (rows ++ columns ++ diagonals).

(** No empty cell remains. *)
Definition no_empty_cell (b : Board) : Prop :=
  ∀ r c, cell_at b r c ≠ Some "".

(** ** The replay verifier (server/index.js) *)

(** A board as the JSON array of arrays it is in a log entry. *)
Definition Board_json (b : Board) : json :=
  JArr (map (fun row => JArr (map JStr row)) b).

(** [crypto.createHash('sha256').update(getCanonicalString(board)).digest('hex')]
    on [transitionResult.newBoard]; [update(undefined)] throws. *)
Definition newBoard_hash (newBoard : option Board) : completion string :=
  match newBoard with
  | Some b => Returns (sha256_hex (getCanonicalString (Board_json b)))
  | None => Throws (TypeError "The data argument must be of type string")
  end.

(** How the [for] loop of [verifyFsmGameplay] is left: by one of its
    [return false], with the line logged before it, or at its end, with the
    server's game state. *)
Inductive loopExit :=
  | ReturnFalse (line : logLine)
  | LoopDone (serverGameState : GameState).

(** The loop of [verifyFsmGameplay] (server/index.js:83-119). *)
Fixpoint verifyFsmGameplay_loop (serverGameState : GameState) (validatedMoves : list LogEntry)
  : completion loopExit :=
  match validatedMoves with
  | [] => Returns (LoopDone serverGameState)
  | moveEntry :: rest =>
      let eventData' :=
        {| move := move (eventData moveEntry);
           playerId := playerId (eventData moveEntry);
           otherProps := [] |} in
      transitionResult ←!
        transition serverGameState EVENTS.PLAYER_MOVE_ATTEMPTED eventData';
      (* Check 1 *)
      if negb (isValidMove transitionResult) then
        Returns (ReturnFalse (logger_error
          "FSM re-simulation failed: A move considered valid by the client was rejected by the server FSM."
          [("sequence", JNum (sequence moveEntry))]))
      (* Check 2 *)
      else if negb (String.eqb (newState transitionResult) (fsmState moveEntry)) then
        Returns (ReturnFalse (logger_error "FSM state mismatch!"
          [("sequence", JNum (sequence moveEntry));
           ("expected", JStr (newState transitionResult));
           ("found", JStr (fsmState moveEntry))]))
      else
        (* Check 3 *)
        serverNewBoardHash ←! newBoard_hash (newBoard transitionResult);
        let clientNewBoardHash := sha256_hex (getCanonicalString (boardState moveEntry)) in
        if negb (String.eqb serverNewBoardHash clientNewBoardHash) then
          Returns (ReturnFalse (logger_error "FSM board state mismatch!"
            [("sequence", JNum (sequence moveEntry))]))
        else
          match newBoard transitionResult with
          | Some newBoard =>
              verifyFsmGameplay_loop
                {| currentState := newState transitionResult;
                   board := newBoard;
                   playerX := playerX serverGameState;
                   playerO := playerO serverGameState |}
                rest
          | None => Throws (TypeError "The data argument must be of type string")
          end
  end.

Definition is_validated_move (entry : LogEntry) : bool :=
  String.eqb (eventType entry) "PLAYER_MOVE_VALIDATED".

(** [verifyFsmGameplay] (server/index.js:76-137). *)
Definition verifyFsmGameplay (gameLog : list LogEntry) (playerX_Id playerO_Id : string)
  : completion (bool * list logLine) :=
  let serverGameState := getInitialGameState playerX_Id playerO_Id in
  let validatedMoves := List.filter is_validated_move gameLog in
  exit ←! verifyFsmGameplay_loop serverGameState validatedMoves;
  match exit with
  | ReturnFalse line => Returns (false, [line])
  | LoopDone serverGameState =>
      (* Final State Verification *)
      let serverFinalState := currentState serverGameState in
      match last gameLog with
      | None =>
          Throws (TypeError "Cannot read properties of undefined (reading 'eventType')")
      | Some clientFinalLogEntry =>
          if negb (String.prefix "GAME_" (eventType clientFinalLogEntry)) then
            Returns (false, [logger_error
              "FSM final state error: Final log entry is not a game over event." []])
          else if negb (String.eqb (fsmState clientFinalLogEntry) serverFinalState) then
            Returns (false, [logger_error "FSM final state mismatch!"
              [("expectedByServer", JStr serverFinalState);
               ("reportedByClient", JStr (fsmState clientFinalLogEntry))]])
          else
            Returns (true, [logger_info "FSM gameplay successfully verified."])
      end
  end.

(** *** Replay as the specification words it *)

(** The move a validated entry records, as handed to the state machine. *)
Definition recorded_attempt (e : LogEntry) : EventData :=
  {| move := move (eventData e); playerId := playerId (eventData e); otherProps := [] |}.

(** A replayed entry is rejected when the server's transition says the move
    is invalid, or reaches another state than the entry records, or reaches
    a board whose hash is not the hash of the recorded board. *)
Definition replay_rejects (res : TransitionResult) (e : LogEntry) : Prop :=
  isValidMove res = false ∨
  newState res ≠ fsmState e ∨
  ∃ b, newBoard res = Some b ∧
       sha256_hex (getCanonicalString (Board_json b)) ≠
       sha256_hex (getCanonicalString (boardState e)).

(** [replayed st entries st']: from [st], every entry in turn is answered
    by the state machine with a valid move, the recorded state and a board
    of the recorded hash, and the state after the last one is [st']. *)
Inductive replayed : GameState → list LogEntry → GameState → Prop :=
  | replayed_nil st : replayed st [] st
  | replayed_cons st e res b rest st' :
      transition st EVENTS.PLAYER_MOVE_ATTEMPTED (recorded_attempt e) = Returns res →
      isValidMove res = true →
      newState res = fsmState e →
      newBoard res = Some b →
      sha256_hex (getCanonicalString (Board_json b)) =
        sha256_hex (getCanonicalString (boardState e)) →
      replayed {| currentState := newState res; board := b;
                  playerX := playerX st; playerO := playerO st |} rest st' →
      replayed st (e :: rest) st'.

(** ** The client's log authoring (client/main.js) *)

Definition playerX_Id : string := "DOGE".
Definition playerO_Id : string := "PEPE".

(** The session variables of the page. *)
Record Session := {
  currentGameState : GameState;
  gameLog : list LogEntry;
  latestEntryChainHash : string;
  sequenceNumber : Z
}.

(** [logEntry.currentEntryChainHash = newHash] *)
Definition set_currentEntryChainHash (logEntry : LogEntry) (newHash : string) : LogEntry :=
  {| sequence := sequence logEntry;
     eventType := eventType logEntry;
     clientTimestamp := clientTimestamp logEntry;
     eventData := eventData logEntry;
     boardState := boardState logEntry;
     fsmState := fsmState logEntry;
     previousEntryChainHash := previousEntryChainHash logEntry;
     currentEntryChainHash := newHash |}.

(** [addLogEntry] (client/main.js:231-251) is an async function with one
    [await], on the hash of the entry.  Up to the [await] it builds the
    entry from the session variables as they are then; [now] is what
    [Date.now()] returns. *)
Definition addLogEntry_begin (s : Session) (now : Z) (eventType_ : string)
    (eventData_ : EventData) : LogEntry :=
  {| sequence := sequenceNumber s;
     eventType := eventType_;
     clientTimestamp := now;
     eventData := eventData_;
     boardState := Board_json (cloneBoard (board (currentGameState s)));
     fsmState := currentState (currentGameState s);
     previousEntryChainHash := latestEntryChainHash s;
     currentEntryChainHash := "" (* not set yet *) |}.

(** When the hash is there it stores it in the entry, pushes the entry and
    counts, on the session variables as they are by then. *)
Definition addLogEntry_end (s : Session) (logEntry : LogEntry) : Session :=
  let newHash := calculateEntryHash logEntry in
  let logEntry := set_currentEntryChainHash logEntry newHash in
  {| currentGameState := currentGameState s;
     gameLog := gameLog s ++ [logEntry];
     latestEntryChainHash := newHash;
     sequenceNumber := sequenceNumber s + 1 |}.

(** [addLogEntry] when nothing else runs while it awaits the hash: the two
    halves one after the other ([addLogEntry_uninterrupted] below).  The
    page as the browser runs it, where other handlers can run in between,
    is [page_step]. *)
Definition addLogEntry (s : Session) (now : Z) (eventType_ : string) (eventData_ : EventData)
  : Session :=
  let logEntry :=
    {| sequence := sequenceNumber s;
       eventType := eventType_;
       clientTimestamp := now;
       eventData := eventData_;
       boardState := Board_json (cloneBoard (board (currentGameState s)));
       fsmState := currentState (currentGameState s);
       previousEntryChainHash := latestEntryChainHash s;
       currentEntryChainHash := "" (* not set yet *) |} in
  let newHash := calculateEntryHash logEntry in
  let logEntry := set_currentEntryChainHash logEntry newHash in
  {| currentGameState := currentGameState s;
     gameLog := gameLog s ++ [logEntry];
     latestEntryChainHash := newHash;
     sequenceNumber := sequenceNumber s + 1 |}.

(** [startGame] (client/main.js:254-300), once the server has answered,
    when nothing else runs while it awaits the hash of its entry. *)
Definition startGame (now : Z) : Session :=
  let s := {| currentGameState := getInitialGameState playerX_Id playerO_Id;
              gameLog := [];
              latestEntryChainHash := String_repeat "0" 64;
              sequenceNumber := 0 |} in
  addLogEntry s now "GAME_CREATED"
    {| move := None; playerId := None;
       otherProps := [("playerX", JStr playerX_Id); ("playerO", JStr playerO_Id)] |}.

(** [render] (client/main.js:303-360), its effect on the log: when the game
    is over and the last entry is a player's, the game-over entry is added
    (and the log is then submitted); here with [handleGameOver], which
    [render] starts, run to the end of its [addLogEntry] before anything
    else. *)
Definition render (s : Session) (now : Z) : Session :=
  let state := currentState (currentGameState s) in
  let isGameOver := String.prefix "GAME_OVER" state in
  match last (gameLog s) with
  | Some lastEntry =>
      if isGameOver && String.prefix "PLAYER_" (eventType lastEntry) then
        let finalEventType :=
          if String.eqb state STATES.GAME_OVER_DRAW then "GAME_DRAWN" else "GAME_WON" in
        let finalEventData :=
          if String.eqb finalEventType "GAME_WON" then
            {| move := None; playerId := None;
               otherProps :=
                 [("winningPlayerId",
                   JStr (if String.eqb state STATES.GAME_OVER_X_WINS
                         then playerX_Id else playerO_Id))] |}
          else {| move := None; playerId := None; otherProps := [] |} in
        addLogEntry s now finalEventType finalEventData
      else s
  | None => s
  end.

(** A click on a cell: the cell's row and column, and what [Date.now()]
    returns for the move's entry and for the game-over entry. *)
Record Click := {
  clickRow : Z;
  clickCol : Z;
  clickTime : Z;
  gameOverTime : Z
}.

(** [handleCellClick] (client/main.js:363-401), when nothing else runs
    while it awaits: the handler, and the game-over handler [render] may
    start, run to their ends before the next event. *)
Definition handleCellClick (s : Session) (click : Click) : completion Session :=
  let state := currentState (currentGameState s) in
  if String.prefix "GAME_OVER" state then Returns s
  else
    let rowIndex := clickRow click in
    let colIndex := clickCol click in
    let currentPlayerId :=
      if String.eqb state STATES.PLAYER_X_TURN then playerX_Id else playerO_Id in
    let currentSymbol :=
      if String.eqb state STATES.PLAYER_X_TURN then "X" else "O" in
    let mv := {| rowIndex := rowIndex; colIndex := colIndex |} in
    let eventData_ :=
      {| move := Some mv; playerId := Some currentPlayerId; otherProps := [] |} in
    (* 1. the result of the move from the FSM *)
    transitionResult ←!
      transition (currentGameState s) EVENTS.PLAYER_MOVE_ATTEMPTED eventData_;
    (* 2. update the central game state before logging; were the board of
       a valid move missing, cloning it for the log entry would throw *)
    board' ←!
      (if isValidMove transitionResult then
         match newBoard transitionResult with
         | Some newBoard => Returns newBoard
         | None => Throws (SyntaxError "undefined is not valid JSON")
         end
       else Returns (board (currentGameState s)));
    let currentGameState' :=
      {| currentState := newState transitionResult;
         board := board';
         playerX := playerX (currentGameState s);
         playerO := playerO (currentGameState s) |} in
    let s := {| currentGameState := currentGameState';
                gameLog := gameLog s;
                latestEntryChainHash := latestEntryChainHash s;
                sequenceNumber := sequenceNumber s |} in
    (* 3. log the event *)
    let s :=
      if isValidMove transitionResult then
        addLogEntry s (clickTime click) "PLAYER_MOVE_VALIDATED"
          {| move := Some mv; playerId := Some currentPlayerId;
             otherProps := [("symbolPlaced", JStr currentSymbol)] |}
      else
        addLogEntry s (clickTime click) "PLAYER_MOVE_REJECTED"
          {| move := None; playerId := Some currentPlayerId;
             otherProps :=
               [("attemptedMove", Move_json mv);
                ("reason", match error transitionResult with
                           | Some reason => JStr reason
                           | None => JNull
                           end)] |} in
    (* 4. re-render *)
    Returns (render s (gameOverTime click)).

(** A game on the page in which every handler has finished before the
    next click: it is started, then cells are clicked. *)
Fixpoint clicks_from (s : Session) (clicks : list Click) : completion Session :=
  match clicks with
  | [] => Returns s
  | click :: rest => s' ←! handleCellClick s click; clicks_from s' rest
  end.

Definition play (startTime : Z) (clicks : list Click) : completion Session :=
  clicks_from (startGame startTime) clicks.

(** ** The page as the browser runs it *)

(** The handlers are async functions: each runs to its next [await], and
    goes on when the awaited promise resolves; whatever events arrive in
    between are handled in between.  The [await] that matters for the log is
    the one of [addLogEntry]: the entry is built before it, from the
    session variables as they are then, and stored after it.  A handler
    waiting there is a pending entry, with what the handler does once
    [addLogEntry] has returned: [handleCellClick] and [startGame] call
    [render]; [handleGameOver] waits two seconds and submits the log. *)
Inductive Continuation := ThenRender | ThenSubmit.

Record Pending := {
  pendingEntry : LogEntry;
  continuation : Continuation
}.

(** The session variables ([None] while [currentGameState] is undefined,
    before the first game is started) and the handlers waiting for a hash. *)
Record Page := {
  session : option Session;
  pending : list Pending
}.

Definition initial_page : Page := {| session := None; pending := [] |}.

(** [startGame] from its reset of the session variables to the [await] in
    [addLogEntry] (client/main.js:285-292). *)
Definition startGame_begin (now : Z) : Session * LogEntry :=
  let s := {| currentGameState := getInitialGameState playerX_Id playerO_Id;
              gameLog := [];
              latestEntryChainHash := String_repeat "0" 64;
              sequenceNumber := 0 |} in
  (s, addLogEntry_begin s now "GAME_CREATED"
        {| move := None; playerId := None;
           otherProps := [("playerX", JStr playerX_Id); ("playerO", JStr playerO_Id)] |}).

(** [handleCellClick] up to the [await] in [addLogEntry]
    (client/main.js:363-394): the session with the game state updated, and
    the entry that waits for its hash; no entry when the game is over. *)
Definition handleCellClick_begin (s : Session) (rowIndex colIndex now : Z)
  : completion (Session * option LogEntry) :=
  let state := currentState (currentGameState s) in
  if String.prefix "GAME_OVER" state then Returns (s, None)
  else
    let currentPlayerId :=
      if String.eqb state STATES.PLAYER_X_TURN then playerX_Id else playerO_Id in
    let currentSymbol :=
      if String.eqb state STATES.PLAYER_X_TURN then "X" else "O" in
    let mv := {| rowIndex := rowIndex; colIndex := colIndex |} in
    let eventData_ :=
      {| move := Some mv; playerId := Some currentPlayerId; otherProps := [] |} in
    (* 1. the result of the move from the FSM *)
    transitionResult ←!
      transition (currentGameState s) EVENTS.PLAYER_MOVE_ATTEMPTED eventData_;
    (* 2. update the central game state before logging *)
    board' ←!
      (if isValidMove transitionResult then
         match newBoard transitionResult with
         | Some newBoard => Returns newBoard
         | None => Throws (SyntaxError "undefined is not valid JSON")
         end
       else Returns (board (currentGameState s)));
    let currentGameState' :=
      {| currentState := newState transitionResult;
         board := board';
         playerX := playerX (currentGameState s);
         playerO := playerO (currentGameState s) |} in
    let s := {| currentGameState := currentGameState';
                gameLog := gameLog s;
                latestEntryChainHash := latestEntryChainHash s;
                sequenceNumber := sequenceNumber s |} in
    (* 3. log the event: the entry is built, its hash awaited *)
    let logEntry :=
      if isValidMove transitionResult then
        addLogEntry_begin s now "PLAYER_MOVE_VALIDATED"
          {| move := Some mv; playerId := Some currentPlayerId;
             otherProps := [("symbolPlaced", JStr currentSymbol)] |}
      else
        addLogEntry_begin s now "PLAYER_MOVE_REJECTED"
          {| move := None; playerId := Some currentPlayerId;
             otherProps :=
               [("attemptedMove", Move_json mv);
                ("reason", match error transitionResult with
                           | Some reason => JStr reason
                           | None => JNull
                           end)] |} in
    Returns (s, Some logEntry).

(** [render] (client/main.js:303-360) up to the [await] in the
    [addLogEntry] of [handleGameOver]: the game-over entry that waits for
    its hash, when the game is over and the last entry is a player's. *)
Definition render_begin (s : Session) (now : Z) : option LogEntry :=
  let state := currentState (currentGameState s) in
  let isGameOver := String.prefix "GAME_OVER" state in
  match last (gameLog s) with
  | Some lastEntry =>
      if isGameOver && String.prefix "PLAYER_" (eventType lastEntry) then
        let finalEventType :=
          if String.eqb state STATES.GAME_OVER_DRAW then "GAME_DRAWN" else "GAME_WON" in
        let finalEventData :=
          if String.eqb finalEventType "GAME_WON" then
            {| move := None; playerId := None;
               otherProps :=
                 [("winningPlayerId",
                   JStr (if String.eqb state STATES.GAME_OVER_X_WINS
                         then playerX_Id else playerO_Id))] |}
          else {| move := None; playerId := None; otherProps := [] |} in
        Some (addLogEntry_begin s now finalEventType finalEventData)
      else None
  | None => None
  end.

(** What happens on the page: the restart button is clicked and the server
    has answered ([startGame] reaches its reset), a cell is clicked, or the
    hash that the pending entry number [i] waits for is there.  [now] is
    what [Date.now()] returns to the entry that is built then (for a hash,
    the game-over entry, if [render] starts it). *)
Inductive PageEvent :=
  | Restarted (now : Z)
  | Clicked (rowIndex colIndex : Z) (now : Z)
  | Hashed (i : nat) (now : Z).

Definition wait (entry : option LogEntry) (k : Continuation) : list Pending :=
  match entry with
  | Some logEntry => [ {| pendingEntry := logEntry; continuation := k |} ]
  | None => []
  end.

(** One event.  A click before the first game is ignored (the guard
    [!currentGameState]).  When a hash is there, [addLogEntry] finishes on
    the session as it is by then, and the handler that called it goes on in
    the same turn of the event loop. *)
Definition page_step (p : Page) (ev : PageEvent) : completion Page :=
  match ev with
  | Restarted now =>
      let '(s, logEntry) := startGame_begin now in
      Returns {| session := Some s; pending := pending p ++ wait (Some logEntry) ThenRender |}
  | Clicked rowIndex colIndex now =>
      match session p with
      | None => Returns p
      | Some s =>
          started ←! handleCellClick_begin s rowIndex colIndex now;
          Returns {| session := Some started.1;
                     pending := pending p ++ wait started.2 ThenRender |}
      end
  | Hashed i now =>
      match pending p !! i, session p with
      | Some waiting, Some s =>
          let s := addLogEntry_end s (pendingEntry waiting) in
          let others := delete i (pending p) in
          match continuation waiting with
          | ThenRender =>
              Returns {| session := Some s;
                         pending := others ++ wait (render_begin s now) ThenSubmit |}
          | ThenSubmit => Returns {| session := Some s; pending := others |}
          end
      | _, _ => Returns p
      end
  end.

(** The page after a list of events, from the page as it is loaded. *)
Fixpoint run_from (p : Page) (events : list PageEvent) : completion Page :=
  match events with
  | [] => Returns p
  | ev :: rest => p' ←! page_step p ev; run_from p' rest
  end.

Definition run (events : list PageEvent) : completion Page := run_from initial_page events.

(** The session once no handler is waiting. *)
Definition settled (p : Page) : option Session :=
  match pending p with
  | [] => session p
  | _ :: _ => None
  end.

(** No overlap: every click, on a cell or on the restart button, arrives
    when no handler is waiting for a hash. *)
Fixpoint serial_from (p : Page) (events : list PageEvent) : bool :=
  match events with
  | [] => true
  | ev :: rest =>
      match ev with
      | Hashed _ _ => true
      | _ => bool_decide (length (pending p) = 0%nat)
      end &&
      match page_step p ev with
      | Returns p' => serial_from p' rest
      | Throws _ => true
      end
  end.

Definition serial (events : list PageEvent) : bool := serial_from initial_page events.

(** ** The state machine on a store of arrays *)

(** JavaScript arrays are objects: a board is a reference to an array of
    references to rows, and [newBoard[r][c] = symbol] writes into a row that
    whoever holds a reference to it will see changed.  This is [transition]
    with that store made explicit: where it allocates ([cloneBoard]) and
    where it writes. *)
Module Store.

Abbreviation loc := nat.

(** An array element of a board: a cell, or a reference to a row. *)
Inductive slot :=
  | Str (s : string)
  | Ref (l : loc).

(** The arrays by address; allocation appends. *)
Abbreviation store := (list (list slot)).

Definition alloc (h : store) (arr : list slot) : store * loc :=
  (h ++ [arr], length h).

Definition slot_string (v : slot) : option string :=
  match v with
  | Str s => Some s
  | Ref _ => None
  end.

Definition read_row (h : store) (v : slot) : option (list string) :=
  match v with
  | Ref l => arr ← h !! l; mapM slot_string arr
  | Str _ => None
  end.

(** The board a reference stands for, read through the store. *)
Definition read_board (h : store) (board : loc) : option Board :=
  arr ← h !! board; mapM (read_row h) arr.

Definition read (h : store) (board : loc) : completion Board :=
  match read_board h board with
  | Some b => Returns b
  | None => Throws (TypeError "not a board")
  end.

(** [JSON.parse] of the text of a board: every array is a new one. *)
Fixpoint alloc_rows (h : store) (rows : Board) : store * list slot :=
  match rows with
  | [] => (h, [])
  | row :: rest =>
      let '(h1, l) := alloc h (Str <$> row) in
      let '(h2, refs) := alloc_rows h1 rest in
      (h2, Ref l :: refs)
  end.

Definition alloc_board (h : store) (b : Board) : store * loc :=
  let '(h1, refs) := alloc_rows h b in
  alloc h1 refs.

(** [cloneBoard]: [JSON.parse(JSON.stringify(board))]. *)
Definition cloneBoard (h : store) (board : loc) : completion (store * loc) :=
  b ←! read h board; Returns (alloc_board h b).

(** [board[r][c] = v]: the row is looked up and written in place. *)
Definition board_set (h : store) (board : loc) (r c : Z) (v : string) : completion store :=
  match h !! board with
  | Some arr =>
      match Array_get arr r with
      | Some (Ref rl) =>
          match h !! rl with
          | Some row => Returns (<[rl := <[Z.to_nat c := Str v]> row]> h)
          | None => Throws (TypeError "not a board")
          end
      | Some (Str _) => Throws (TypeError "not a board")
      | None => Throws (TypeError "Cannot set properties of undefined")
      end
  | None => Throws (TypeError "not a board")
  end.

Record GameState := {
  currentState : string;
  board : loc;
  playerX : string;
  playerO : string
}.

Record TransitionResult := {
  newState : string;
  isValidMove : bool;
  newBoard : option loc;
  error : option string
}.

Definition invalid_move (currentState reason : string) : TransitionResult :=
  {| newState := currentState; isValidMove := false; newBoard := None; error := Some reason |}.

Definition valid_move (state : string) (board : loc) : TransitionResult :=
  {| newState := state; isValidMove := true; newBoard := Some board; error := None |}.

(** The case of a player's turn, as [player_move] above; the reads of the
    board go through the store, the clone is allocated in it and the symbol
    is written into the clone. *)
Definition player_move (h : store) (currentState : string) (board : loc)
    (mover symbol winState nextState notYourTurn : string)
    (playerId : option string) (rowIndex colIndex : Z)
  : completion (store * TransitionResult) :=
  if negb (bool_decide (playerId = Some mover)) then
    Returns (h, invalid_move currentState notYourTurn)
  else
    occupied ←!
      (if (rowIndex <? 0)%Z || (2 <? rowIndex)%Z || (colIndex <? 0)%Z || (2 <? colIndex)%Z
       then Returns true
       else b ←! read h board;
            cell ←! board_get b rowIndex colIndex;
            Returns (negb (bool_decide (cell = Some ""))));
    if occupied : bool then
      Returns (h, invalid_move currentState "Invalid move: cell is occupied or out of bounds.")
    else
      cloned ←! cloneBoard h board;
      let '(h, newBoard) := cloned in
      h ←! board_set h newBoard rowIndex colIndex symbol;
      placed ←! read h newBoard;
      won ←! checkWin placed symbol;
      if won : bool then Returns (h, valid_move winState newBoard)
      else if checkDraw placed then Returns (h, valid_move STATES.GAME_OVER_DRAW newBoard)
      else Returns (h, valid_move nextState newBoard).

Definition transition (h : store) (currentGameState : GameState) (event : string)
    (eventData : EventData)
  : completion (store * TransitionResult) :=
  match move eventData with
  | None => Throws (Error "Invalid arguments provided to FSM transition function.")
  | Some mv =>
    if String.eqb event "" then
      Throws (Error "Invalid arguments provided to FSM transition function.")
    else
      let currentState := currentState currentGameState in
      let board := board currentGameState in
      let rowIndex := rowIndex mv in
      let colIndex := colIndex mv in
      let default :=
        Returns (h, invalid_move currentState
                   ("No valid transition for event " +:+ event +:+ " from state " +:+
                    currentState +:+ ".")) in
      if String.eqb currentState STATES.PLAYER_X_TURN then
        if String.eqb event EVENTS.PLAYER_MOVE_ATTEMPTED then
          player_move h currentState board (playerX currentGameState) "X"
            STATES.GAME_OVER_X_WINS STATES.PLAYER_O_TURN "Not player X's turn."
            (playerId eventData) rowIndex colIndex
        else default
      else if String.eqb currentState STATES.PLAYER_O_TURN then
        if String.eqb event EVENTS.PLAYER_MOVE_ATTEMPTED then
          player_move h currentState board (playerO currentGameState) "O"
            STATES.GAME_OVER_O_WINS STATES.PLAYER_X_TURN "Not player O's turn."
            (playerId eventData) rowIndex colIndex
        else default
      else if String.eqb currentState STATES.GAME_OVER_X_WINS
              || String.eqb currentState STATES.GAME_OVER_O_WINS
              || String.eqb currentState STATES.GAME_OVER_DRAW then
        Returns (h, invalid_move currentState "Game is already over.")
      else default
  end.

(** Every array that was in the store is still there, as it was. *)
Definition extends (h h' : store) : Prop :=
  ∀ l arr, h !! l = Some arr → h' !! l = Some arr.

End Store.

(** The game state a stored one stands for, given its board. *)
Definition GameState_value (st : Store.GameState) (b : Board) : GameState :=
  {| currentState := Store.currentState st; board := b;
     playerX := Store.playerX st; playerO := Store.playerO st |}.

(** The transition result a stored one stands for: its board is read
    through the store. *)
Definition TransitionResult_value (h : Store.store) (r : Store.TransitionResult)
  : option TransitionResult :=
  match Store.newBoard r with
  | Some l =>
      b ← Store.read_board h l;
      Some {| newState := Store.newState r; isValidMove := Store.isValidMove r;
              newBoard := Some b; error := Store.error r |}
  | None =>
      Some {| newState := Store.newState r; isValidMove := Store.isValidMove r;
              newBoard := None; error := Store.error r |}
  end.
(** * Properties *)

(** ** Properties of the serializer *)

Section canonical.

Global Instance key_le_total : Total key_le.
Proof. intros a b. unfold key_le. apply String.leb_total. Qed.

Global Instance key_le_antisymm : AntiSymm (=) key_le.
Proof. intros a b. unfold key_le. apply String.leb_antisym. Qed.

Lemma ascii_compare_Lt_trans a b c :
  Ascii.compare a b = Lt → Ascii.compare b c = Lt → Ascii.compare a c = Lt.
Proof.
  unfold Ascii.compare. rewrite !N.compare_lt_iff. apply N.lt_trans.
Qed.

Lemma string_compare_Lt_trans a : ∀ b c,
  String.compare a b = Lt → String.compare b c = Lt → String.compare a c = Lt.
Proof.
  induction a as [|x a IH]; intros [|y b] [|z c]; simpl; try congruence.
  destruct (Ascii.compare x y) eqn:Hxy; try congruence;
    destruct (Ascii.compare y z) eqn:Hyz; try congruence; intros H1 H2.
  - apply Ascii.compare_eq_iff in Hxy, Hyz. subst.
    unfold Ascii.compare at 1. rewrite N.compare_refl. eauto.
  - apply Ascii.compare_eq_iff in Hxy. subst. by rewrite Hyz.
  - apply Ascii.compare_eq_iff in Hyz. subst. by rewrite Hxy.
  - by rewrite (ascii_compare_Lt_trans _ _ _ Hxy Hyz).
Qed.

Lemma string_compare_refl a : String.compare a a = Eq.
Proof.
  induction a as [|x a IH]; simpl; [done|].
  unfold Ascii.compare. by rewrite N.compare_refl.
Qed.

Global Instance key_le_trans : Transitive key_le.
Proof.
  intros a b c. unfold key_le, String.leb.
  destruct (String.compare a b) eqn:Hab; [| |discriminate];
    (destruct (String.compare b c) eqn:Hbc; [| |discriminate]); intros _ _.
  - apply String.compare_eq_iff in Hab, Hbc. subst. by rewrite string_compare_refl.
  - apply String.compare_eq_iff in Hab. subst. by rewrite Hbc.
  - apply String.compare_eq_iff in Hbc. subst. by rewrite Hab.
  - by rewrite (string_compare_Lt_trans _ _ _ Hab Hbc).
Qed.

(** Sorting forgets the order the keys came in. *)
Lemma sort_keys_perm ks ks' : ks ≡ₚ ks' → sort_keys ks = sort_keys ks'.
Proof.
  intros Hp. unfold sort_keys.
  apply (Sorted_unique key_le); try apply Sorted_merge_sort; try apply _.
  by rewrite !merge_sort_Permutation.
Qed.

Lemma elem_of_sort_keys k ks : k ∈ sort_keys ks ↔ k ∈ ks.
Proof. unfold sort_keys. by rewrite merge_sort_Permutation. Qed.

(** Reading a table finds a property that is in it. *)
Lemma get_prop_elem_of {A} (d : A) props key :
  key ∈ map fst props → ∃ v, (key, v) ∈ props ∧ get_prop d props key = v.
Proof.
  induction props as [|[k v] rest IH]; simpl; intros Hin.
  - by apply elem_of_nil in Hin.
  - destruct (String.eqb_spec k key) as [->|Hne].
    + exists v. split; [left|done].
    + apply elem_of_cons in Hin as [Heq|Hin]; [congruence|].
      destruct (IH Hin) as (w & Hw & Hg). exists w. split; [by right|done].
Qed.

Lemma get_prop_map {A B} (f : A → B) (d : A) props key :
  get_prop (f d) (map (fun kv => match kv with (k, v) => (k, f v) end) props) key
  = f (get_prop d props key).
Proof.
  induction props as [|[k v] rest IH]; simpl; [done|].
  by destruct (String.eqb k key).
Qed.

Lemma get_prop_default_irrel {A} (d d' : A) props key :
  key ∈ map fst props → get_prop d props key = get_prop d' props key.
Proof.
  induction props as [|[k v] rest IH]; simpl; intros Hin.
  - by apply elem_of_nil in Hin.
  - destruct (String.eqb_spec k key) as [->|Hne]; [done|].
    apply elem_of_cons in Hin as [Heq|Hin]; [congruence|]. by apply IH.
Qed.

(** The object case in the shape of the source: each sorted key is
    emitted with the serialization of [obj[key]]. *)
Lemma getCanonicalString_obj props :
  getCanonicalString (JObj props) =
  "{" +:+ String.concat ","
           (map (fun key => JSON_stringify_string key +:+ ":" +:+
                            getCanonicalString (get_prop JNull props key))
                (sort_keys (Object_keys props))) +:+ "}".
Proof.
  simpl. do 3 f_equal.
  apply map_ext_in. intros key Hin. do 2 f_equal.
  apply list_elem_of_In in Hin. rewrite elem_of_sort_keys in Hin.
  rewrite <- (get_prop_map getCanonicalString JNull).
  apply get_prop_default_irrel.
  unfold Object_keys in Hin. by rewrite map_map, (map_ext _ fst) by (by intros []).
Qed.

End canonical.

Section canonical_order.

Lemma map_pointwise {A B} (f : A → B) (xs : list A) : ∀ ys : list A,
  length xs = length ys →
  (∀ i x y, xs !! i = Some x → ys !! i = Some y → f x = f y) →
  map f xs = map f ys.
Proof.
  induction xs as [|x xs IH]; intros [|y ys] Hlen Hpt; simpl in *; try done.
  f_equal.
  - by apply (Hpt 0).
  - apply IH; [lia|]. intros i. apply (Hpt (S i)).
Qed.

(** C8. [getCanonicalString] is a function of the value alone: two trees
    that are the same value up to the order in which object keys were
    inserted serialize to the identical string, because the keys are
    sorted again before every emission. *)
Theorem getCanonicalString_insertion_order (a b : json) :
  same_value a b → getCanonicalString a = getCanonicalString b.
Proof.
  induction 1 as [ | | | | xs ys Hlen _ IH | ps qs Hkeys _ IH ]; try done.
  - simpl. do 3 f_equal. by apply map_pointwise.
  - rewrite !getCanonicalString_obj, (sort_keys_perm _ _ Hkeys).
    do 3 f_equal. apply map_ext_in. intros key Hin. do 2 f_equal.
    apply list_elem_of_In in Hin. rewrite elem_of_sort_keys in Hin.
    destruct (get_prop_elem_of JNull qs key Hin) as (w & Hw & ->).
    unfold Object_keys in Hkeys. rewrite <- Hkeys in Hin.
    destruct (get_prop_elem_of JNull ps key Hin) as (v & Hv & ->).
    by apply (IH key).
Qed.

End canonical_order.

(** A log-entry-like object written twice, with its keys inserted in two
    different orders (also inside the nested object). *)
Definition sample_inserted_1 : json :=
  JObj [("sequence", JNum 1); ("eventType", JStr "PLAYER_MOVE_VALIDATED");
        ("eventData", JObj [("playerId", JStr "DOGE");
                            ("move", JObj [("rowIndex", JNum 0); ("colIndex", JNum 2)])]);
        ("boardState", JArr [JArr [JStr ""; JStr ""; JStr "X"]; JNull; JBool true])].

Definition sample_inserted_2 : json :=
  JObj [("boardState", JArr [JArr [JStr ""; JStr ""; JStr "X"]; JNull; JBool true]);
        ("eventData", JObj [("move", JObj [("colIndex", JNum 2); ("rowIndex", JNum 0)]);
                            ("playerId", JStr "DOGE")]);
        ("sequence", JNum 1); ("eventType", JStr "PLAYER_MOVE_VALIDATED")].

Example sample_inserted_1_canonical :
  getCanonicalString sample_inserted_1 =
  String.concat (String dquote EmptyString)
    ["{"; "boardState"; ":[["; ""; ","; ""; ","; "X"; "],null,true],";
     "eventData"; ":{"; "move"; ":{"; "colIndex"; ":2,"; "rowIndex"; ":0},";
     "playerId"; ":"; "DOGE"; "},"; "eventType"; ":"; "PLAYER_MOVE_VALIDATED"; ",";
     "sequence"; ":1}"].
Proof. vm_compute. reflexivity. Qed.

Ltac same_value_members :=
  repeat match goal with
         | H : _ ∈ [] |- _ => by apply elem_of_nil in H
         | H : _ ∈ _ :: _ |- _ => apply elem_of_cons in H as [H|H]
         end; simplify_eq.

Ltac same_value_items :=
  let i := fresh "i" in
  intros i ? ?;
  repeat (lazymatch goal with
          | |- (_ :: _) !! _ = Some _ → _ =>
              destruct i as [|i]; simpl; [intros [= <-] [= <-]|]
          end);
  try (simpl; discriminate).

Ltac solve_same_value :=
  lazymatch goal with
  | |- same_value (JObj _) (JObj _) =>
      apply same_obj;
      [ by apply (bool_decide_unpack _)
      | let Hv := fresh "Hv" in
        let Hw := fresh "Hw" in
        intros ? ? ? Hv Hw; same_value_members; solve_same_value ]
  | |- same_value (JArr _) (JArr _) =>
      apply same_arr; [ done | same_value_items; solve_same_value ]
  | |- same_value _ _ => constructor
  end.

Lemma sample_inserted_same : same_value sample_inserted_1 sample_inserted_2.
Proof. unfold sample_inserted_1, sample_inserted_2. solve_same_value. Defined.

Lemma getCanonicalString_insertion_order_witness :
  getCanonicalString sample_inserted_1 = getCanonicalString sample_inserted_2.
Proof.
  apply (getCanonicalString_insertion_order sample_inserted_1 sample_inserted_2).
  exact sample_inserted_same.
Defined.

(** The test vectors of FIPS 180-4 (the empty message, and one block). *)
Example sha256_hex_empty :
  sha256_hex EmptyString = "e3b0c44298fc1c149afbf4c8996fb92427ae41e4649b934ca495991b7852b855".
Proof. vm_compute. reflexivity. Qed.

Example sha256_hex_abc :
  sha256_hex "abc" = "ba7816bf8f01cfea414140de5dae2223b00361a396177a9cb410ff61f20015ad".
Proof. vm_compute. reflexivity. Qed.

Example sha256_hex_two_blocks :
  sha256_hex "abcdbcdecdefdefgefghfghighijhijkijkljklmklmnlmnomnopnopq"
  = "248d6a61d20638b8e5c026930c3e6039a33ce45964ff2167f6ecedd419db06c1".
Proof. vm_compute. reflexivity. Qed.

#[local] Arguments getCanonicalString : simpl never.
#[local] Arguments Board_json : simpl never.

(** ** Properties of the hash chain *)

Section hash_chain.

Implicit Types (e : LogEntry) (log pre post : list LogEntry) (prev : string).

(** Removing the property and hashing is hashing the seven other fields. *)
Lemma calculateEntryHash_entryHash e : calculateEntryHash e = entryHash e.
Proof. reflexivity. Qed.

(** The stored hash is no input of the entry's hash. *)
Lemma calculateEntryHash_ignores_stored e h :
  calculateEntryHash
    {| sequence := sequence e; eventType := eventType e;
       clientTimestamp := clientTimestamp e; eventData := eventData e;
       boardState := boardState e; fsmState := fsmState e;
       previousEntryChainHash := previousEntryChainHash e;
       currentEntryChainHash := h |} = calculateEntryHash e.
Proof. reflexivity. Qed.

(** The chain, entry after entry, from the hash the first one has to name. *)
Fixpoint linked prev log : Prop :=
  match log with
  | [] => True
  | e :: rest =>
      previousEntryChainHash e = prev ∧ currentEntryChainHash e = entryHash e ∧
      linked (currentEntryChainHash e) rest
  end.

Definition expected_from prev log : string :=
  match last log with
  | Some e => currentEntryChainHash e
  | None => prev
  end.

Lemma expected_from_cons prev e log :
  expected_from prev (e :: log) = expected_from (currentEntryChainHash e) log.
Proof.
  unfold expected_from. rewrite last_cons. by destruct (last log).
Qed.

Lemma verifyHashChain_loop_true prev log :
  fst (verifyHashChain_loop prev log) = true ↔ linked prev log.
Proof.
  revert prev. induction log as [|e rest IH]; intros prev; simpl; [done|].
  destruct (String.eqb_spec (previousEntryChainHash e) prev) as [Hp|Hp]; simpl.
  - rewrite calculateEntryHash_entryHash.
    destruct (String.eqb_spec (entryHash e) (currentEntryChainHash e)) as [Hc|Hc]; simpl.
    + rewrite IH. split; [by intros ?; split_and!|by intros (_ & _ & ?)].
    + split; [done|]. intros (_ & Hc' & _). congruence.
  - split; [done|]. intros (Hp' & _). congruence.
Qed.

Lemma linked_intact prev log :
  linked prev log ↔
  (∀ e, log !! 0%nat = Some e → previousEntryChainHash e = prev) ∧
  (∀ i e e', log !! i = Some e → log !! S i = Some e' →
             previousEntryChainHash e' = currentEntryChainHash e) ∧
  (∀ (i : nat) e, log !! i = Some e → currentEntryChainHash e = entryHash e).
Proof.
  revert prev. induction log as [|e rest IH]; intros prev; simpl.
  - split; [|done]. intros _. by split_and!; intros; simplify_eq.
  - rewrite IH. split.
    + intros (Hp & Hc & Hfirst & Hlink & Hhash). split_and!.
      * by intros ? [= <-].
      * intros [|i] e1 e2; simpl.
        -- intros [= <-]. apply Hfirst.
        -- apply Hlink.
      * intros [|i] e1; simpl; [by intros [= <-]|apply Hhash].
    + intros (Hfirst & Hlink & Hhash). split_and!.
      * by apply Hfirst.
      * by apply (Hhash 0%nat).
      * intros e'. by apply (Hlink 0%nat).
      * intros i. apply (Hlink (S i)).
      * intros i. apply (Hhash (S i)).
Qed.

Lemma chain_intact_linked log : chain_intact log ↔ linked zeroHash log.
Proof.
  rewrite linked_intact. split.
  - by intros [].
  - intros (? & ? & ?). by constructor.
Qed.

(** Past a linked prefix the loop is where it would be had it started
    there: nothing of the prefix is looked at again. *)
Lemma verifyHashChain_loop_app prev pre rest :
  linked prev pre →
  verifyHashChain_loop prev (pre ++ rest) = verifyHashChain_loop (expected_from prev pre) rest.
Proof.
  revert prev. induction pre as [|e pre IH]; intros prev; simpl; [done|].
  intros (-> & Hc & Hl). rewrite String.eqb_refl. simpl.
  rewrite calculateEntryHash_entryHash, <- Hc, String.eqb_refl. simpl.
  by rewrite IH, expected_from_cons.
Qed.

(** At a violating entry the loop returns, whatever follows. *)
Lemma verifyHashChain_loop_violation prev e post :
  previousEntryChainHash e ≠ prev ∨ currentEntryChainHash e ≠ entryHash e →
  verifyHashChain_loop prev (e :: post) = verifyHashChain_loop prev [e] ∧
  ∃ message data,
    verifyHashChain_loop prev [e] =
    (false, [logger_error message (("sequence", JNum (sequence e)) :: data)]).
Proof.
  intros Hv. simpl.
  destruct (String.eqb_spec (previousEntryChainHash e) prev) as [Hp|Hp]; simpl.
  - rewrite calculateEntryHash_entryHash.
    destruct (String.eqb_spec (entryHash e) (currentEntryChainHash e)) as [Hc|Hc]; simpl.
    + destruct Hv; congruence.
    + eauto.
  - eauto.
Qed.

(** C2. [verifyHashChain] returns true exactly for the logs whose entry 0
    names the zero hash, whose every later entry names the stored hash of
    the entry before it, and whose every entry stores the SHA-256 of its
    canonical serialization without the stored hash.  At the first entry
    that violates this it returns false; the whole outcome (also the one
    line it logs, which carries that entry's sequence number) is the outcome
    on the log cut after that entry: no later entry is processed. *)
Theorem verifyHashChain_correct (gameLog : list LogEntry) :
  (fst (verifyHashChain gameLog) = true ↔ chain_intact gameLog) ∧
  (∀ pre e post,
     gameLog = pre ++ e :: post → chain_intact pre → violates pre e →
     fst (verifyHashChain gameLog) = false ∧
     verifyHashChain gameLog = verifyHashChain (pre ++ [e]) ∧
     ∃ message data,
       snd (verifyHashChain gameLog) =
       [logger_error message (("sequence", JNum (sequence e)) :: data)]).
Proof.
  split.
  - unfold verifyHashChain. by rewrite verifyHashChain_loop_true, chain_intact_linked.
  - intros pre e post -> Hpre Hv. apply chain_intact_linked in Hpre.
    unfold verifyHashChain.
    rewrite !verifyHashChain_loop_app by done.
    destruct (verifyHashChain_loop_violation (expected_from zeroHash pre) e post Hv)
      as (-> & m & d & ->).
    split_and!; [done|done|by eauto].
Qed.

End hash_chain.

(** ** Properties of the state machine *)

Section fsm.

Implicit Types (b : Board) (st : GameState) (ed : EventData) (r c : Z).

(** *** Callbacks that return *)

Lemma Array_every_total {A} (f : A → completion bool) (l : list A) :
  Forall (fun x => ∃ v, f x = Returns v) l → ∃ v, Array_every f l = Returns v.
Proof.
  induction 1 as [|x l [v Hv] _ IH]; simpl; [eauto|].
  rewrite Hv. simpl. destruct v; eauto.
Qed.

Lemma Array_some_total {A} (f : A → completion bool) (l : list A) :
  Forall (fun x => ∃ v, f x = Returns v) l → ∃ v, Array_some f l = Returns v.
Proof.
  induction 1 as [|x l [v Hv] _ IH]; simpl; [eauto|].
  rewrite Hv. simpl. destruct v; eauto.
Qed.

Lemma Array_every_true {A} (f : A → completion bool) (l : list A) :
  Array_every f l = Returns true → Forall (fun x => f x = Returns true) l.
Proof.
  induction l as [|x l IH]; simpl; [by constructor|].
  destruct (f x) as [[]|] eqn:Hx; simpl; try done. intros H. constructor; auto.
Qed.

Lemma Array_every_false {A} (f : A → completion bool) (l : list A) :
  Array_every f l = Returns false → Exists (fun x => f x = Returns false) l.
Proof.
  induction l as [|x l IH]; simpl; [done|].
  destruct (f x) as [[]|] eqn:Hx; simpl; try done.
  - intros H. right. auto.
  - intros _. by left.
Qed.

Lemma Array_some_true {A} (f : A → completion bool) (l : list A) :
  Array_some f l = Returns true → Exists (fun x => f x = Returns true) l.
Proof.
  induction l as [|x l IH]; simpl; [done|].
  destruct (f x) as [[]|] eqn:Hx; simpl; try done.
  - intros _. by left.
  - intros H. right. auto.
Qed.

Lemma Array_some_false {A} (f : A → completion bool) (l : list A) :
  Array_some f l = Returns false → Forall (fun x => f x = Returns false) l.
Proof.
  induction l as [|x l IH]; simpl; [by constructor|].
  destruct (f x) as [[]|] eqn:Hx; simpl; try done. intros H. constructor; auto.
Qed.

(** *** Reading the board *)

Lemma board_get_cell_at b r c v :
  board_get b r c = Returns v → cell_at b r c = v.
Proof.
  unfold board_get, cell_at. destruct (Array_get b r); [|done]. by intros [= ->].
Qed.

Lemma Array_get_Some {A} (l : list A) (i : Z) x :
  Array_get l i = Some x ↔ (0 ≤ i)%Z ∧ l !! Z.to_nat i = Some x.
Proof.
  unfold Array_get. destruct (Z.ltb_spec i 0).
  - split; [done|]. intros [? _]. lia.
  - split; [intros ?; split; [lia|done]|by intros [_ ?]].
Qed.

Lemma Array_get_in_range {A} (l : list A) (i : Z) :
  (0 ≤ i < Z.of_nat (length l))%Z → is_Some (Array_get l i).
Proof.
  intros Hi. unfold Array_get. destruct (Z.ltb_spec i 0); [lia|].
  apply lookup_lt_is_Some. lia.
Qed.

Lemma board_get_3x3 b r c :
  is_3x3 b → (0 ≤ r ≤ 2)%Z → board_get b r c = Returns (cell_at b r c).
Proof.
  intros [Hlen _] Hr. unfold board_get, cell_at.
  destruct (Array_get_in_range b r) as [row ->]; [lia|done].
Qed.

Lemma cell_at_3x3 b r c :
  is_3x3 b → (0 ≤ r ≤ 2)%Z → (0 ≤ c ≤ 2)%Z → is_Some (cell_at b r c).
Proof.
  intros [Hlen Hrows] Hr Hc. unfold cell_at.
  destruct (Array_get_in_range b r) as [row Hrow]; [lia|]. rewrite Hrow.
  apply Array_get_Some in Hrow as [_ Hrow].
  rewrite Forall_lookup in Hrows. apply Hrows in Hrow.
  apply Array_get_in_range. lia.
Qed.

(** *** [checkWin] and [checkDraw] decide the worded conditions *)

Lemma winConditions_triples : winConditions = rows ++ columns ++ diagonals.
Proof. reflexivity. Qed.

Lemma checkWin_has_three_in_line b symbol v :
  checkWin b symbol = Returns v → v = true ↔ has_three_in_line b symbol.
Proof.
  unfold checkWin, has_three_in_line. rewrite <- winConditions_triples.
  destruct v; intros H.
  - split; [intros _|done]. apply Array_some_true in H.
    eapply Exists_impl; [exact H|]. intros comb Hc. apply Array_every_true in Hc.
    eapply Forall_impl; [exact Hc|]. intros [r c]; simpl.
    destruct (board_get b r c) as [cell|] eqn:Hg; simpl; [|done].
    apply board_get_cell_at in Hg. rewrite Hg.
    intros [= Hd]. by apply bool_decide_eq_true in Hd.
  - split; [done|]. intros Hline. exfalso. apply Array_some_false in H.
    rewrite Exists_exists in Hline. destruct Hline as (comb & Hin & Hall).
    rewrite Forall_forall in H. specialize (H comb Hin).
    apply Array_every_false, Exists_exists in H as ([r c] & Hrc & Hf).
    rewrite Forall_forall in Hall. specialize (Hall _ Hrc). simpl in *.
    destruct (board_get b r c) as [cell|] eqn:Hg; simpl in Hf; [|done].
    apply board_get_cell_at in Hg. rewrite Hg in Hall.
    injection Hf as Hf. by apply bool_decide_eq_false in Hf.
Qed.

Lemma checkWin_3x3 b symbol : is_3x3 b → ∃ v, checkWin b symbol = Returns v.
Proof.
  intros Hb. unfold checkWin. apply Array_some_total.
  assert (Hcell : ∀ r c, (0 ≤ r ≤ 2)%Z →
    ∃ v, (cell ←! board_get b r c; Returns (bool_decide (cell = Some symbol))) = Returns v).
  { intros r c Hr. rewrite board_get_3x3 by done. simpl. eauto. }
  repeat (apply Forall_cons; split;
          [apply Array_every_total; repeat (apply Forall_cons; split; [apply Hcell; simpl; lia|]);
           apply Forall_nil_2|]).
  apply Forall_nil_2.
Qed.

Lemma checkDraw_no_empty_cell b : checkDraw b = true ↔ no_empty_cell b.
Proof.
  unfold checkDraw, no_empty_cell. rewrite forallb_forall. split.
  - intros Hall r c Hcell. unfold cell_at in Hcell.
    destruct (Array_get b r) as [row|] eqn:Hrow; [|done].
    apply Array_get_Some in Hrow as [_ Hrow], Hcell as [_ Hcell].
    apply list_elem_of_lookup_2, list_elem_of_In, Hall in Hrow.
    rewrite forallb_forall in Hrow.
    apply list_elem_of_lookup_2, list_elem_of_In, Hrow in Hcell. done.
  - intros Hno row Hrow. rewrite forallb_forall. intros cell Hcell.
    destruct (String.eqb_spec cell "") as [->|]; [|done]. exfalso.
    apply list_elem_of_In, list_elem_of_lookup in Hrow as [i Hi], Hcell as [j Hj].
    apply (Hno (Z.of_nat i) (Z.of_nat j)). unfold cell_at.
    assert (Array_get b (Z.of_nat i) = Some row) as ->.
    { apply Array_get_Some. rewrite Nat2Z.id. split; [lia|done]. }
    apply Array_get_Some. rewrite Nat2Z.id. split; [lia|done].
Qed.

(** *** Placing a symbol *)

Lemma insert_alter_lookup {A} (f : A → A) (l : list A) : ∀ i x,
  l !! i = Some x → <[i := f x]> l = alter f i l.
Proof.
  induction l as [|y l IH]; intros [|i] x; simpl; try done.
  - by intros [= ->].
  - intros H. f_equal. by apply IH.
Qed.

Lemma board_set_place b r c symbol :
  is_Some (Array_get b r) → board_set b r c symbol = Returns (place b r c symbol).
Proof.
  intros [row Hrow]. unfold board_set, place. rewrite Hrow.
  apply Array_get_Some in Hrow as [_ Hrow].
  by rewrite (insert_alter_lookup (fun row => <[Z.to_nat c := symbol]> row) _ _ _ Hrow).
Qed.

Lemma place_3x3 b r c symbol : is_3x3 b → is_3x3 (place b r c symbol).
Proof.
  intros [Hlen Hrows]. unfold place. split; [by rewrite length_alter|].
  rewrite Forall_lookup in Hrows. apply Forall_lookup. intros i row.
  rewrite list_lookup_alter. case_decide as Hi; [subst i|apply Hrows].
  destruct (b !! Z.to_nat r) as [row'|] eqn:Hrow; simpl; [|done].
  intros [= <-]. rewrite length_insert. by apply (Hrows (Z.to_nat r)).
Qed.

(** The placed cell holds the symbol; every other cell is as before. *)
Lemma cell_at_place b r c symbol r' c' :
  is_Some (cell_at b r c) →
  cell_at (place b r c symbol) r' c' =
  if bool_decide (r' = r ∧ c' = c) then Some symbol else cell_at b r' c'.
Proof.
  unfold cell_at, place. intros [cell Hcell].
  destruct (Array_get b r) as [row|] eqn:Hrow; [|done].
  apply Array_get_Some in Hrow as [Hr Hrow], Hcell as [Hc Hcell].
  unfold Array_get at 1 3. destruct (Z.ltb_spec r' 0).
  { rewrite bool_decide_eq_false_2; [done|lia]. }
  rewrite list_lookup_alter. case_decide as Hrr.
  - assert (r' = r) as -> by lia. rewrite Hrow. simpl.
    unfold Array_get. destruct (Z.ltb_spec c' 0).
    { rewrite bool_decide_eq_false_2; [done|lia]. }
    destruct (decide (c' = c)) as [->|Hcc].
    + rewrite bool_decide_eq_true_2 by done.
      apply list_lookup_insert_eq. by eapply lookup_lt_Some.
    + rewrite bool_decide_eq_false_2 by naive_solver.
      apply list_lookup_insert_ne. lia.
  - rewrite bool_decide_eq_false_2; [done|]. intros [-> _]. done.
Qed.

(** *** One attempted move *)

Lemma player_move_total cs b mover symbol win next text pid r c :
  is_3x3 b → ∃ res, player_move cs b mover symbol win next text pid r c = Returns res.
Proof.
  intros Hb. unfold player_move.
  case_bool_decide; simpl; [|eauto].
  destruct ((r <? 0)%Z || (2 <? r)%Z || (c <? 0)%Z || (2 <? c)%Z) eqn:Hrange; simpl; [eauto|].
  assert ((0 ≤ r ≤ 2)%Z ∧ (0 ≤ c ≤ 2)%Z) as [Hr Hc] by lia.
  rewrite board_get_3x3 by done. simpl.
  case_bool_decide as Hcell; simpl; [|eauto].
  unfold cloneBoard. rewrite board_set_place by (apply Array_get_in_range; destruct Hb; lia).
  simpl. destruct (checkWin_3x3 (place b r c symbol) symbol) as [won ->];
    [by apply place_3x3|].
  simpl. destruct won; [eauto|]. destruct (checkDraw _); eauto.
Qed.

Inductive move_outcome (cs : string) (b : Board) (mover symbol win next text : string)
    (pid : option string) (r c : Z) : TransitionResult → Prop :=
  | outcome_wrong_turn :
      pid ≠ Some mover →
      move_outcome cs b mover symbol win next text pid r c (invalid_move cs text)
  | outcome_occupied :
      pid = Some mover →
      ¬ ((0 ≤ r ≤ 2)%Z ∧ (0 ≤ c ≤ 2)%Z ∧ cell_at b r c = Some "") →
      move_outcome cs b mover symbol win next text pid r c (invalid_move cs occupied_text)
  | outcome_placed state :
      pid = Some mover →
      (0 ≤ r ≤ 2)%Z → (0 ≤ c ≤ 2)%Z → cell_at b r c = Some "" →
      (state = win ∧ has_three_in_line (place b r c symbol) symbol ∨
       state = STATES.GAME_OVER_DRAW ∧ ¬ has_three_in_line (place b r c symbol) symbol ∧
         no_empty_cell (place b r c symbol) ∨
       state = next ∧ ¬ has_three_in_line (place b r c symbol) symbol ∧
         ¬ no_empty_cell (place b r c symbol)) →
      move_outcome cs b mover symbol win next text pid r c
        (valid_move state (place b r c symbol)).

Lemma player_move_outcome cs b mover symbol win next text pid r c res :
  player_move cs b mover symbol win next text pid r c = Returns res →
  move_outcome cs b mover symbol win next text pid r c res.
Proof.
  unfold player_move.
  case_bool_decide as Hpid; simpl; [|intros [= <-]; by constructor].
  destruct ((r <? 0)%Z || (2 <? r)%Z || (c <? 0)%Z || (2 <? c)%Z) eqn:Hrange; simpl.
  { intros [= <-]. apply outcome_occupied; [done|lia]. }
  assert ((0 ≤ r ≤ 2)%Z ∧ (0 ≤ c ≤ 2)%Z) as [Hr Hc] by lia.
  destruct (board_get b r c) as [cell|] eqn:Hget; simpl; [|done].
  apply board_get_cell_at in Hget.
  case_bool_decide as Hcell; simpl; [|intros [= <-]; apply outcome_occupied; naive_solver].
  subst cell. unfold cloneBoard. rewrite board_set_place; simpl.
  2:{ unfold cell_at in Hcell. by destruct (Array_get b r). }
  destruct (checkWin (place b r c symbol) symbol) as [won|] eqn:Hwin; simpl; [|done].
  apply checkWin_has_three_in_line in Hwin.
  destruct won.
  { intros [= <-]. apply outcome_placed; try done. left. naive_solver. }
  assert (¬ has_three_in_line (place b r c symbol) symbol) by (intros ?%Hwin; done).
  destruct (checkDraw (place b r c symbol)) eqn:Hdraw; intros [= <-];
    apply outcome_placed; try done; right.
  - left. split_and!; try done. by apply checkDraw_no_empty_cell.
  - right. split_and!; try done. rewrite <- checkDraw_no_empty_cell. by rewrite Hdraw.
Qed.

(** *** The transition function *)

(** In a turn state an attempted move runs the mover's case. *)
Lemma transition_turn st ed mv :
  is_turn (currentState st) → move ed = Some mv →
  transition st EVENTS.PLAYER_MOVE_ATTEMPTED ed =
  player_move (currentState st) (board st) (turn_player st) (turn_symbol st)
    (win_state st) (other_turn st) (wrong_turn_text st)
    (playerId ed) (rowIndex mv) (colIndex mv).
Proof.
  intros Hturn Hmv. unfold transition. rewrite Hmv.
  unfold turn_player, turn_symbol, win_state, other_turn, wrong_turn_text, x_to_move.
  destruct st as [cs b px po]; simpl in *.
  destruct Hturn as [-> | ->]; reflexivity.
Qed.

(** Only a turn state accepts a move. *)
Lemma transition_valid_is_turn st event ed res :
  transition st event ed = Returns res → isValidMove res = true →
  is_turn (currentState st) ∧ event = EVENTS.PLAYER_MOVE_ATTEMPTED.
Proof.
  unfold transition, is_turn. destruct (move ed) as [mv|]; [|done].
  destruct (String.eqb event ""); [done|].
  destruct (String.eqb_spec (currentState st) STATES.PLAYER_X_TURN) as [->|_].
  { destruct (String.eqb_spec event EVENTS.PLAYER_MOVE_ATTEMPTED) as [->|_]; [by auto|].
    by intros [= <-]. }
  destruct (String.eqb_spec (currentState st) STATES.PLAYER_O_TURN) as [->|_].
  { destruct (String.eqb_spec event EVENTS.PLAYER_MOVE_ATTEMPTED) as [->|_]; [by auto|].
    by intros [= <-]. }
  destruct (_ || _); by intros [= <-].
Qed.

Lemma turn_states_distinct st :
  win_state st ≠ STATES.GAME_OVER_DRAW ∧ win_state st ≠ other_turn st ∧
  STATES.GAME_OVER_DRAW ≠ other_turn st ∧ wrong_turn_text st ≠ occupied_text.
Proof.
  unfold win_state, other_turn, wrong_turn_text. by destruct (x_to_move st).
Qed.

(** C4. In a turn state, on a 3x3 board, an attempted move is answered,
    and it is valid exactly when the player is the one whose turn it is,
    both indices are between 0 and 2 and the targeted cell is empty.  An
    invalid move leaves the state as it is and carries no board; its error
    is the wrong-turn text when the player is not the one to move and the
    occupied-or-out-of-bounds text otherwise, and the two texts differ. *)
Theorem transition_valid_iff st ed mv :
  is_3x3 (board st) → is_turn (currentState st) → move ed = Some mv →
  ∃ res,
    transition st EVENTS.PLAYER_MOVE_ATTEMPTED ed = Returns res ∧
    (isValidMove res = true ↔
       playerId ed = Some (turn_player st) ∧
       (0 ≤ rowIndex mv ≤ 2)%Z ∧ (0 ≤ colIndex mv ≤ 2)%Z ∧
       cell_at (board st) (rowIndex mv) (colIndex mv) = Some "") ∧
    (isValidMove res = false →
       newState res = currentState st ∧ newBoard res = None ∧
       error res = Some (if bool_decide (playerId ed = Some (turn_player st))
                         then occupied_text else wrong_turn_text st)) ∧
    wrong_turn_text st ≠ occupied_text.
Proof.
  intros Hb Hturn Hmv. rewrite (transition_turn st ed mv) by done.
  destruct (player_move_total (currentState st) (board st) (turn_player st)
              (turn_symbol st) (win_state st) (other_turn st) (wrong_turn_text st)
              (playerId ed) (rowIndex mv) (colIndex mv) Hb) as [res Hres].
  exists res. split; [done|].
  apply player_move_outcome in Hres.
  split_and!; [| |apply turn_states_distinct].
  - destruct Hres as [Hpid|Hpid Hnot|state Hpid Hr Hc Hcell _]; simpl.
    + split; [done|]. by intros (? & _).
    + split; [done|]. intros (_ & ? & ? & ?). by destruct Hnot.
    + by split.
  - destruct Hres as [Hpid|Hpid Hnot|state Hpid Hr Hc Hcell _]; simpl; [| |done].
    + intros _. by rewrite bool_decide_eq_false_2.
    + intros _. by rewrite bool_decide_eq_true_2.
Qed.

(** C5. After a valid move the new board is the old one with the mover's
    symbol placed in the targeted cell, and the new state is the mover's
    win exactly when one of the eight triples of the new board holds the
    mover's symbol three times; without such a triple it is the draw
    exactly when no empty cell remains, and otherwise the other player's
    turn. *)
Theorem transition_valid_outcome st ed mv res :
  move ed = Some mv →
  transition st EVENTS.PLAYER_MOVE_ATTEMPTED ed = Returns res →
  isValidMove res = true →
  let symbol := turn_symbol st in
  let placed := place (board st) (rowIndex mv) (colIndex mv) symbol in
  newBoard res = Some placed ∧
  (newState res = win_state st ↔ has_three_in_line placed symbol) ∧
  (¬ has_three_in_line placed symbol →
     (newState res = STATES.GAME_OVER_DRAW ↔ no_empty_cell placed)) ∧
  (¬ has_three_in_line placed symbol → ¬ no_empty_cell placed →
     newState res = other_turn st).
Proof.
  intros Hmv Hres Hvalid.
  destruct (transition_valid_is_turn _ _ _ _ Hres Hvalid) as [Hturn _].
  rewrite (transition_turn st ed mv) in Hres by done.
  apply player_move_outcome in Hres.
  destruct (turn_states_distinct st) as (Hwd & Hwo & Hdo & _).
  destruct Hres as [| |state _ _ _ _ Hstate]; try done. simpl.
  split; [done|].
  destruct Hstate as [[-> Hline]|[(-> & Hline & Hfull)|(-> & Hline & Hfull)]];
    intuition congruence.
Qed.

(** C6. In a game-over state every event (an event name and event data
    that pass the function's argument check) is rejected: the move is
    invalid, the error is the game-over text, no board is returned and the
    state is the one it was. *)
Theorem transition_game_over st event ed mv :
  is_game_over (currentState st) → event ≠ "" → move ed = Some mv →
  transition st event ed =
  Returns {| newState := currentState st; isValidMove := false;
             newBoard := None; error := Some "Game is already over." |}.
Proof.
  intros Hover Hevent Hmv. unfold transition. rewrite Hmv.
  destruct (String.eqb_spec event "") as [|_]; [done|].
  destruct st as [cs b px po]; simpl in *.
  destruct Hover as [-> | [-> | ->]]; reflexivity.
Qed.

End fsm.

(** ** Properties of the replay verifier *)

Section replay.

Implicit Types (e : LogEntry) (st : GameState) (res : TransitionResult).

(** The loop runs to its end over entries that replay. *)
Lemma verifyFsmGameplay_loop_replayed st entries st' :
  replayed st entries st' →
  verifyFsmGameplay_loop st entries = Returns (LoopDone st').
Proof.
  induction 1 as [|st e res b rest st' Hres Hvalid Hstate Hboard Hhash _ IH]; simpl; [done|].
  unfold recorded_attempt in Hres. rewrite Hres. simpl.
  rewrite Hvalid, Hboard. simpl.
  destruct (String.eqb_spec (newState res) (fsmState e)); [|done]. simpl.
  by rewrite Hhash, String.eqb_refl.
Qed.

(** ... and where it runs to its end, the entries replay. *)
Lemma verifyFsmGameplay_loop_done st entries st' :
  verifyFsmGameplay_loop st entries = Returns (LoopDone st') →
  replayed st entries st'.
Proof.
  revert st. induction entries as [|e rest IH]; intros st; simpl.
  - intros [= <-]. constructor.
  - destruct (transition st _ _) as [res|] eqn:Hres; simpl; [|done].
    destruct (isValidMove res) eqn:Hvalid; simpl; [|done].
    destruct (String.eqb_spec (newState res) (fsmState e)) as [Hstate|]; simpl; [|done].
    destruct (newBoard res) as [b|] eqn:Hboard; simpl; [|done].
    destruct (String.eqb_spec (sha256_hex (getCanonicalString (Board_json b)))
                (sha256_hex (getCanonicalString (boardState e)))) as [Hhash|]; simpl; [|done].
    intros Hrest. by eapply replayed_cons; eauto.
Qed.

Lemma replayed_app st pre post st' st'' :
  replayed st pre st' → replayed st' post st'' → replayed st (pre ++ post) st''.
Proof.
  induction 1; simpl; [done|]. intros Hpost. eapply replayed_cons; eauto.
Qed.

(** Past entries that replay, the loop goes on from the state they reach. *)
Lemma verifyFsmGameplay_loop_app st pre rest st' :
  replayed st pre st' →
  verifyFsmGameplay_loop st (pre ++ rest) = verifyFsmGameplay_loop st' rest.
Proof.
  induction 1 as [|st e res b pre st' Hres Hvalid Hstate Hboard Hhash _ IH]; simpl; [done|].
  unfold recorded_attempt in Hres. rewrite Hres. simpl.
  rewrite Hvalid, Hboard. simpl.
  destruct (String.eqb_spec (newState res) (fsmState e)); [|done]. simpl.
  by rewrite Hhash, String.eqb_refl.
Qed.

(** An entry the replay rejects ends the loop with [return false]. *)
Lemma verifyFsmGameplay_loop_rejects st e post res :
  transition st EVENTS.PLAYER_MOVE_ATTEMPTED (recorded_attempt e) = Returns res →
  replay_rejects res e →
  ∃ message data,
    verifyFsmGameplay_loop st (e :: post) =
    Returns (ReturnFalse (logger_error message (("sequence", JNum (sequence e)) :: data))).
Proof.
  intros Hres Hrej. simpl. unfold recorded_attempt in Hres. rewrite Hres. simpl.
  destruct (isValidMove res) eqn:Hvalid; simpl; [|by eauto].
  destruct (String.eqb_spec (newState res) (fsmState e)) as [Hstate|]; simpl; [|by eauto].
  destruct Hrej as [?|[?|(b & Hboard & Hhash)]]; [congruence|done|].
  rewrite Hboard. simpl.
  destruct (String.eqb_spec (sha256_hex (getCanonicalString (Board_json b)))
              (sha256_hex (getCanonicalString (boardState e)))); simpl; [done|by eauto].
Qed.

(** C3. [verifyFsmGameplay] replays the entries of type
    PLAYER_MOVE_VALIDATED, in log order, from the initial game state of the
    two players.  At the first replayed entry for which the server's
    transition reports an invalid move, or another state than the entry
    records, or a board whose SHA-256 (of its canonical serialization) is
    not that of the recorded board, it returns false, logging that entry's
    sequence number.  Entries of other types are not replayed: the outcome
    depends on the validated entries and on the last entry only. *)
Theorem verifyFsmGameplay_replays (gameLog : list LogEntry) (X O : string) :
  (∀ pre e post st res,
     List.filter is_validated_move gameLog = pre ++ e :: post →
     replayed (getInitialGameState X O) pre st →
     transition st EVENTS.PLAYER_MOVE_ATTEMPTED (recorded_attempt e) = Returns res →
     replay_rejects res e →
     ∃ message data,
       verifyFsmGameplay gameLog X O =
       Returns (false, [logger_error message (("sequence", JNum (sequence e)) :: data)])) ∧
  (∀ gameLog',
     List.filter is_validated_move gameLog' = List.filter is_validated_move gameLog →
     last gameLog' = last gameLog →
     verifyFsmGameplay gameLog' X O = verifyFsmGameplay gameLog X O).
Proof.
  split.
  - intros pre e post st res Hfilter Hpre Hres Hrej.
    unfold verifyFsmGameplay. rewrite Hfilter.
    rewrite (verifyFsmGameplay_loop_app _ pre (e :: post) st Hpre).
    destruct (verifyFsmGameplay_loop_rejects st e post res Hres Hrej) as (m & d & ->).
    simpl. eauto.
  - intros gameLog' Hfilter Hlast. unfold verifyFsmGameplay. by rewrite Hfilter, Hlast.
Qed.

(** What an accepted log looks like: its validated entries replay, and its
    last entry has a type that starts with GAME_ and records the state the
    replay reaches. *)
Lemma verifyFsmGameplay_true gameLog X O lines :
  verifyFsmGameplay gameLog X O = Returns (true, lines) ↔
  ∃ st e,
    replayed (getInitialGameState X O) (List.filter is_validated_move gameLog) st ∧
    last gameLog = Some e ∧
    String.prefix "GAME_" (eventType e) = true ∧
    fsmState e = currentState st ∧
    lines = [logger_info "FSM gameplay successfully verified."].
Proof.
  unfold verifyFsmGameplay. split.
  - destruct (verifyFsmGameplay_loop _ _) as [[line|st]|] eqn:Hloop; simpl; try done.
    apply verifyFsmGameplay_loop_done in Hloop.
    destruct (last gameLog) as [e|]; [|done].
    destruct (String.prefix "GAME_" (eventType e)) eqn:Hprefix; simpl; [|done].
    destruct (String.eqb_spec (fsmState e) (currentState st)); simpl; [|done].
    intros [= <-]. by exists st, e.
  - intros (st & e & Hrep & -> & -> & -> & ->).
    rewrite (verifyFsmGameplay_loop_replayed _ _ _ Hrep). simpl.
    by rewrite String.eqb_refl.
Qed.

(** C10. On the empty log [verifyFsmGameplay] does not return: the last
    entry it reads for the final check is [undefined], and reading its
    [eventType] throws a TypeError.  So whenever it returns a boolean the
    log has an entry. *)
Theorem verifyFsmGameplay_empty_log (X O : string) :
  verifyFsmGameplay [] X O =
    Throws (TypeError "Cannot read properties of undefined (reading 'eventType')") ∧
  (∀ gameLog out, verifyFsmGameplay gameLog X O = Returns out → gameLog ≠ []).
Proof.
  split; [reflexivity|]. by intros gameLog out Hout ->.
Qed.

End replay.

(** ** Honest authoring passes both verifiers *)

Section authoring.

Implicit Types (s : Session) (e : LogEntry) (st : GameState).

(** What holds of the page's session all along a game: the log is a chain
    that ends in the latest hash, it starts with the GAME_CREATED entry,
    and its validated entries replay from the initial state to the current
    one. *)
Record authored_core (s : Session) : Prop := {
  authored_chain : linked zeroHash (gameLog s);
  authored_latest : latestEntryChainHash s = expected_from zeroHash (gameLog s);
  authored_replay :
    replayed (getInitialGameState playerX_Id playerO_Id)
      (List.filter is_validated_move (gameLog s)) (currentGameState s);
  authored_board : is_3x3 (board (currentGameState s));
  authored_state :
    is_turn (currentState (currentGameState s)) ∨
    is_game_over (currentState (currentGameState s));
  authored_first : ∃ e, gameLog s !! 0%nat = Some e ∧ eventType e = "GAME_CREATED"
}.

(** Between two clicks, moreover, the last entry records the current
    state, and once the game is over it is the game-over entry. *)
Definition authored (s : Session) : Prop :=
  authored_core s ∧
  ∃ e, last (gameLog s) = Some e ∧
       fsmState e = currentState (currentGameState s) ∧
       (is_game_over (currentState (currentGameState s)) →
        eventType e = "GAME_WON" ∨ eventType e = "GAME_DRAWN").

Lemma linked_snoc prev log e :
  linked prev log →
  previousEntryChainHash e = expected_from prev log →
  currentEntryChainHash e = entryHash e →
  linked prev (log ++ [e]).
Proof.
  revert prev. induction log as [|e' log IH]; intros prev; simpl.
  - by intros _ ? ?.
  - intros (? & ? & Hl) Hp Hc. split_and!; try done.
    apply IH; try done. by rewrite <- (expected_from_cons prev).
Qed.

Lemma expected_from_snoc prev log e :
  expected_from prev (log ++ [e]) = currentEntryChainHash e.
Proof. unfold expected_from. by rewrite last_snoc. Qed.

Lemma linked_verifyHashChain_loop prev log :
  linked prev log →
  verifyHashChain_loop prev log = (true, [logger_info "Hash chain successfully verified."]).
Proof.
  revert prev. induction log as [|e log IH]; intros prev; simpl; [done|].
  intros (-> & Hc & Hl). rewrite String.eqb_refl. simpl.
  rewrite calculateEntryHash_entryHash, <- Hc, String.eqb_refl. simpl. by apply IH.
Qed.

Lemma is_game_over_prefix state :
  is_turn state ∨ is_game_over state →
  String.prefix "GAME_OVER" state = true ↔ is_game_over state.
Proof.
  unfold is_turn, is_game_over.
  intros [[-> | ->] | [-> | [-> | ->]]]; simpl; split; try done; naive_solver.
Qed.

(** The chain part of the invariant, kept by [addLogEntry]. *)
Lemma addLogEntry_chain s now type data :
  linked zeroHash (gameLog s) →
  latestEntryChainHash s = expected_from zeroHash (gameLog s) →
  linked zeroHash (gameLog (addLogEntry s now type data)) ∧
  latestEntryChainHash (addLogEntry s now type data) =
    expected_from zeroHash (gameLog (addLogEntry s now type data)).
Proof.
  intros Hl Hlatest. unfold addLogEntry. simpl. split.
  - apply linked_snoc; simpl; try done.
  - by rewrite expected_from_snoc.
Qed.

(** An entry that is no validated move leaves the replay where it is. *)
Lemma addLogEntry_filter_other s now type data :
  String.eqb type "PLAYER_MOVE_VALIDATED" = false →
  List.filter is_validated_move (gameLog (addLogEntry s now type data)) =
  List.filter is_validated_move (gameLog s).
Proof.
  intros Htype. unfold addLogEntry. simpl. rewrite List.filter_app. simpl.
  unfold is_validated_move at 2. simpl. rewrite Htype. by rewrite app_nil_r.
Qed.

Lemma addLogEntry_last s now type data :
  ∃ e, last (gameLog (addLogEntry s now type data)) = Some e ∧
       eventType e = type ∧
       fsmState e = currentState (currentGameState s).
Proof.
  unfold addLogEntry. simpl. rewrite last_snoc. eexists. split; [done|]. by simpl.
Qed.

Lemma addLogEntry_first s now type data e :
  gameLog s !! 0%nat = Some e → gameLog (addLogEntry s now type data) !! 0%nat = Some e.
Proof. intros H. unfold addLogEntry. simpl. by apply lookup_app_l_Some. Qed.

Lemma addLogEntry_core s now type data :
  authored_core s → String.eqb type "PLAYER_MOVE_VALIDATED" = false →
  authored_core (addLogEntry s now type data).
Proof.
  intros [Hl Hlatest Hrep Hb Hst [e0 [He0 Ht0]]] Htype.
  destruct (addLogEntry_chain s now type data Hl Hlatest) as [Hl' Hlatest'].
  constructor; try done.
  - by rewrite addLogEntry_filter_other.
  - exists e0. split; [by apply addLogEntry_first|done].
Qed.

Lemma startGame_authored now : authored (startGame now).
Proof.
  unfold startGame.
  set (s0 := {| currentGameState := getInitialGameState playerX_Id playerO_Id;
                gameLog := []; latestEntryChainHash := String_repeat "0" 64;
                sequenceNumber := 0 |}).
  set (data := {| move := None; playerId := None;
                  otherProps := [("playerX", JStr playerX_Id); ("playerO", JStr playerO_Id)] |}).
  destruct (addLogEntry_chain s0 now "GAME_CREATED" data) as [Hl Hlatest]; [done|done|].
  split.
  - constructor; [exact Hl|exact Hlatest| | | |].
    + rewrite addLogEntry_filter_other by done. constructor.
    + split; [done|]. repeat constructor.
    + left. by left.
    + eexists. split; [reflexivity|done].
  - eexists. split; [reflexivity|]. split; [done|].
    intros [H|[H|H]]; discriminate H.
Qed.

(** [render] adds the game-over entry when the game has just ended. *)
Lemma render_authored s now :
  authored_core s →
  (∃ e, last (gameLog s) = Some e ∧
        fsmState e = currentState (currentGameState s) ∧
        String.prefix "PLAYER_" (eventType e) = true) →
  authored (render s now).
Proof.
  intros Hcore (e & Hlast & Hfsm & Hplayer). unfold render. rewrite Hlast, Hplayer.
  pose proof (is_game_over_prefix _ (authored_state _ Hcore)) as Hover.
  destruct (String.prefix "GAME_OVER" (currentState (currentGameState s))) eqn:Hp; simpl.
  - match goal with |- authored (addLogEntry s now ?t ?d) =>
      set (type := t); set (data := d) end.
    assert (Htype : type = "GAME_WON" ∨ type = "GAME_DRAWN").
    { unfold type.
      destruct (String.eqb (currentState (currentGameState s)) STATES.GAME_OVER_DRAW);
        [by right|by left]. }
    split.
    + apply addLogEntry_core; [done|]. by destruct Htype as [-> | ->].
    + destruct (addLogEntry_last s now type data) as (e' & Hlast' & Htype' & Hfsm').
      exists e'. split; [done|]. split; [done|]. intros _. by rewrite Htype'.
  - split; [done|]. exists e. split; [done|]. split; [done|].
    intros Hgo. apply Hover in Hgo. discriminate Hgo.
Qed.

Lemma replayed_players st entries st' :
  replayed st entries st' → playerX st' = playerX st ∧ playerO st' = playerO st.
Proof. induction 1; [done|]. by simpl in *. Qed.

Lemma GameState_eta st :
  {| currentState := currentState st; board := board st;
     playerX := playerX st; playerO := playerO st |} = st.
Proof. by destruct st. Qed.

(** A click keeps the invariant, and the handler does not throw. *)
Lemma handleCellClick_authored s click :
  authored s → ∃ s', handleCellClick s click = Returns s' ∧ authored s'.
Proof.
  intros [Hcore Hlast]. unfold handleCellClick.
  pose proof (is_game_over_prefix _ (authored_state _ Hcore)) as Hover.
  destruct (String.prefix "GAME_OVER" (currentState (currentGameState s))) eqn:Hp.
  { exists s. by split. }
  assert (Hturn : is_turn (currentState (currentGameState s))).
  { destruct (authored_state _ Hcore) as [|Hgo]; [done|]. apply Hover in Hgo. congruence. }
  destruct (replayed_players _ _ _ (authored_replay _ Hcore)) as [HX HO]. simpl in HX, HO.
  set (mv := {| rowIndex := clickRow click; colIndex := clickCol click |}).
  set (pid := if String.eqb (currentState (currentGameState s)) STATES.PLAYER_X_TURN
              then playerX_Id else playerO_Id).
  assert (Hpid_turn : pid = turn_player (currentGameState s)).
  { unfold pid, turn_player, x_to_move. by rewrite HX, HO. }
  set (attempt := {| move := Some mv; playerId := Some pid; otherProps := [] |}).
  pose proof (transition_turn (currentGameState s) attempt mv Hturn eq_refl) as Htr.
  destruct (player_move_total (currentState (currentGameState s)) (board (currentGameState s))
              (turn_player (currentGameState s)) (turn_symbol (currentGameState s))
              (win_state (currentGameState s)) (other_turn (currentGameState s))
              (wrong_turn_text (currentGameState s)) (playerId attempt)
              (rowIndex mv) (colIndex mv) (authored_board _ Hcore)) as [res Hres].
  rewrite Hres in Htr. rewrite Htr. simpl bindC.
  apply player_move_outcome in Hres.
  destruct Hcore as [Hl Hlatest Hrep Hb Hst Hfirst].
  destruct Hres as [Hpid|Hpid Hnot|state Hpid Hr Hc Hcell Hstate].
  - simpl in Hpid. by rewrite Hpid_turn in Hpid.
  - (* rejected: the state is as it was *)
    simpl. rewrite GameState_eta.
    eexists. split; [reflexivity|]. apply render_authored.
    + apply addLogEntry_core; [|done]. by constructor.
    + match goal with |- context [addLogEntry ?s0 ?t0 ?ty ?d] =>
        destruct (addLogEntry_last s0 t0 ty d) as (e' & Hlast' & Htype' & Hfsm') end.
      exists e'. split; [done|]. split; [done|]. by rewrite Htype'.
  - (* placed: the entry replays *)
    simpl.
    set (st' := {| currentState := state;
                   board := place (board (currentGameState s)) (clickRow click)
                              (clickCol click) (turn_symbol (currentGameState s));
                   playerX := playerX (currentGameState s);
                   playerO := playerO (currentGameState s) |}).
    set (s1 := {| currentGameState := st'; gameLog := gameLog s;
                  latestEntryChainHash := latestEntryChainHash s;
                  sequenceNumber := sequenceNumber s |}).
    eexists. split; [reflexivity|]. apply render_authored.
    + destruct (addLogEntry_chain s1 (clickTime click) "PLAYER_MOVE_VALIDATED"
                  {| move := Some mv; playerId := Some pid;
                     otherProps := [("symbolPlaced",
                       JStr (if String.eqb (currentState (currentGameState s))
                                   STATES.PLAYER_X_TURN then "X" else "O"))] |} Hl Hlatest)
        as [Hl' Hlatest'].
      constructor; [exact Hl'|exact Hlatest'| | | |].
      * unfold addLogEntry. simpl. rewrite List.filter_app. simpl.
        eapply replayed_app; [exact Hrep|].
        eapply (replayed_cons _ _ (valid_move state (board st'))); simpl; try done.
        constructor.
      * simpl. by apply place_3x3.
      * simpl. destruct Hstate as [[-> _]|[[-> _]|[-> _]]].
        -- right. unfold win_state, is_game_over. destruct (x_to_move _); auto.
        -- right. unfold is_game_over. auto.
        -- left. unfold other_turn, is_turn. destruct (x_to_move _); auto.
      * destruct Hfirst as (e0 & He0 & Ht0). exists e0.
        split; [by apply addLogEntry_first|done].
    + match goal with |- context [addLogEntry ?s0 ?t0 ?ty ?d] =>
        destruct (addLogEntry_last s0 t0 ty d) as (e' & Hlast' & Htype' & Hfsm') end.
      exists e'. split; [done|]. split; [done|]. by rewrite Htype'.
Qed.

Lemma clicks_from_authored clicks : ∀ s,
  authored s → ∃ s', clicks_from s clicks = Returns s' ∧ authored s'.
Proof.
  induction clicks as [|click rest IH]; intros s Hs; simpl; [by eauto|].
  destruct (handleCellClick_authored s click Hs) as (s1 & -> & Hs1). simpl. by apply IH.
Qed.

(** A game in which every handler has finished before the next click
    never throws, and once it is over its log (the GAME_CREATED entry
    first, one entry per click, the GAME_WON or GAME_DRAWN entry last)
    passes both verifiers. *)
Lemma play_log_verifies (startTime : Z) (clicks : list Click) :
  ∃ s,
    play startTime clicks = Returns s ∧
    (is_game_over (currentState (currentGameState s)) →
     (∃ e, gameLog s !! 0%nat = Some e ∧ eventType e = "GAME_CREATED") ∧
     (∃ e, last (gameLog s) = Some e ∧
           (eventType e = "GAME_WON" ∨ eventType e = "GAME_DRAWN")) ∧
     verifyHashChain (gameLog s) =
       (true, [logger_info "Hash chain successfully verified."]) ∧
     verifyFsmGameplay (gameLog s) playerX_Id playerO_Id =
       Returns (true, [logger_info "FSM gameplay successfully verified."])).
Proof.
  destruct (clicks_from_authored clicks (startGame startTime) (startGame_authored startTime))
    as (s & Hplay & [Hl Hlatest Hrep Hb Hst Hfirst] & e & Hlast & Hfsm & Htype).
  exists s. split; [done|]. intros Hover. specialize (Htype Hover).
  split_and!; [done|by eauto| |].
  - by apply linked_verifyHashChain_loop.
  - apply verifyFsmGameplay_true. exists (currentGameState s), e.
    split_and!; try done. by destruct Htype as [-> | ->].
Qed.

End authoring.

(** ** The page as the browser runs it *)

Section page_runs.

Implicit Types (s : Session) (e : LogEntry) (p : Page) (ev : PageEvent).

(** The handlers of the sections above are the handlers of the page cut
    at their awaits, run without anything in between. *)
Lemma addLogEntry_uninterrupted s now type data :
  addLogEntry s now type data = addLogEntry_end s (addLogEntry_begin s now type data).
Proof. reflexivity. Qed.

Lemma startGame_uninterrupted now :
  startGame now = addLogEntry_end (startGame_begin now).1 (startGame_begin now).2.
Proof. reflexivity. Qed.

Lemma render_uninterrupted s now :
  render s now =
  match render_begin s now with
  | Some e => addLogEntry_end s e
  | None => s
  end.
Proof.
  unfold render, render_begin. destruct (last (gameLog s)) as [lastEntry|]; [|done].
  by destruct (_ && _).
Qed.

Lemma handleCellClick_uninterrupted s r c now now' :
  handleCellClick s {| clickRow := r; clickCol := c; clickTime := now; gameOverTime := now' |} =
  started ←! handleCellClick_begin s r c now;
  Returns (match started.2 with
           | Some e => render (addLogEntry_end started.1 e) now'
           | None => started.1
           end).
Proof.
  unfold handleCellClick, handleCellClick_begin. simpl.
  destruct (String.prefix "GAME_OVER" _); [done|].
  destruct (transition _ _ _) as [res|]; [|done]. simpl.
  destruct (isValidMove res); [|done].
  by destruct (newBoard res).
Qed.

(** The sessions of the games in which every handler has finished before
    the next click. *)
Definition played (s : Session) : Prop :=
  ∃ startTime clicks, play startTime clicks = Returns s.

Lemma clicks_from_snoc clicks : ∀ s click,
  clicks_from s (clicks ++ [click]) = s' ←! clicks_from s clicks; handleCellClick s' click.
Proof.
  induction clicks as [|c0 clicks IH]; intros s click; simpl.
  - by destruct (handleCellClick s click).
  - destruct (handleCellClick s c0) as [s1|]; simpl; [apply IH|done].
Qed.

Lemma played_authored s : played s → authored s.
Proof.
  intros (startTime & clicks & Hplay).
  destruct (clicks_from_authored clicks (startGame startTime) (startGame_authored startTime))
    as (s' & Hplay' & Hs).
  unfold play in Hplay. rewrite Hplay' in Hplay. by injection Hplay as <-.
Qed.

Lemma played_click s click s' :
  played s → handleCellClick s click = Returns s' → played s'.
Proof.
  intros (startTime & clicks & Hplay) Hclick. exists startTime, (clicks ++ [click]).
  unfold play in *. by rewrite clicks_from_snoc, Hplay.
Qed.

(** The pages of the runs without overlap: before the first game; between
    two events, with the session of a game played without overlap; and
    with one handler waiting, of [startGame], of [handleCellClick] or of
    the game-over entry. *)
Inductive serial_page : Page → Prop :=
  | serial_unstarted : serial_page initial_page
  | serial_settled s :
      played s → serial_page {| session := Some s; pending := [] |}
  | serial_starting now :
      serial_page {| session := Some (startGame_begin now).1;
                     pending := wait (Some (startGame_begin now).2) ThenRender |}
  | serial_clicking s r c now s' e :
      played s → handleCellClick_begin s r c now = Returns (s', Some e) →
      serial_page {| session := Some s'; pending := wait (Some e) ThenRender |}
  | serial_closing s e :
      played (addLogEntry_end s e) →
      serial_page {| session := Some s; pending := wait (Some e) ThenSubmit |}.

Definition may_arrive p ev : bool :=
  match ev with
  | Hashed _ _ => true
  | _ => bool_decide (length (pending p) = 0%nat)
  end.

Lemma serial_page_step p ev :
  serial_page p → may_arrive p ev = true →
  ∃ p', page_step p ev = Returns p' ∧ serial_page p'.
Proof.
  intros Hp Hev. destruct Hp as [|s Hs|now|s r c now s' e Hs Hbegin|s e Hs].
  - (* before the first game *)
    destruct ev as [now|r c now|i now]; simpl.
    + eexists. split; [done|]. apply serial_starting.
    + eexists. split; [done|]. apply serial_unstarted.
    + eexists. split; [done|]. apply serial_unstarted.
  - (* between two events *)
    destruct ev as [now|r c now|i now]; simpl.
    + eexists. split; [done|]. apply serial_starting.
    + destruct (handleCellClick_authored s
                  {| clickRow := r; clickCol := c; clickTime := now; gameOverTime := 0 |}
                  (played_authored s Hs)) as (s1 & Hclick & _).
      pose proof Hclick as Hcut. rewrite handleCellClick_uninterrupted in Hcut.
      destruct (handleCellClick_begin s r c now) as [[s' [e|]]|] eqn:Hbegin; [| |done].
      * eexists. split; [done|]. by eapply serial_clicking.
      * simpl in Hcut. injection Hcut as <-.
        eexists. split; [done|]. apply serial_settled. by eapply played_click.
    + eexists. split; [done|]. by apply serial_settled.
  - (* startGame waits for the hash of its entry *)
    destruct ev as [now'|r c now'|i now']; [done|done|]. simpl.
    destruct i as [|i]; simpl.
    + eexists. split; [done|]. apply serial_settled. by exists now, [].
    + eexists. split; [done|]. apply serial_starting.
  - (* handleCellClick waits for the hash of its entry *)
    destruct ev as [now'|r' c' now'|i now']; [done|done|]. simpl.
    destruct i as [|i]; simpl; [|eexists; split; [done|]; by eapply serial_clicking].
    assert (Hclick : handleCellClick s {| clickRow := r; clickCol := c; clickTime := now;
                                          gameOverTime := now' |} =
                     Returns (render (addLogEntry_end s' e) now')).
    { by rewrite handleCellClick_uninterrupted, Hbegin. }
    apply (played_click s _ _ Hs) in Hclick. rewrite render_uninterrupted in Hclick.
    destruct (render_begin (addLogEntry_end s' e) now') as [e'|]; simpl.
    + eexists. split; [done|]. by apply serial_closing.
    + eexists. split; [done|]. by apply serial_settled.
  - (* the game-over entry waits for its hash *)
    destruct ev as [now'|r' c' now'|i now']; [done|done|]. simpl.
    destruct i as [|i]; simpl.
    + eexists. split; [done|]. by apply serial_settled.
    + eexists. split; [done|]. by apply serial_closing.
Qed.

Lemma serial_from_run events : ∀ p,
  serial_page p → serial_from p events = true →
  ∃ p', run_from p events = Returns p' ∧ serial_page p'.
Proof.
  induction events as [|ev rest IH]; intros p Hp Hserial; simpl in *; [by eauto|].
  apply andb_true_iff in Hserial as [Hev Hrest].
  destruct (serial_page_step p ev Hp Hev) as (p1 & Hstep & Hp1).
  rewrite Hstep in *. simpl. by apply IH.
Qed.

Lemma serial_page_settled p s : serial_page p → settled p = Some s → played s.
Proof.
  intros [|s0 Hs| | |]; unfold settled; simpl; try done. by intros [= <-].
Qed.

(** A run without overlap never throws, and whenever no handler is
    waiting its session is the session of a game played without overlap:
    what is proved of [play] is true of it. *)
Lemma serial_run_played events :
  serial events = true →
  ∃ p, run events = Returns p ∧ ∀ s, settled p = Some s → played s.
Proof.
  intros Hserial.
  destruct (serial_from_run events initial_page serial_unstarted Hserial) as (p & Hrun & Hp).
  exists p. split; [done|]. intros s. by apply serial_page_settled.
Qed.

(** Without overlap the log of a finished game passes both verifiers. *)
Lemma serial_log_verifies events :
  serial events = true →
  ∃ p, run events = Returns p ∧
    ∀ s, settled p = Some s → is_game_over (currentState (currentGameState s)) →
      verifyHashChain (gameLog s) =
        (true, [logger_info "Hash chain successfully verified."]) ∧
      verifyFsmGameplay (gameLog s) playerX_Id playerO_Id =
        Returns (true, [logger_info "FSM gameplay successfully verified."]).
Proof.
  intros Hserial. destruct (serial_run_played events Hserial) as (p & Hrun & Hplayed).
  exists p. split; [done|]. intros s Hs Hover.
  destruct (Hplayed s Hs) as (startTime & clicks & Hplay).
  destruct (play_log_verifies startTime clicks) as (s' & Hplay' & Hverify).
  rewrite Hplay in Hplay'. injection Hplay' as <-.
  by destruct (Hverify Hover) as (_ & _ & ? & ?).
Qed.

End page_runs.

(** ** The state machine on the store *)

Section store.

Implicit Types (h : Store.store) (b : Board) (l : Store.loc).

Lemma extends_refl h : Store.extends h h.
Proof. by intros l arr. Qed.

Lemma extends_trans h1 h2 h3 :
  Store.extends h1 h2 → Store.extends h2 h3 → Store.extends h1 h3.
Proof. intros H12 H23 l arr Hl. by apply H23, H12. Qed.

Lemma extends_app h ext : Store.extends h (h ++ ext).
Proof. intros l arr Hl. by apply lookup_app_l_Some. Qed.

(** *** Reading a board depends on the arrays it reaches only *)

Lemma read_row_extends h h' v row :
  Store.extends h h' → Store.read_row h v = Some row → Store.read_row h' v = Some row.
Proof.
  intros Hext. destruct v as [s|l]; simpl; [done|].
  destruct (h !! l) as [arr|] eqn:Hl; simpl; [|done].
  by rewrite (Hext _ _ Hl).
Qed.

Lemma read_board_extends h h' l b :
  Store.extends h h' → Store.read_board h l = Some b → Store.read_board h' l = Some b.
Proof.
  intros Hext. unfold Store.read_board.
  destruct (h !! l) as [arr|] eqn:Hl; simpl; [|done].
  rewrite (Hext _ _ Hl). simpl. rewrite !mapM_Some.
  intros Hrows. eapply Forall2_impl; [exact Hrows|].
  intros v row. by apply read_row_extends.
Qed.

(** *** Allocation *)

(** The row arrays and the array of references that cloning appends. *)
Definition row_arrays (b : Board) : list (list Store.slot) :=
  (fun row : list string => Store.Str <$> row) <$> b.
Definition row_refs (n : nat) (b : Board) : list Store.slot :=
  Store.Ref <$> seq n (length b).

Lemma alloc_rows_eq rows : ∀ h,
  Store.alloc_rows h rows = (h ++ row_arrays rows, row_refs (length h) rows).
Proof.
  unfold row_arrays, row_refs.
  induction rows as [|row rows IH]; intros h; simpl.
  - by rewrite app_nil_r.
  - rewrite IH, length_app. simpl. rewrite <- app_assoc. simpl.
    by rewrite Nat.add_1_r.
Qed.

Lemma alloc_board_eq h b :
  Store.alloc_board h b =
  (h ++ row_arrays b ++ [row_refs (length h) b], length h + length b).
Proof.
  unfold Store.alloc_board. rewrite alloc_rows_eq. unfold Store.alloc, row_arrays.
  by rewrite length_app, length_fmap, <- app_assoc.
Qed.

Lemma mapM_slot_string row : mapM Store.slot_string (Store.Str <$> row) = Some row.
Proof. apply mapM_fmap_Forall_Some. by apply Forall_true. Qed.

(** A clone reads as the board it was made from, and no array that
    existed is touched. *)
Lemma alloc_board_read h b :
  Store.read_board (Store.alloc_board h b).1 (Store.alloc_board h b).2 = Some b ∧
  Store.extends h (Store.alloc_board h b).1.
Proof.
  rewrite alloc_board_eq. simpl. split; [|apply extends_app].
  unfold Store.read_board, row_arrays, row_refs.
  rewrite lookup_app_r, Nat.add_comm, Nat.add_sub by lia.
  rewrite lookup_app_r, length_fmap, Nat.sub_diag by (rewrite length_fmap; lia).
  simpl. apply mapM_Some, Forall2_same_length_lookup.
  split; [by rewrite length_fmap, length_seq|].
  intros i v row Hv Hrow.
  rewrite list_lookup_fmap in Hv.
  destruct (seq (length h) (length b) !! i) as [j|] eqn:Hj; simpl in Hv; [|done].
  injection Hv as <-. apply lookup_seq in Hj as [-> Hi]. simpl.
  rewrite lookup_app_r, Nat.add_comm, Nat.add_sub by lia.
  rewrite lookup_app_l by (rewrite length_fmap; lia).
  rewrite list_lookup_fmap, Hrow. simpl. apply mapM_slot_string.
Qed.

(** Writing a cell of a clone gives the store in which the board with
    that cell written had been cloned: the write lands in the clone's own
    row. *)
Lemma board_set_alloc h b r c v row :
  Array_get b r = Some row →
  Store.board_set (Store.alloc_board h b).1 (Store.alloc_board h b).2 r c v =
  Returns (Store.alloc_board h (<[Z.to_nat r := <[Z.to_nat c := v]> row]> b)).1.
Proof.
  intros Hrow. apply Array_get_Some in Hrow as [Hr Hrow].
  pose proof (lookup_lt_Some _ _ _ Hrow) as Hlt.
  rewrite !alloc_board_eq. simpl. unfold Store.board_set, row_arrays, row_refs.
  rewrite lookup_app_r, Nat.add_comm, Nat.add_sub by lia.
  rewrite lookup_app_r, length_fmap, Nat.sub_diag by (rewrite length_fmap; lia).
  simpl. unfold Array_get. destruct (Z.ltb_spec r 0); [lia|].
  rewrite list_lookup_fmap, lookup_seq_lt by done. simpl.
  rewrite lookup_app_r, Nat.add_comm, Nat.add_sub by lia.
  rewrite lookup_app_l by (rewrite length_fmap; lia).
  rewrite list_lookup_fmap, Hrow. simpl.
  rewrite (Nat.add_comm (Z.to_nat r) (length h)).
  rewrite insert_app_r, insert_app_l by (rewrite length_fmap; lia).
  by rewrite length_insert, !list_fmap_insert.
Qed.

Lemma alloc_board_loc_insert h b i row :
  (Store.alloc_board h (<[i := row]> b)).2 = (Store.alloc_board h b).2.
Proof. rewrite !alloc_board_eq. simpl. by rewrite length_insert. Qed.

(** *** The stored transition computes the transition on values *)

(** What the stored function answers stands for what the function on
    values answers, and it leaves every array of the store as it was. *)
Definition refines (h : Store.store)
    (stored : completion (Store.store * Store.TransitionResult))
    (value : completion TransitionResult) : Prop :=
  match value with
  | Throws err => stored = Throws err
  | Returns res =>
      ∃ h' r, stored = Returns (h', r) ∧
              TransitionResult_value h' r = Some res ∧ Store.extends h h'
  end.

Lemma refines_invalid h cs text :
  refines h (Returns (h, Store.invalid_move cs text)) (Returns (invalid_move cs text)).
Proof. exists h, (Store.invalid_move cs text). split_and!; [done|done|apply extends_refl]. Qed.

Lemma refines_valid h b state :
  refines h
    (Returns ((Store.alloc_board h b).1, Store.valid_move state (Store.alloc_board h b).2))
    (Returns (valid_move state b)).
Proof.
  destruct (alloc_board_read h b) as [Hread Hext].
  eexists _, _. split; [done|]. split; [|done].
  unfold TransitionResult_value. simpl. by rewrite Hread.
Qed.

Lemma player_move_refines h cs l b mover symbol win next text pid r c :
  Store.read_board h l = Some b →
  refines h (Store.player_move h cs l mover symbol win next text pid r c)
            (player_move cs b mover symbol win next text pid r c).
Proof.
  intros Hread. unfold Store.player_move, player_move.
  case_bool_decide; simpl; [|apply refines_invalid].
  unfold Store.read, Store.cloneBoard, Store.read. rewrite Hread. simpl.
  destruct ((r <? 0)%Z || (2 <? r)%Z || (c <? 0)%Z || (2 <? c)%Z); simpl;
    [apply refines_invalid|].
  unfold board_get, board_set, cloneBoard.
  destruct (Array_get b r) as [row|] eqn:Hrow; simpl; [|done].
  case_bool_decide; simpl; [|apply refines_invalid].
  destruct (Store.alloc_board h b) as [h1 l1] eqn:Halloc.
  pose proof (board_set_alloc h b r c symbol row Hrow) as Hset.
  rewrite Halloc in Hset. simpl in Hset. rewrite Hset. simpl.
  set (b' := <[Z.to_nat r := <[Z.to_nat c := symbol]> row]> b).
  assert (Hl1 : l1 = (Store.alloc_board h b').2).
  { unfold b'. rewrite alloc_board_loc_insert. by rewrite Halloc. }
  rewrite Hl1. rewrite (proj1 (alloc_board_read h b')). simpl.
  destruct (checkWin b' symbol) as [won|]; simpl; [|done].
  destruct won; [apply refines_valid|].
  destruct (checkDraw b'); apply refines_valid.
Qed.

Lemma transition_refines h st event ed b :
  Store.read_board h (Store.board st) = Some b →
  refines h (Store.transition h st event ed) (transition (GameState_value st b) event ed).
Proof.
  intros Hread. unfold Store.transition, transition. simpl.
  destruct (move ed) as [mv|]; [|done].
  destruct (String.eqb event ""); [done|].
  destruct (String.eqb (Store.currentState st) STATES.PLAYER_X_TURN).
  { destruct (String.eqb event EVENTS.PLAYER_MOVE_ATTEMPTED);
      [by apply player_move_refines|apply refines_invalid]. }
  destruct (String.eqb (Store.currentState st) STATES.PLAYER_O_TURN).
  { destruct (String.eqb event EVENTS.PLAYER_MOVE_ATTEMPTED);
      [by apply player_move_refines|apply refines_invalid]. }
  destruct (_ || _); apply refines_invalid.
Qed.

Lemma TransitionResult_value_extends h h' r res :
  Store.extends h h' →
  TransitionResult_value h r = Some res → TransitionResult_value h' r = Some res.
Proof.
  intros Hext. unfold TransitionResult_value.
  destruct (Store.newBoard r) as [l|]; [|done].
  destruct (Store.read_board h l) as [b|] eqn:Hb; simpl; [|done].
  by rewrite (read_board_extends _ _ _ _ Hext Hb).
Qed.

(** C9. [transition] is a function of its inputs and writes to no array
    that existed before the call.  On a store in which the state's board
    reads as [b]: a call that throws is the call on values throwing; a
    call that returns answers what the call on values answers, leaves every
    array of the store as it was (the board still reads as [b]), and a
    second call with the same inputs, on the store the first one left,
    answers the same (state, validity, error, and a board of the same
    contents) and again leaves the input board and the first answer's board
    as they were. *)
Theorem transition_repeatable (h : Store.store) (st : Store.GameState)
    (event : string) (ed : EventData) (b : Board) :
  Store.read_board h (Store.board st) = Some b →
  match Store.transition h st event ed with
  | Throws err => transition (GameState_value st b) event ed = Throws err
  | Returns (h1, r1) =>
      ∃ res,
        transition (GameState_value st b) event ed = Returns res ∧
        TransitionResult_value h1 r1 = Some res ∧
        Store.extends h h1 ∧
        Store.read_board h1 (Store.board st) = Some b ∧
        ∃ h2 r2,
          Store.transition h1 st event ed = Returns (h2, r2) ∧
          TransitionResult_value h2 r2 = Some res ∧
          TransitionResult_value h2 r1 = Some res ∧
          Store.extends h1 h2 ∧
          Store.read_board h2 (Store.board st) = Some b
  end.
Proof.
  intros Hread. pose proof (transition_refines h st event ed b Hread) as Hfirst.
  unfold refines in Hfirst.
  destruct (transition (GameState_value st b) event ed) as [res|err] eqn:Hvalue.
  - destruct Hfirst as (h1 & r1 & -> & Hres1 & Hext1).
    pose proof (read_board_extends _ _ _ _ Hext1 Hread) as Hread1.
    exists res. split_and!; try done.
    pose proof (transition_refines h1 st event ed b Hread1) as Hsecond.
    unfold refines in Hsecond. rewrite Hvalue in Hsecond.
    destruct Hsecond as (h2 & r2 & -> & Hres2 & Hext2).
    exists h2, r2. split_and!; try done.
    + by eapply TransitionResult_value_extends.
    + by eapply read_board_extends.
  - by rewrite Hfirst.
Qed.

End store.

(** ** The claims on concrete games *)

(** *** Moves *)

Definition attempt (player : string) (r c : Z) : EventData :=
  {| move := Some {| rowIndex := r; colIndex := c |};
     playerId := Some player; otherProps := [] |}.

(** X to move, two X in the top row. *)
Definition sample_state : GameState :=
  {| currentState := STATES.PLAYER_X_TURN;
     board := [ ["X"; "X"; ""]; ["O"; "O"; ""]; [""; ""; ""] ];
     playerX := "DOGE"; playerO := "PEPE" |}.

Definition sample_over : GameState :=
  {| currentState := STATES.GAME_OVER_X_WINS;
     board := [ ["X"; "X"; "X"]; ["O"; "O"; ""]; [""; ""; ""] ];
     playerX := "DOGE"; playerO := "PEPE" |}.

Lemma sample_state_3x3 : is_3x3 (board sample_state).
Proof. split; [reflexivity|]. repeat constructor. Defined.

Example sample_win :
  transition sample_state EVENTS.PLAYER_MOVE_ATTEMPTED (attempt "DOGE" 0 2) =
  Returns (valid_move STATES.GAME_OVER_X_WINS (board sample_over)).
Proof. reflexivity. Qed.

Example sample_wrong_turn :
  transition sample_state EVENTS.PLAYER_MOVE_ATTEMPTED (attempt "PEPE" 0 2) =
  Returns (invalid_move STATES.PLAYER_X_TURN "Not player X's turn.").
Proof. reflexivity. Qed.

Example sample_occupied :
  transition sample_state EVENTS.PLAYER_MOVE_ATTEMPTED (attempt "DOGE" 1 1) =
  Returns (invalid_move STATES.PLAYER_X_TURN occupied_text).
Proof. reflexivity. Qed.

Example sample_out_of_bounds :
  transition sample_state EVENTS.PLAYER_MOVE_ATTEMPTED (attempt "DOGE" 3 (-1)) =
  Returns (invalid_move STATES.PLAYER_X_TURN occupied_text).
Proof. reflexivity. Qed.

(** The argument check of [transition]: without a move, or with an empty
    event name, it throws, also when the game is over. *)
Example sample_no_move :
  transition sample_over EVENTS.PLAYER_MOVE_ATTEMPTED
    {| move := None; playerId := Some "DOGE"; otherProps := [] |} =
  Throws (Error "Invalid arguments provided to FSM transition function.").
Proof. reflexivity. Qed.

Lemma transition_valid_iff_witness :
  ∃ res,
    transition sample_state EVENTS.PLAYER_MOVE_ATTEMPTED (attempt "DOGE" 0 2) = Returns res ∧
    (isValidMove res = true ↔
       Some "DOGE" = Some (turn_player sample_state) ∧
       (0 ≤ 0 ≤ 2)%Z ∧ (0 ≤ 2 ≤ 2)%Z ∧ cell_at (board sample_state) 0 2 = Some "") ∧
    (isValidMove res = false →
       newState res = currentState sample_state ∧ newBoard res = None ∧
       error res = Some (if bool_decide (Some "DOGE" = Some (turn_player sample_state))
                         then occupied_text else wrong_turn_text sample_state)) ∧
    wrong_turn_text sample_state ≠ occupied_text.
Proof.
  apply (transition_valid_iff sample_state (attempt "DOGE" 0 2)
           {| rowIndex := 0; colIndex := 2 |}).
  - exact sample_state_3x3.
  - left. reflexivity.
  - reflexivity.
Defined.

Lemma transition_valid_outcome_witness :
  newBoard (valid_move STATES.GAME_OVER_X_WINS (board sample_over)) =
    Some (place (board sample_state) 0 2 "X") ∧
  (STATES.GAME_OVER_X_WINS = win_state sample_state ↔
     has_three_in_line (place (board sample_state) 0 2 "X") "X") ∧
  (¬ has_three_in_line (place (board sample_state) 0 2 "X") "X" →
     (STATES.GAME_OVER_X_WINS = STATES.GAME_OVER_DRAW ↔
      no_empty_cell (place (board sample_state) 0 2 "X"))) ∧
  (¬ has_three_in_line (place (board sample_state) 0 2 "X") "X" →
   ¬ no_empty_cell (place (board sample_state) 0 2 "X") →
   STATES.GAME_OVER_X_WINS = other_turn sample_state).
Proof.
  apply (transition_valid_outcome sample_state (attempt "DOGE" 0 2)
           {| rowIndex := 0; colIndex := 2 |}
           (valid_move STATES.GAME_OVER_X_WINS (board sample_over))).
  - reflexivity.
  - reflexivity.
  - reflexivity.
Defined.

Lemma transition_game_over_witness :
  transition sample_over EVENTS.PLAYER_MOVE_ATTEMPTED (attempt "PEPE" 2 2) =
  Returns {| newState := STATES.GAME_OVER_X_WINS; isValidMove := false;
             newBoard := None; error := Some "Game is already over." |}.
Proof.
  apply (transition_game_over sample_over EVENTS.PLAYER_MOVE_ATTEMPTED (attempt "PEPE" 2 2)
           {| rowIndex := 2; colIndex := 2 |}).
  - left. reflexivity.
  - discriminate.
  - reflexivity.
Defined.

(** *** A store *)

(** The initial board in an empty store: three row arrays, then the array
    of their references, at address 3. *)
Definition sample_store : Store.store :=
  (Store.alloc_board [] (board (getInitialGameState "DOGE" "PEPE"))).1.

Definition sample_stored_state : Store.GameState :=
  {| Store.currentState := STATES.PLAYER_X_TURN; Store.board := 3%nat;
     Store.playerX := "DOGE"; Store.playerO := "PEPE" |}.

(** A write through a reference is seen by whoever reads the board: the
    store does tell a cloned board from a shared one. *)
Example sample_store_write :
  (h ←! Store.board_set sample_store 3 1 1 "X"; Store.read h 3) =
  Returns [ [""; ""; ""]; [""; "X"; ""]; [""; ""; ""] ].
Proof. reflexivity. Qed.

Lemma transition_repeatable_witness :
  match Store.transition sample_store sample_stored_state
          EVENTS.PLAYER_MOVE_ATTEMPTED (attempt "DOGE" 1 1) with
  | Throws err =>
      transition (getInitialGameState "DOGE" "PEPE")
        EVENTS.PLAYER_MOVE_ATTEMPTED (attempt "DOGE" 1 1) = Throws err
  | Returns (h1, r1) =>
      ∃ res,
        transition (getInitialGameState "DOGE" "PEPE")
          EVENTS.PLAYER_MOVE_ATTEMPTED (attempt "DOGE" 1 1) = Returns res ∧
        TransitionResult_value h1 r1 = Some res ∧
        Store.extends sample_store h1 ∧
        Store.read_board h1 3 = Some (board (getInitialGameState "DOGE" "PEPE")) ∧
        ∃ h2 r2,
          Store.transition h1 sample_stored_state
            EVENTS.PLAYER_MOVE_ATTEMPTED (attempt "DOGE" 1 1) = Returns (h2, r2) ∧
          TransitionResult_value h2 r2 = Some res ∧
          TransitionResult_value h2 r1 = Some res ∧
          Store.extends h1 h2 ∧
          Store.read_board h2 3 = Some (board (getInitialGameState "DOGE" "PEPE"))
  end.
Proof.
  apply (transition_repeatable sample_store sample_stored_state
           EVENTS.PLAYER_MOVE_ATTEMPTED (attempt "DOGE" 1 1)
           (board (getInitialGameState "DOGE" "PEPE"))).
  reflexivity.
Defined.

(** *** Games on the page *)

Definition click (r c time : Z) : Click :=
  {| clickRow := r; clickCol := c; clickTime := time; gameOverTime := time + 2 |}.

Definition log_of (outcome : completion Session) : list LogEntry :=
  match outcome with
  | Returns s => gameLog s
  | Throws _ => []
  end.

(** Scenario A: X takes (0,0); O clicks the taken (0,0) and is rejected;
    O (1,1); X (0,1); O (2,2); X (0,2) completes the top row. *)
Definition scenario_A : list Click :=
  [ click 0 0 1700000001000; click 0 0 1700000002000; click 1 1 1700000003000;
    click 0 1 1700000004000; click 2 2 1700000005000; click 0 2 1700000006000 ].

Definition scenario_A_log : list LogEntry := log_of (play 1700000000000 scenario_A).

(** Scenario B: nine moves, no triple. *)
Definition scenario_B : list Click :=
  [ click 0 0 1700000001000; click 0 1 1700000002000; click 0 2 1700000003000;
    click 1 1 1700000004000; click 1 0 1700000005000; click 1 2 1700000006000;
    click 2 1 1700000007000; click 2 0 1700000008000; click 2 2 1700000009000 ].

Definition scenario_B_log : list LogEntry := log_of (play 1700000000000 scenario_B).

(** The log right after the page has started a game: the GAME_CREATED
    entry alone. *)
Definition created_log : list LogEntry := gameLog (startGame 1700000000000).

Definition chain_verified : bool * list logLine :=
  (true, [logger_info "Hash chain successfully verified."]).
Definition gameplay_verified : completion (bool * list logLine) :=
  Returns (true, [logger_info "FSM gameplay successfully verified."]).

(** The hash of the first entry, against SHA-256 of its canonical text
    computed outside this development. *)
Example created_log_hash :
  map currentEntryChainHash created_log =
  ["5bf5f0dab887d44dabc0e832bd22a78194f3ae43c4de97eed8c942192f49e1b1"].
Proof. vm_compute. reflexivity. Qed.

Example scenario_A_events :
  map (fun e => (sequence e, eventType e, fsmState e)) scenario_A_log =
  [ (0, "GAME_CREATED", "PLAYER_X_TURN");
    (1, "PLAYER_MOVE_VALIDATED", "PLAYER_O_TURN");
    (2, "PLAYER_MOVE_REJECTED", "PLAYER_O_TURN");
    (3, "PLAYER_MOVE_VALIDATED", "PLAYER_X_TURN");
    (4, "PLAYER_MOVE_VALIDATED", "PLAYER_O_TURN");
    (5, "PLAYER_MOVE_VALIDATED", "PLAYER_X_TURN");
    (6, "PLAYER_MOVE_VALIDATED", "GAME_OVER_X_WINS");
    (7, "GAME_WON", "GAME_OVER_X_WINS") ]%Z.
Proof. vm_compute. reflexivity. Qed.

Example scenario_A_verified :
  verifyHashChain scenario_A_log = chain_verified ∧
  verifyFsmGameplay scenario_A_log playerX_Id playerO_Id = gameplay_verified.
Proof. split; vm_compute; reflexivity. Qed.

Example scenario_B_verified :
  option_map fsmState (last scenario_B_log) = Some STATES.GAME_OVER_DRAW ∧
  option_map eventType (last scenario_B_log) = Some "GAME_DRAWN" ∧
  verifyHashChain scenario_B_log = chain_verified ∧
  verifyFsmGameplay scenario_B_log playerX_Id playerO_Id = gameplay_verified.
Proof. split_and!; vm_compute; reflexivity. Qed.

(** Scenario E: the log without its game-over entry ends in a validated
    move and fails the final check. *)
Example scenario_E_rejected :
  verifyFsmGameplay (removelast scenario_A_log) playerX_Id playerO_Id =
  Returns (false, [logger_error
    "FSM final state error: Final log entry is not a game over event." []]).
Proof. vm_compute. reflexivity. Qed.

(** C1 (the code accepts what the claim says it rejects).  The log of a
    game that was created and never played, whose last entry is the
    GAME_CREATED one, passes the chain verification and is accepted by
    [verifyFsmGameplay]: the final check looks for the prefix GAME_, which
    GAME_CREATED has too, and the recorded state PLAYER_X_TURN is the one
    the empty replay ends in. *)
Theorem verifyFsmGameplay_accepts_created_log :
  option_map eventType (last created_log) = Some "GAME_CREATED" ∧
  verifyHashChain created_log = chain_verified ∧
  verifyFsmGameplay created_log playerX_Id playerO_Id = gameplay_verified.
Proof. split_and!; vm_compute; reflexivity. Qed.

(** What the final check does enforce: a log is accepted only when the
    type of its last entry starts with GAME_. *)
Lemma verifyFsmGameplay_final_check gameLog X O e out :
  last gameLog = Some e →
  String.prefix "GAME_" (eventType e) = false →
  verifyFsmGameplay gameLog X O = Returns out →
  fst out = false.
Proof.
  intros Hlast Hprefix Hout. destruct out as [[] lines]; [|done].
  apply verifyFsmGameplay_true in Hout as (st & e' & _ & Hlast' & Hprefix' & _).
  congruence.
Qed.

(** *** Two clicks that overlap *)

(** The game of X (0,0), O (1,0), X (0,1), O (1,1), X (0,2), in which the
    second click arrives while the first still waits for its hash; every
    other click arrives when nothing is pending. *)
Definition overlapping_clicks : list PageEvent :=
  [ Restarted 1700000000000; Hashed 0 1700000000001;
    Clicked 0 0 1700000001000; Clicked 1 0 1700000001001;
    Hashed 0 1700000001002; Hashed 0 1700000001003;
    Clicked 0 1 1700000002000; Hashed 0 1700000002001;
    Clicked 1 1 1700000003000; Hashed 0 1700000003001;
    Clicked 0 2 1700000004000; Hashed 0 1700000004001;
    Hashed 0 1700000004002 ].

(** The session a run ends in, when no handler is left waiting. *)
Definition settled_session (outcome : completion Page) : option Session :=
  match outcome with
  | Returns p => settled p
  | Throws _ => None
  end.

Definition overlapping_log : list LogEntry :=
  default [] (gameLog <$> settled_session (run overlapping_clicks)).

Definition overlapping_hash (i : nat) : string :=
  default "" (currentEntryChainHash <$> overlapping_log !! i).

(** C7 (the page writes a log that the server refuses).  The game above
    is legitimate play: five valid moves in turn, the last one completing
    a row, and the page ends it with the GAME_WON entry.  But the two
    overlapping clicks built their entries before either was stored: the
    two entries carry the same sequence number, the second one names the
    hash of the GAME_CREATED entry and not of the entry before it, and
    [verifyHashChain] returns false on the log of this game
    (while [verifyFsmGameplay] accepts its moves). *)
Theorem overlapping_clicks_refused :
  serial overlapping_clicks = false ∧
  (currentState ∘ currentGameState) <$> settled_session (run overlapping_clicks) =
    Some STATES.GAME_OVER_X_WINS ∧
  map (fun e => (sequence e, eventType e, fsmState e)) overlapping_log =
    [ (0, "GAME_CREATED", "PLAYER_X_TURN");
      (1, "PLAYER_MOVE_VALIDATED", "PLAYER_O_TURN");
      (1, "PLAYER_MOVE_VALIDATED", "PLAYER_X_TURN");
      (3, "PLAYER_MOVE_VALIDATED", "PLAYER_O_TURN");
      (4, "PLAYER_MOVE_VALIDATED", "PLAYER_X_TURN");
      (5, "PLAYER_MOVE_VALIDATED", "GAME_OVER_X_WINS");
      (6, "GAME_WON", "GAME_OVER_X_WINS") ]%Z ∧
  verifyHashChain overlapping_log =
    (false, [logger_error "Hash chain broken!"
               [("sequence", JNum 1);
                ("expected", JStr (overlapping_hash 1));
                ("found", JStr (overlapping_hash 0))]]) ∧
  verifyFsmGameplay overlapping_log playerX_Id playerO_Id = gameplay_verified.
Proof. split_and!; vm_compute; reflexivity. Qed.

(** The same five clicks, each one after the hash of the one before. *)
Definition serial_clicks : list PageEvent :=
  [ Restarted 1700000000000; Hashed 0 1700000000001;
    Clicked 0 0 1700000001000; Hashed 0 1700000001002;
    Clicked 1 0 1700000001001; Hashed 0 1700000001003;
    Clicked 0 1 1700000002000; Hashed 0 1700000002001;
    Clicked 1 1 1700000003000; Hashed 0 1700000003001;
    Clicked 0 2 1700000004000; Hashed 0 1700000004001;
    Hashed 0 1700000004002 ].

Definition serial_log : list LogEntry :=
  default [] (gameLog <$> settled_session (run serial_clicks)).

Example serial_clicks_verified :
  serial serial_clicks = true ∧
  map (fun e => (sequence e, eventType e)) serial_log =
    [ (0, "GAME_CREATED"); (1, "PLAYER_MOVE_VALIDATED"); (2, "PLAYER_MOVE_VALIDATED");
      (3, "PLAYER_MOVE_VALIDATED"); (4, "PLAYER_MOVE_VALIDATED");
      (5, "PLAYER_MOVE_VALIDATED"); (6, "GAME_WON") ]%Z ∧
  verifyHashChain serial_log = chain_verified ∧
  verifyFsmGameplay serial_log playerX_Id playerO_Id = gameplay_verified.
Proof. split_and!; vm_compute; reflexivity. Qed.

(** *** Tampered logs *)

Definition blank_entry : LogEntry :=
  {| sequence := 0; eventType := ""; clientTimestamp := 0;
     eventData := {| move := None; playerId := None; otherProps := [] |};
     boardState := JNull; fsmState := "";
     previousEntryChainHash := ""; currentEntryChainHash := "" |}.

Definition entry_at (log : list LogEntry) (i : nat) : LogEntry :=
  default blank_entry (log !! i).

(** Scenario C: in entry 3 of scenario A (O's move to the centre) the
    recorded board gets an O in a corner too, and no hash is updated. *)
Definition with_boardState (e : LogEntry) (b : json) : LogEntry :=
  {| sequence := sequence e; eventType := eventType e;
     clientTimestamp := clientTimestamp e; eventData := eventData e;
     boardState := b; fsmState := fsmState e;
     previousEntryChainHash := previousEntryChainHash e;
     currentEntryChainHash := currentEntryChainHash e |}.

Definition scenario_C_entry : LogEntry :=
  with_boardState (entry_at scenario_A_log 3)
    (Board_json [ ["X"; ""; ""]; [""; "O"; ""]; [""; ""; "O"] ]).

Definition scenario_C_log : list LogEntry :=
  take 3 scenario_A_log ++ scenario_C_entry :: drop 4 scenario_A_log.

Lemma verifyHashChain_correct_witness :
  fst (verifyHashChain scenario_C_log) = false ∧
  verifyHashChain scenario_C_log = verifyHashChain (take 3 scenario_A_log ++ [scenario_C_entry]) ∧
  ∃ message data,
    snd (verifyHashChain scenario_C_log) =
    [logger_error message (("sequence", JNum (sequence scenario_C_entry)) :: data)].
Proof.
  apply (proj2 (verifyHashChain_correct scenario_C_log)
           (take 3 scenario_A_log) scenario_C_entry (drop 4 scenario_A_log)).
  - reflexivity.
  - apply (proj2 (chain_intact_linked (take 3 scenario_A_log))).
    apply (proj1 (verifyHashChain_loop_true zeroHash (take 3 scenario_A_log))).
    vm_compute. reflexivity.
  - right. vm_compute. discriminate.
Defined.

Example scenario_C_line :
  verifyHashChain scenario_C_log =
  (false, [logger_error "Entry hash mismatch! Data may be tampered."
     [("sequence", JNum 3);
      ("calculated", JStr (calculateEntryHash scenario_C_entry));
      ("stored", JStr (currentEntryChainHash scenario_C_entry))]]).
Proof. vm_compute. reflexivity. Qed.

(** Scenario D: the stored hash of entry 3 is forged, and entry 4 names the
    forged hash, so that the chain still links; entry 3 no longer carries
    its own hash. *)
Definition forged_hash : string := String_repeat "ab" 32.

Definition with_previous (e : LogEntry) (h : string) : LogEntry :=
  {| sequence := sequence e; eventType := eventType e;
     clientTimestamp := clientTimestamp e; eventData := eventData e;
     boardState := boardState e; fsmState := fsmState e;
     previousEntryChainHash := h;
     currentEntryChainHash := currentEntryChainHash e |}.

Definition scenario_D_log : list LogEntry :=
  take 3 scenario_A_log ++
  set_currentEntryChainHash (entry_at scenario_A_log 3) forged_hash ::
  with_previous (entry_at scenario_A_log 4) forged_hash ::
  drop 5 scenario_A_log.

Example scenario_D_rejected :
  verifyHashChain scenario_D_log =
  (false, [logger_error "Entry hash mismatch! Data may be tampered."
     [("sequence", JNum 3);
      ("calculated", JStr (currentEntryChainHash (entry_at scenario_A_log 3)));
      ("stored", JStr forged_hash)]]).
Proof. vm_compute. reflexivity. Qed.

(** A forged game: entry 3 claims that O's validated move went to the
    corner X had taken. *)
Definition with_move (e : LogEntry) (r c : Z) : LogEntry :=
  {| sequence := sequence e; eventType := eventType e;
     clientTimestamp := clientTimestamp e;
     eventData := {| move := Some {| rowIndex := r; colIndex := c |};
                     playerId := playerId (eventData e);
                     otherProps := otherProps (eventData e) |};
     boardState := boardState e; fsmState := fsmState e;
     previousEntryChainHash := previousEntryChainHash e;
     currentEntryChainHash := currentEntryChainHash e |}.

Definition forged_entry : LogEntry := with_move (entry_at scenario_A_log 3) 0 0.

Definition forged_log : list LogEntry :=
  take 3 scenario_A_log ++ forged_entry :: drop 4 scenario_A_log.

Definition after_first_move : GameState :=
  {| currentState := STATES.PLAYER_O_TURN;
     board := [ ["X"; ""; ""]; [""; ""; ""]; [""; ""; ""] ];
     playerX := playerX_Id; playerO := playerO_Id |}.

Lemma verifyFsmGameplay_replays_witness :
  ∃ message data,
    verifyFsmGameplay forged_log playerX_Id playerO_Id =
    Returns (false, [logger_error message (("sequence", JNum (sequence forged_entry)) :: data)]).
Proof.
  apply (proj1 (verifyFsmGameplay_replays forged_log playerX_Id playerO_Id)
           [entry_at scenario_A_log 1] forged_entry
           (List.filter is_validated_move (drop 4 scenario_A_log))
           after_first_move
           (invalid_move STATES.PLAYER_O_TURN occupied_text)).
  - vm_compute. reflexivity.
  - apply (verifyFsmGameplay_loop_done (getInitialGameState playerX_Id playerO_Id)
             [entry_at scenario_A_log 1] after_first_move).
    vm_compute. reflexivity.
  - vm_compute. reflexivity.
  - left. reflexivity.
Defined.

Example forged_log_line :
  verifyFsmGameplay forged_log playerX_Id playerO_Id =
  Returns (false, [logger_error
    "FSM re-simulation failed: A move considered valid by the client was rejected by the server FSM."
    [("sequence", JNum 3)]]).
Proof. vm_compute. reflexivity. Qed.

(** * Further properties of the code *)

(** ** The state machine beyond a player's legal turn *)

Section fsm_edges.

Implicit Types (b : Board) (st : GameState) (ed : EventData).

(** X1. For a move whose row and column index are integers, on a 3x3
    board, [transition] throws for one reason only, its own argument check:
    with an empty event name or without a move it throws the
    invalid-arguments error (whatever the state, also when the game is
    over), and with an event name and a move of integer indices it returns
    a result, wherever the indices point.  (A move whose indices are
    missing or are no integers is outside [Move]; on such a move the
    source can throw a TypeError.) *)
Theorem transition_throws_only_on_arguments st event ed :
  is_3x3 (board st) →
  (event = "" ∨ move ed = None →
   transition st event ed =
   Throws (Error "Invalid arguments provided to FSM transition function.")) ∧
  (event ≠ "" → is_Some (move ed) → ∃ res, transition st event ed = Returns res).
Proof.
  intros Hb. split.
  - intros [-> | Hmv]; unfold transition; [by destruct (move ed)|by rewrite Hmv].
  - intros Hev [mv Hmv]. unfold transition. rewrite Hmv.
    destruct (String.eqb_spec event "") as [|_]; [done|].
    destruct (String.eqb (currentState st) STATES.PLAYER_X_TURN).
    { destruct (String.eqb event EVENTS.PLAYER_MOVE_ATTEMPTED);
        [by apply player_move_total|by eauto]. }
    destruct (String.eqb (currentState st) STATES.PLAYER_O_TURN).
    { destruct (String.eqb event EVENTS.PLAYER_MOVE_ATTEMPTED);
        [by apply player_move_total|by eauto]. }
    destruct (_ || _); eauto.
Qed.

Lemma transition_throws_only_on_arguments_witness :
  transition sample_over "" (attempt "DOGE" 7 (-1)) =
    Throws (Error "Invalid arguments provided to FSM transition function.") ∧
  transition sample_over EVENTS.PLAYER_MOVE_ATTEMPTED
    {| move := None; playerId := Some "DOGE"; otherProps := [] |} =
    Throws (Error "Invalid arguments provided to FSM transition function.") ∧
  (∃ res, transition sample_state EVENTS.PLAYER_MOVE_ATTEMPTED (attempt "DOGE" 7 (-1)) =
          Returns res) ∧
  (∃ res, transition sample_over "ANY_EVENT" (attempt "PEPE" 0 2) = Returns res).
Proof.
  assert (Hover : is_3x3 (board sample_over)) by (split; [reflexivity|repeat constructor]).
  assert (Hstate : is_3x3 (board sample_state)) by (split; [reflexivity|repeat constructor]).
  split_and!.
  - apply (proj1 (transition_throws_only_on_arguments sample_over ""
                    (attempt "DOGE" 7 (-1)) Hover)). left. reflexivity.
  - apply (proj1 (transition_throws_only_on_arguments sample_over
                    EVENTS.PLAYER_MOVE_ATTEMPTED
                    {| move := None; playerId := Some "DOGE"; otherProps := [] |} Hover)).
    right. reflexivity.
  - apply (proj2 (transition_throws_only_on_arguments sample_state
                    EVENTS.PLAYER_MOVE_ATTEMPTED (attempt "DOGE" 7 (-1)) Hstate)).
    + discriminate.
    + eexists. reflexivity.
  - apply (proj2 (transition_throws_only_on_arguments sample_over "ANY_EVENT"
                    (attempt "PEPE" 0 2) Hover)).
    + discriminate.
    + eexists. reflexivity.
Defined.

(** X2. The default case of the switch.  An event other than
    PLAYER_MOVE_ATTEMPTED in a turn state, or any event in a state that is
    neither a turn nor a game-over state (GAME_STARTING is one), is answered
    as an invalid move that leaves the state as it is, with the text that
    names the event and the state. *)
Theorem transition_no_transition st event ed :
  event ≠ "" → is_Some (move ed) →
  (is_turn (currentState st) ∧ event ≠ EVENTS.PLAYER_MOVE_ATTEMPTED) ∨
  (¬ is_turn (currentState st) ∧ ¬ is_game_over (currentState st)) →
  transition st event ed =
  Returns (invalid_move (currentState st)
             ("No valid transition for event " +:+ event +:+ " from state " +:+
              currentState st +:+ ".")).
Proof.
  intros Hev [mv Hmv] Hcase. unfold transition. rewrite Hmv.
  destruct (String.eqb_spec event "") as [|_]; [done|].
  unfold is_turn, is_game_over in Hcase.
  destruct (String.eqb_spec (currentState st) STATES.PLAYER_X_TURN) as [HX|HX].
  { destruct (String.eqb_spec event EVENTS.PLAYER_MOVE_ATTEMPTED); [|done].
    destruct Hcase as [[_ ?]|[Hn _]]; [done|]. destruct Hn. by left. }
  destruct (String.eqb_spec (currentState st) STATES.PLAYER_O_TURN) as [HO|HO].
  { destruct (String.eqb_spec event EVENTS.PLAYER_MOVE_ATTEMPTED); [|done].
    destruct Hcase as [[_ ?]|[Hn _]]; [done|]. destruct Hn. by right. }
  destruct Hcase as [[[?|?] _]|[_ Hn]]; [done|done|].
  destruct (String.eqb_spec (currentState st) STATES.GAME_OVER_X_WINS).
  { destruct Hn. by left. }
  destruct (String.eqb_spec (currentState st) STATES.GAME_OVER_O_WINS).
  { destruct Hn. right. by left. }
  destruct (String.eqb_spec (currentState st) STATES.GAME_OVER_DRAW); [|done].
  destruct Hn. right. by right.
Qed.

Definition starting_state : GameState :=
  {| currentState := STATES.GAME_STARTING;
     board := [ [""; ""; ""]; [""; ""; ""]; [""; ""; ""] ];
     playerX := "DOGE"; playerO := "PEPE" |}.

Lemma transition_no_transition_witness :
  transition starting_state EVENTS.PLAYER_MOVE_ATTEMPTED (attempt "DOGE" 0 0) =
  Returns (invalid_move STATES.GAME_STARTING
    "No valid transition for event PLAYER_MOVE_ATTEMPTED from state GAME_STARTING.").
Proof.
  apply (transition_no_transition starting_state EVENTS.PLAYER_MOVE_ATTEMPTED
           (attempt "DOGE" 0 0)).
  - discriminate.
  - by eexists.
  - right. split.
    + intros [H|H]; discriminate H.
    + intros [H|[H|H]]; discriminate H.
Defined.

(** X3. A valid move writes one cell and only that one: the targeted cell
    was empty and now holds the mover's symbol, every other cell of the new
    board is the cell of the old board, and a 3x3 board stays 3x3.  No
    occupied cell is ever overwritten. *)
Theorem transition_valid_writes_one_cell st ed mv res :
  move ed = Some mv →
  transition st EVENTS.PLAYER_MOVE_ATTEMPTED ed = Returns res →
  isValidMove res = true →
  ∃ nb,
    newBoard res = Some nb ∧
    cell_at (board st) (rowIndex mv) (colIndex mv) = Some "" ∧
    (∀ r c, cell_at nb r c =
            if bool_decide (r = rowIndex mv ∧ c = colIndex mv)
            then Some (turn_symbol st) else cell_at (board st) r c) ∧
    (is_3x3 (board st) → is_3x3 nb).
Proof.
  intros Hmv Hres Hvalid.
  destruct (transition_valid_is_turn _ _ _ _ Hres Hvalid) as [Hturn _].
  rewrite (transition_turn st ed mv) in Hres by done.
  apply player_move_outcome in Hres.
  destruct Hres as [| |state _ _ _ Hcell _]; try done.
  eexists. split; [done|]. split; [done|]. split.
  - intros r c. apply cell_at_place. by rewrite Hcell.
  - apply place_3x3.
Qed.

Lemma transition_valid_writes_one_cell_witness :
  ∃ nb,
    newBoard (valid_move STATES.GAME_OVER_X_WINS (board sample_over)) = Some nb ∧
    cell_at (board sample_state) 0 2 = Some "" ∧
    (∀ r c, cell_at nb r c =
            if bool_decide (r = 0%Z ∧ c = 2%Z)
            then Some (turn_symbol sample_state) else cell_at (board sample_state) r c) ∧
    (is_3x3 (board sample_state) → is_3x3 nb).
Proof.
  apply (transition_valid_writes_one_cell sample_state (attempt "DOGE" 0 2)
           {| rowIndex := 0; colIndex := 2 |}
           (valid_move STATES.GAME_OVER_X_WINS (board sample_over)));
    reflexivity.
Defined.

End fsm_edges.

(** ** What a replay guarantees *)

Section replay_guarantees.

Implicit Types (b : Board) (st : GameState) (e : LogEntry) (res : TransitionResult).

(** Everything a valid answer of [transition] tells. *)
Lemma transition_valid_inv st event ed res :
  transition st event ed = Returns res → isValidMove res = true →
  ∃ mv,
    move ed = Some mv ∧ is_turn (currentState st) ∧
    playerId ed = Some (turn_player st) ∧
    (0 ≤ rowIndex mv ≤ 2)%Z ∧ (0 ≤ colIndex mv ≤ 2)%Z ∧
    cell_at (board st) (rowIndex mv) (colIndex mv) = Some "" ∧
    newBoard res = Some (place (board st) (rowIndex mv) (colIndex mv) (turn_symbol st)) ∧
    (newState res = win_state st ∧
       has_three_in_line (place (board st) (rowIndex mv) (colIndex mv) (turn_symbol st))
         (turn_symbol st) ∨
     newState res = STATES.GAME_OVER_DRAW ∧
       no_empty_cell (place (board st) (rowIndex mv) (colIndex mv) (turn_symbol st)) ∨
     newState res = other_turn st).
Proof.
  intros Hres Hvalid.
  destruct (transition_valid_is_turn _ _ _ _ Hres Hvalid) as [Hturn ->].
  destruct (move ed) as [mv|] eqn:Hmv; [|by unfold transition in Hres; rewrite Hmv in Hres].
  rewrite (transition_turn st ed mv) in Hres by done.
  apply player_move_outcome in Hres.
  destruct Hres as [| |state Hpid Hr Hc Hcell Hstate]; try done.
  exists mv. do 7 (split; [done|]). simpl.
  destruct Hstate as [[-> ?]|[(-> & _ & ?)|(-> & _)]]; auto.
Qed.

(** *** Counting the symbols on the board *)

Definition filled_cells (b : Board) : nat :=
  length (List.filter (fun cell => negb (String.eqb cell "")) (concat b)).

Lemma is_3x3_inv b :
  is_3x3 b →
  ∃ x1 x2 x3 x4 x5 x6 x7 x8 x9 : string,
    b = [ [x1; x2; x3]; [x4; x5; x6]; [x7; x8; x9] ].
Proof.
  intros [Hlen Hrows].
  destruct b as [|r1 [|r2 [|r3 [|]]]]; try done.
  apply Forall_cons in Hrows as [H1 Hrows].
  apply Forall_cons in Hrows as [H2 Hrows].
  apply Forall_cons in Hrows as [H3 _].
  destruct r1 as [|? [|? [|? [|]]]]; try done.
  destruct r2 as [|? [|? [|? [|]]]]; try done.
  destruct r3 as [|? [|? [|? [|]]]]; try done.
  by repeat eexists.
Qed.

Lemma filled_cells_le_9 b : is_3x3 b → filled_cells b ≤ 9.
Proof.
  intros (x1 & x2 & x3 & x4 & x5 & x6 & x7 & x8 & x9 & ->)%is_3x3_inv.
  unfold filled_cells. etrans; [apply List.filter_length_le|]. simpl. lia.
Qed.

Lemma filled_cells_place b r c symbol :
  is_3x3 b → (0 ≤ r ≤ 2)%Z → (0 ≤ c ≤ 2)%Z →
  cell_at b r c = Some "" → symbol ≠ "" →
  filled_cells (place b r c symbol) = S (filled_cells b).
Proof.
  intros (x1 & x2 & x3 & x4 & x5 & x6 & x7 & x8 & x9 & ->)%is_3x3_inv Hr Hc Hcell Hsym.
  assert (Hs : String.eqb symbol "" = false) by by apply String.eqb_neq.
  assert (r = 0 ∨ r = 1 ∨ r = 2)%Z as [-> | [-> | ->]] by lia;
    (assert (c = 0 ∨ c = 1 ∨ c = 2)%Z as [-> | [-> | ->]] by lia);
    injection Hcell as ->; unfold filled_cells; simpl; rewrite Hs; simpl;
    repeat (match goal with |- context [String.eqb ?x ""] => destruct (String.eqb x "") end;
            simpl); reflexivity.
Qed.

Lemma turn_symbol_not_empty st : turn_symbol st ≠ "".
Proof. unfold turn_symbol. by destruct (x_to_move st). Qed.

(** *** Invariants of a replay *)

(** Every replayed entry puts one symbol on a 3x3 board. *)
Lemma replayed_filled st entries st' :
  replayed st entries st' → is_3x3 (board st) →
  is_3x3 (board st') ∧ filled_cells (board st') = (filled_cells (board st) + length entries)%nat.
Proof.
  induction 1 as [|st e res b rest st' Hres Hvalid Hstate Hboard Hhash _ IH]; intros Hb.
  - split; [done|]. simpl. lia.
  - destruct (transition_valid_inv _ _ _ _ Hres Hvalid)
      as (mv & _ & _ & _ & Hr & Hc & Hcell & Hnb & _).
    rewrite Hboard in Hnb. injection Hnb as ->.
    destruct IH as [Hb' Hcount]; [by apply place_3x3|]. split; [done|].
    rewrite Hcount. simpl.
    rewrite filled_cells_place by (try done; apply turn_symbol_not_empty). lia.
Qed.

(** The state a replay ends in tells the truth about its board. *)
Definition state_is_true (st : GameState) : Prop :=
  (currentState st = STATES.GAME_OVER_X_WINS → has_three_in_line (board st) "X") ∧
  (currentState st = STATES.GAME_OVER_O_WINS → has_three_in_line (board st) "O") ∧
  (currentState st = STATES.GAME_OVER_DRAW → no_empty_cell (board st)).

Lemma replayed_state_is_true st entries st' :
  replayed st entries st' → state_is_true st → state_is_true st'.
Proof.
  induction 1 as [|st e res b rest st' Hres Hvalid Hstate Hboard Hhash _ IH]; [done|].
  intros _. apply IH.
  destruct (transition_valid_inv _ _ _ _ Hres Hvalid)
    as (mv & _ & Hturn & _ & _ & _ & _ & Hnb & Hnew).
  rewrite Hboard in Hnb. injection Hnb as ->.
  unfold state_is_true. simpl.
  unfold win_state, other_turn, turn_symbol, x_to_move in *.
  destruct Hturn as [Ht|Ht]; rewrite Ht in *; simpl in *;
    destruct Hnew as [ [-> ?] | [ [-> ?] | -> ] ]; split_and!; intros; try done.
Qed.

(** The players of the replayed entries take turns, from the state's. *)
Definition other_player (st : GameState) : string :=
  if x_to_move st then playerO st else playerX st.

Lemma replayed_alternate st entries st' :
  replayed st entries st' →
  ∀ i e, entries !! i = Some e →
    playerId (eventData e) =
    Some (if Nat.even i then turn_player st else other_player st).
Proof.
  induction 1 as [|st e res b rest st' Hres Hvalid Hstate Hboard Hhash Hrest IH];
    intros i e' Hi; [done|].
  destruct (transition_valid_inv _ _ _ _ Hres Hvalid)
    as (mv & _ & Hturn & Hpid & _ & _ & _ & _ & Hnew).
  destruct i as [|i]; simpl in Hi.
  { injection Hi as <-. done. }
  specialize (IH i e' Hi). rewrite IH. rewrite Nat.even_succ, <- Nat.negb_even.
  (* the rest is not empty, so its first entry was answered in a turn state *)
  assert (Hnext : is_turn (newState res)).
  { inversion Hrest as [|? ? res1 ? ? ? Hres1 Hvalid1]; subst; [done|].
    by destruct (transition_valid_is_turn _ _ _ _ Hres1 Hvalid1) as [? _]. }
  assert (Hother : newState res = other_turn st).
  { unfold is_turn in Hnext, Hturn. unfold win_state, other_turn, x_to_move in *.
    destruct Hturn as [Ht|Ht]; rewrite Ht in *; simpl in *;
      destruct Hnew as [[Hn _]|[[Hn _]|Hn]]; rewrite Hn in Hnext; try done;
      destruct Hnext as [?|?]; done. }
  unfold turn_player, other_player, x_to_move. simpl. rewrite Hother.
  unfold other_turn, x_to_move.
  destruct Hturn as [Ht|Ht]; rewrite Ht; simpl; by destruct (Nat.even i).
Qed.

End replay_guarantees.

(** ** The positions a replay reaches *)

Section positions.

Implicit Types (b : Board) (st : GameState) (e : LogEntry) (res : TransitionResult).

(** A valid answer of [transition], with what it rules out: a draw is
    answered only when the move made no line, the other player's turn only
    when it made no line and left an empty cell. *)
Lemma transition_valid_exact st event ed res :
  transition st event ed = Returns res → isValidMove res = true →
  ∃ mv,
    move ed = Some mv ∧ is_turn (currentState st) ∧
    (0 ≤ rowIndex mv ≤ 2)%Z ∧ (0 ≤ colIndex mv ≤ 2)%Z ∧
    cell_at (board st) (rowIndex mv) (colIndex mv) = Some "" ∧
    newBoard res = Some (place (board st) (rowIndex mv) (colIndex mv) (turn_symbol st)) ∧
    (newState res = win_state st ∧
       has_three_in_line (place (board st) (rowIndex mv) (colIndex mv) (turn_symbol st))
         (turn_symbol st) ∨
     newState res = STATES.GAME_OVER_DRAW ∧
       ¬ has_three_in_line (place (board st) (rowIndex mv) (colIndex mv) (turn_symbol st))
           (turn_symbol st) ∧
       no_empty_cell (place (board st) (rowIndex mv) (colIndex mv) (turn_symbol st)) ∨
     newState res = other_turn st ∧
       ¬ has_three_in_line (place (board st) (rowIndex mv) (colIndex mv) (turn_symbol st))
           (turn_symbol st) ∧
       ¬ no_empty_cell (place (board st) (rowIndex mv) (colIndex mv) (turn_symbol st))).
Proof.
  intros Hres Hvalid.
  destruct (transition_valid_is_turn _ _ _ _ Hres Hvalid) as [Hturn ->].
  destruct (move ed) as [mv|] eqn:Hmv; [|by unfold transition in Hres; rewrite Hmv in Hres].
  rewrite (transition_turn st ed mv) in Hres by done.
  apply player_move_outcome in Hres.
  destruct Hres as [| |state Hpid Hr Hc Hcell Hstate]; try done.
  exists mv. do 6 (split; [done|]). simpl.
  destruct Hstate as [[-> ?]|[(-> & ? & ?)|(-> & ? & ?)]]; auto.
Qed.

(** How many cells hold a symbol. *)
Definition count_symbol (b : Board) (symbol : string) : nat :=
  sum_list (map (fun cell => if String.eqb symbol cell then 1 else 0)%nat (concat b)).

Definition is_symbol (cell : string) : Prop := cell = "" ∨ cell = "X" ∨ cell = "O".

(** A position of the game after [n] moves: a 3x3 board of X, O and empty
    cells that holds [n] symbols, in a turn state or a game-over state, and
    - when it is X's turn, as many X as O, no line, an empty cell;
    - when it is O's turn, one more X than O, no line, an empty cell;
    - when X has won, one more X than O, a line of X and none of O;
    - when O has won, as many X as O, a line of O and none of X;
    - when it is a draw, five X and four O, no line, no empty cell. *)
Record position (n : nat) (st : GameState) : Prop := {
  position_board : is_3x3 (board st);
  position_cells : Forall is_symbol (concat (board st));
  position_count : (count_symbol (board st) "X" + count_symbol (board st) "O" = n)%nat;
  position_state : is_turn (currentState st) ∨ is_game_over (currentState st);
  position_X_turn :
    currentState st = STATES.PLAYER_X_TURN →
    count_symbol (board st) "X" = count_symbol (board st) "O" ∧
    ¬ has_three_in_line (board st) "X" ∧ ¬ has_three_in_line (board st) "O" ∧
    ¬ no_empty_cell (board st);
  position_O_turn :
    currentState st = STATES.PLAYER_O_TURN →
    count_symbol (board st) "X" = S (count_symbol (board st) "O") ∧
    ¬ has_three_in_line (board st) "X" ∧ ¬ has_three_in_line (board st) "O" ∧
    ¬ no_empty_cell (board st);
  position_X_wins :
    currentState st = STATES.GAME_OVER_X_WINS →
    count_symbol (board st) "X" = S (count_symbol (board st) "O") ∧
    has_three_in_line (board st) "X" ∧ ¬ has_three_in_line (board st) "O";
  position_O_wins :
    currentState st = STATES.GAME_OVER_O_WINS →
    count_symbol (board st) "X" = count_symbol (board st) "O" ∧
    has_three_in_line (board st) "O" ∧ ¬ has_three_in_line (board st) "X";
  position_draw :
    currentState st = STATES.GAME_OVER_DRAW →
    count_symbol (board st) "X" = 5%nat ∧ count_symbol (board st) "O" = 4%nat ∧
    ¬ has_three_in_line (board st) "X" ∧ ¬ has_three_in_line (board st) "O" ∧
    no_empty_cell (board st)
}.

Lemma count_symbol_place b r c symbol s :
  is_3x3 b → (0 ≤ r ≤ 2)%Z → (0 ≤ c ≤ 2)%Z →
  cell_at b r c = Some "" → s ≠ "" →
  count_symbol (place b r c symbol) s =
  (count_symbol b s + if String.eqb s symbol then 1 else 0)%nat.
Proof.
  intros (x1 & x2 & x3 & x4 & x5 & x6 & x7 & x8 & x9 & ->)%is_3x3_inv Hr Hc Hcell Hs.
  assert (Hs' : String.eqb s "" = false) by by apply String.eqb_neq.
  assert (r = 0 ∨ r = 1 ∨ r = 2)%Z as [-> | [-> | ->]] by lia;
    (assert (c = 0 ∨ c = 1 ∨ c = 2)%Z as [-> | [-> | ->]] by lia);
    injection Hcell as ->; unfold count_symbol; simpl; rewrite Hs'; lia.
Qed.

Lemma is_symbol_place b r c symbol :
  Forall is_symbol (concat b) → is_symbol symbol →
  Forall is_symbol (concat (place b r c symbol)).
Proof.
  rewrite !Forall_concat. intros Hb Hs. unfold place.
  apply Forall_alter; [done|]. intros row _ Hrow. by apply Forall_insert.
Qed.

(** A move makes no line of another symbol than its own. *)
Lemma has_three_in_line_place b r c symbol s :
  is_Some (cell_at b r c) → s ≠ symbol →
  has_three_in_line (place b r c symbol) s → has_three_in_line b s.
Proof.
  intros Hcell Hs Hline. unfold has_three_in_line in *.
  eapply Exists_impl; [exact Hline|]. intros triple Hall.
  eapply Forall_impl; [exact Hall|]. intros [r' c']. simpl.
  rewrite cell_at_place by done. case_bool_decide; [|done]. congruence.
Qed.

Lemma no_empty_cell_cells b :
  is_3x3 b → no_empty_cell b → Forall (fun cell => cell ≠ "") (concat b).
Proof.
  intros (x1 & x2 & x3 & x4 & x5 & x6 & x7 & x8 & x9 & ->)%is_3x3_inv Hfull.
  simpl. repeat constructor; intros ->;
    first [ by apply (Hfull 0%Z 0%Z) | by apply (Hfull 0%Z 1%Z) | by apply (Hfull 0%Z 2%Z)
          | by apply (Hfull 1%Z 0%Z) | by apply (Hfull 1%Z 1%Z) | by apply (Hfull 1%Z 2%Z)
          | by apply (Hfull 2%Z 0%Z) | by apply (Hfull 2%Z 1%Z) | by apply (Hfull 2%Z 2%Z) ].
Qed.

Lemma count_symbol_full b :
  is_3x3 b → Forall is_symbol (concat b) → no_empty_cell b →
  (count_symbol b "X" + count_symbol b "O" = 9)%nat.
Proof.
  intros Hb Hcells Hfull.
  assert (Hlen : length (concat b) = 9%nat).
  { by destruct (is_3x3_inv b Hb) as (x1 & x2 & x3 & x4 & x5 & x6 & x7 & x8 & x9 & ->). }
  apply no_empty_cell_cells in Hfull; [|done]. unfold count_symbol. rewrite <- Hlen.
  clear Hb Hlen. induction (concat b) as [|cell cells IH]; [done|].
  apply Forall_cons in Hcells as [Hcell Hcells]. apply Forall_cons in Hfull as [Hne Hfull].
  specialize (IH Hcells Hfull). destruct Hcell as [->|[->| ->]]; [done| |]; simpl in *; lia.
Qed.

Lemma position_initial X O : position 0 (getInitialGameState X O).
Proof.
  assert (Hline : ∀ s, s ≠ "" →
            ¬ has_three_in_line [ [""; ""; ""]; [""; ""; ""]; [""; ""; ""] ] s).
  { intros s Hs Hline. unfold has_three_in_line, rows, columns, diagonals in Hline.
    simpl in Hline. rewrite !Exists_cons, Exists_nil in Hline.
    assert (Hcell : ∃ r c, cell_at [ [""; ""; ""]; [""; ""; ""]; [""; ""; ""] ] r c = Some s
                            ∧ (0 ≤ r ≤ 2)%Z ∧ (0 ≤ c ≤ 2)%Z).
    { repeat (destruct Hline as [Hall|Hline];
        [apply Forall_cons in Hall as [Hall _]; eexists _, _; split; [exact Hall|simpl; lia]|]).
      done. }
    destruct Hcell as (r & c & Hcell & Hr & Hc).
    assert (r = 0 ∨ r = 1 ∨ r = 2)%Z as [-> | [-> | ->]] by lia;
      (assert (c = 0 ∨ c = 1 ∨ c = 2)%Z as [-> | [-> | ->]] by lia);
      injection Hcell as <-; done. }
  constructor; simpl; try done.
  - split; [done|]. repeat constructor.
  - repeat constructor; by left.
  - left. by left.
  - intros _. split_and!; [done|by apply Hline|by apply Hline|].
    intros Hfull. by apply (Hfull 0%Z 0%Z).
Qed.

Ltac solve_position :=
  first
    [ done | lia
    | left; left; reflexivity | left; right; reflexivity
    | right; left; reflexivity | right; right; left; reflexivity
    | right; right; right; reflexivity
    | exfalso; lia
    | intros _; split_and!; first [done | lia | tauto] ].

(** A valid move takes a position after [n] moves to one after [n + 1]. *)
Lemma position_move n st event ed res b :
  position n st →
  transition st event ed = Returns res → isValidMove res = true →
  newBoard res = Some b →
  position (S n) {| currentState := newState res; board := b;
                    playerX := playerX st; playerO := playerO st |}.
Proof.
  intros [Hb Hcells Hn _ HX HO _ _ _] Hres Hvalid Hboard.
  destruct (transition_valid_exact _ _ _ _ Hres Hvalid)
    as (mv & _ & Hturn & Hr & Hc & Hcell & Hnb & Hnew).
  rewrite Hboard in Hnb. injection Hnb as ->.
  pose proof (place_3x3 (board st) (rowIndex mv) (colIndex mv) (turn_symbol st) Hb) as Hb'.
  assert (Hsome : is_Some (cell_at (board st) (rowIndex mv) (colIndex mv))) by by eexists.
  pose proof (count_symbol_place (board st) (rowIndex mv) (colIndex mv) (turn_symbol st) "X"
                Hb Hr Hc Hcell) as HcX.
  pose proof (count_symbol_place (board st) (rowIndex mv) (colIndex mv) (turn_symbol st) "O"
                Hb Hr Hc Hcell) as HcO.
  pose proof (has_three_in_line_place (board st) (rowIndex mv) (colIndex mv) (turn_symbol st)
                "X" Hsome) as HlX.
  pose proof (has_three_in_line_place (board st) (rowIndex mv) (colIndex mv) (turn_symbol st)
                "O" Hsome) as HlO.
  pose proof (count_symbol_full (place (board st) (rowIndex mv) (colIndex mv) (turn_symbol st))
                Hb') as Hfull.
  pose proof (is_symbol_place (board st) (rowIndex mv) (colIndex mv) (turn_symbol st) Hcells)
    as Hcells'.
  unfold win_state, other_turn, turn_symbol, x_to_move in *.
  destruct Hturn as [Ht|Ht]; rewrite Ht in *; simpl in *.
  - destruct (HX eq_refl) as (Hcount & HnX & HnO & _).
    specialize (HcX ltac:(done)). specialize (HcO ltac:(done)).
    specialize (HlO ltac:(done)).
    specialize (Hcells' ltac:(right; by left)). specialize (Hfull Hcells').
    destruct Hnew as [[-> Hline]|[(-> & Hline & Hdraw)|(-> & Hline & Hopen)]];
      try specialize (Hfull Hdraw); constructor; simpl; solve_position.
  - destruct (HO eq_refl) as (Hcount & HnX & HnO & _).
    specialize (HcX ltac:(done)). specialize (HcO ltac:(done)).
    specialize (HlX ltac:(done)).
    specialize (Hcells' ltac:(right; by right)). specialize (Hfull Hcells').
    destruct Hnew as [[-> Hline]|[(-> & Hline & Hdraw)|(-> & Hline & Hopen)]];
      try specialize (Hfull Hdraw); constructor; simpl; solve_position.
Qed.

Lemma replayed_position n st entries st' :
  replayed st entries st' → position n st → position (n + length entries) st'.
Proof.
  intros Hrep. revert n.
  induction Hrep as [|st e res b rest st' Hres Hvalid Hstate Hboard Hhash _ IH]; intros n Hpos.
  - by rewrite Nat.add_0_r.
  - simpl. rewrite Nat.add_succ_r. apply (IH (S n)). by eapply position_move.
Qed.

(** X18. The game stops at the first line, and the board and the state
    agree.  Whatever entries replay from the initial state, the state
    reached is a position of the game after that many moves: X and O have
    moved in turn (as many X as O, or one more), there is no line on the
    board while a turn is on, never a line of each symbol, a win is X's
    exactly with one more X than O, and a draw is the full board of five X
    and four O without a line. *)
Theorem replayed_positions (X O : string) (entries : list LogEntry) (st : GameState) :
  replayed (getInitialGameState X O) entries st →
  position (length entries) st.
Proof.
  intros Hrep. apply (replayed_position 0 _ _ _ Hrep), position_initial.
Qed.

End positions.

(** The state the replay of scenario A ends in. *)
Definition scenario_A_final : GameState :=
  Eval vm_compute in
    match verifyFsmGameplay_loop (getInitialGameState playerX_Id playerO_Id)
            (List.filter is_validated_move scenario_A_log) with
    | Returns (LoopDone st) => st
    | _ => getInitialGameState playerX_Id playerO_Id
    end.

Lemma replayed_positions_witness :
  position (length (List.filter is_validated_move scenario_A_log)) scenario_A_final.
Proof.
  apply (replayed_positions playerX_Id playerO_Id
           (List.filter is_validated_move scenario_A_log) scenario_A_final).
  apply (verifyFsmGameplay_loop_done (getInitialGameState playerX_Id playerO_Id)
           (List.filter is_validated_move scenario_A_log) scenario_A_final).
  vm_compute. reflexivity.
Defined.

(** ** What [verifyFsmGameplay] accepts *)

Section accepted_logs.

Implicit Types (st : GameState) (e : LogEntry).

(** X4. The logs [verifyFsmGameplay] accepts, exactly: the validated
    entries replay from the initial state (each one a valid move that
    reaches the recorded state and a board of the recorded hash), the log
    has a last entry, the type of that entry starts with GAME_, and the
    state it records is the state the replay ends in.  Nothing else of the
    log is looked at: no sequence number, no timestamp, no entry of
    another type but the last. *)
Theorem verifyFsmGameplay_accepts_iff (gameLog : list LogEntry) (X O : string) :
  (∃ lines, verifyFsmGameplay gameLog X O = Returns (true, lines)) ↔
  ∃ st e,
    replayed (getInitialGameState X O) (List.filter is_validated_move gameLog) st ∧
    last gameLog = Some e ∧
    String.prefix "GAME_" (eventType e) = true ∧
    fsmState e = currentState st.
Proof.
  split.
  - intros (lines & (st & e & ? & ? & ? & ? & _)%verifyFsmGameplay_true). by exists st, e.
  - intros (st & e & ? & ? & ? & ?). eexists. apply verifyFsmGameplay_true.
    exists st, e. by split_and!.
Qed.

(** X5. An accepted log holds at most nine validated moves, and their
    players take turns: the moves at even positions are player X's, those
    at odd positions player O's. *)
Theorem verifyFsmGameplay_accepted_moves (gameLog : list LogEntry) (X O : string) lines :
  verifyFsmGameplay gameLog X O = Returns (true, lines) →
  length (List.filter is_validated_move gameLog) ≤ 9 ∧
  ∀ i e, List.filter is_validated_move gameLog !! i = Some e →
         playerId (eventData e) = Some (if Nat.even i then X else O).
Proof.
  intros (st & final & Hrep & _)%verifyFsmGameplay_true. split.
  - destruct (replayed_filled _ _ _ Hrep) as [Hb Hcount].
    { split; [done|]. repeat constructor. }
    apply filled_cells_le_9 in Hb. rewrite Hcount in Hb. simpl in Hb. lia.
  - intros i e Hi. by rewrite (replayed_alternate _ _ _ Hrep i e Hi).
Qed.

Lemma verifyFsmGameplay_accepted_moves_witness :
  length (List.filter is_validated_move scenario_A_log) ≤ 9 ∧
  ∀ i e, List.filter is_validated_move scenario_A_log !! i = Some e →
         playerId (eventData e) = Some (if Nat.even i then playerX_Id else playerO_Id).
Proof.
  apply (verifyFsmGameplay_accepted_moves scenario_A_log playerX_Id playerO_Id
           [logger_info "FSM gameplay successfully verified."]).
  vm_compute. reflexivity.
Defined.

(** X6. The state an accepted log ends on is the state of a board the
    replay has reached: when its last entry records GAME_OVER_X_WINS that
    board has three X in one of the eight triples, when it records
    GAME_OVER_O_WINS three O, and when it records GAME_OVER_DRAW no empty
    cell; the board is 3x3 and holds one symbol per validated move. *)
Theorem verifyFsmGameplay_accepted_outcome (gameLog : list LogEntry) (X O : string) lines :
  verifyFsmGameplay gameLog X O = Returns (true, lines) →
  ∃ st final,
    replayed (getInitialGameState X O) (List.filter is_validated_move gameLog) st ∧
    last gameLog = Some final ∧
    is_3x3 (board st) ∧
    filled_cells (board st) = length (List.filter is_validated_move gameLog) ∧
    (fsmState final = STATES.GAME_OVER_X_WINS → has_three_in_line (board st) "X") ∧
    (fsmState final = STATES.GAME_OVER_O_WINS → has_three_in_line (board st) "O") ∧
    (fsmState final = STATES.GAME_OVER_DRAW → no_empty_cell (board st)).
Proof.
  intros (st & final & Hrep & Hlast & _ & Hfsm & _)%verifyFsmGameplay_true.
  exists st, final.
  destruct (replayed_filled _ _ _ Hrep) as [Hb Hcount].
  { split; [done|]. repeat constructor. }
  destruct (replayed_state_is_true _ _ _ Hrep) as (HX & HO & HD).
  { split_and!; intros H; discriminate H. }
  rewrite Hfsm. by split_and!.
Qed.

Lemma verifyFsmGameplay_accepted_outcome_witness :
  ∃ st final,
    replayed (getInitialGameState playerX_Id playerO_Id)
      (List.filter is_validated_move scenario_A_log) st ∧
    last scenario_A_log = Some final ∧
    is_3x3 (board st) ∧
    filled_cells (board st) = length (List.filter is_validated_move scenario_A_log) ∧
    (fsmState final = STATES.GAME_OVER_X_WINS → has_three_in_line (board st) "X") ∧
    (fsmState final = STATES.GAME_OVER_O_WINS → has_three_in_line (board st) "O") ∧
    (fsmState final = STATES.GAME_OVER_DRAW → no_empty_cell (board st)).
Proof.
  apply (verifyFsmGameplay_accepted_outcome scenario_A_log playerX_Id playerO_Id
           [logger_info "FSM gameplay successfully verified."]).
  vm_compute. reflexivity.
Defined.

(** *** When the verifier returns at all *)

Lemma verifyFsmGameplay_loop_total st entries :
  is_3x3 (board st) →
  Forall (fun e => is_Some (move (eventData e))) entries →
  ∃ exit, verifyFsmGameplay_loop st entries = Returns exit.
Proof.
  intros Hb Hmoves. revert st Hb.
  induction Hmoves as [|e rest Hmv _ IH]; intros st Hb; simpl; [by eauto|].
  destruct (transition st EVENTS.PLAYER_MOVE_ATTEMPTED (recorded_attempt e))
    as [res|err] eqn:Hres.
  2:{ exfalso.
      assert (Hne : EVENTS.PLAYER_MOVE_ATTEMPTED ≠ "") by done.
      unfold transition in Hres. simpl in Hres.
      destruct Hmv as [mv Hmv]. rewrite Hmv in Hres. simpl in Hres.
      destruct (String.eqb (currentState st) STATES.PLAYER_X_TURN).
      { destruct (player_move_total (currentState st) (board st) (playerX st) "X"
                    STATES.GAME_OVER_X_WINS STATES.PLAYER_O_TURN "Not player X's turn."
                    (playerId (eventData e)) (rowIndex mv) (colIndex mv) Hb) as [? Hr].
        congruence. }
      destruct (String.eqb (currentState st) STATES.PLAYER_O_TURN).
      { destruct (player_move_total (currentState st) (board st) (playerO st) "O"
                    STATES.GAME_OVER_O_WINS STATES.PLAYER_X_TURN "Not player O's turn."
                    (playerId (eventData e)) (rowIndex mv) (colIndex mv) Hb) as [? Hr].
        congruence. }
      by destruct (_ || _). }
  unfold recorded_attempt in Hres. rewrite Hres. simpl.
  destruct (isValidMove res) eqn:Hvalid; simpl; [|by eauto].
  destruct (String.eqb (newState res) (fsmState e)); simpl; [|by eauto].
  destruct (transition_valid_inv _ _ _ _ Hres Hvalid)
    as (mv & _ & _ & _ & _ & _ & _ & Hnb & _).
  rewrite Hnb. simpl.
  destruct (String.eqb _ _); simpl; [|by eauto].
  apply IH. simpl. by apply place_3x3.
Qed.

(** X7. On a log of entries shaped as the page writes them (every field
    present, the indices of a move integers: the entries of [LogEntry]),
    [verifyFsmGameplay] returns a boolean and does not throw as soon as the
    log has an entry and its validated entries all carry a move: the
    replay never leaves the 3x3 board, so with integer indices the state
    machine never reads outside it, wherever the indices point.  (An entry
    that lacks a field, or a move whose indices are missing or are no
    integers, is outside [LogEntry]; on such a log the source can throw a
    TypeError.) *)
Theorem verifyFsmGameplay_returns (gameLog : list LogEntry) (X O : string) :
  gameLog ≠ [] →
  (∀ e, e ∈ gameLog → is_validated_move e = true → is_Some (move (eventData e))) →
  ∃ out, verifyFsmGameplay gameLog X O = Returns out.
Proof.
  intros Hne Hmoves. unfold verifyFsmGameplay.
  destruct (verifyFsmGameplay_loop_total (getInitialGameState X O)
              (List.filter is_validated_move gameLog)) as [exit ->].
  { split; [done|]. repeat constructor. }
  { apply Forall_forall. intros e [He Hv]%list_elem_of_In%List.filter_In.
    apply Hmoves; [by apply list_elem_of_In|done]. }
  simpl. destruct exit as [line|st]; [by eauto|].
  destruct (last gameLog) as [final|] eqn:Hlast.
  2:{ apply last_None in Hlast. done. }
  destruct (String.prefix "GAME_" (eventType final)); simpl; [|by eauto].
  destruct (String.eqb _ _); simpl; eauto.
Qed.

Lemma verifyFsmGameplay_returns_witness :
  ∃ out, verifyFsmGameplay forged_log playerX_Id playerO_Id = Returns out.
Proof.
  apply (verifyFsmGameplay_returns forged_log playerX_Id playerO_Id).
  - vm_compute. discriminate.
  - apply (proj1 (Forall_forall
             (fun e => is_validated_move e = true → is_Some (move (eventData e)))
             forged_log)).
    apply (bool_decide_unpack
             (Forall (fun e => is_validated_move e = true → is_Some (move (eventData e)))
                     forged_log)).
    vm_compute. reflexivity.
Defined.

End accepted_logs.

(** ** What the hash chain detects, and what it does not *)

Section chain_tampering.

Implicit Types (e : LogEntry) (log pre post : list LogEntry) (prev : string).

Lemma linked_app prev pre post :
  linked prev (pre ++ post) ↔ linked prev pre ∧ linked (expected_from prev pre) post.
Proof.
  revert prev. induction pre as [|e pre IH]; intros prev; simpl.
  - unfold expected_from. simpl. naive_solver.
  - rewrite IH, expected_from_cons. naive_solver.
Qed.

Lemma linked_take prev log n : linked prev log → linked prev (take n log).
Proof.
  intros Hl. rewrite <- (take_drop n log) in Hl. by apply linked_app in Hl as [? _].
Qed.

(** X8. Chain verification accepts every prefix of a log it accepts, the
    empty log included: cutting entries off the end of a log is not
    something [verifyHashChain] detects. *)
Theorem verifyHashChain_accepts_prefixes (gameLog : list LogEntry) (n : nat) :
  fst (verifyHashChain gameLog) = true →
  verifyHashChain (take n gameLog) =
  (true, [logger_info "Hash chain successfully verified."]).
Proof.
  unfold verifyHashChain. rewrite verifyHashChain_loop_true. intros Hl.
  by apply linked_verifyHashChain_loop, linked_take.
Qed.

Lemma verifyHashChain_accepts_prefixes_witness :
  verifyHashChain (take 3 scenario_A_log) =
  (true, [logger_info "Hash chain successfully verified."]).
Proof.
  apply (verifyHashChain_accepts_prefixes scenario_A_log 3).
  vm_compute. reflexivity.
Defined.

(** The hashes an intact log makes its entries name: the zero hash, then
    the stored hash of each entry. *)
Definition named_hashes (log : list LogEntry) : list string :=
  zeroHash :: (currentEntryChainHash <$> log).

Lemma named_hashes_expected log k :
  k ≤ length log →
  named_hashes log !! k = Some (expected_from zeroHash (take k log)).
Proof.
  intros Hk. destruct k as [|k]; [done|].
  destruct (lookup_lt_is_Some_2 log k) as [e He]; [lia|].
  rewrite (take_S_r _ _ _ He), expected_from_snoc. unfold named_hashes. simpl.
  by rewrite list_lookup_fmap, He.
Qed.

Lemma linked_names log i e :
  linked zeroHash log → log !! i = Some e →
  named_hashes log !! i = Some (previousEntryChainHash e).
Proof.
  intros Hl He. rewrite <- (take_drop_middle _ _ _ He) in Hl.
  apply linked_app in Hl as [_ Hl]. simpl in Hl. destruct Hl as (-> & _).
  apply named_hashes_expected. apply lookup_lt_Some in He. lia.
Qed.

Lemma linked_only_prefix log : linked zeroHash log → NoDup (named_hashes log) →
  ∀ log' k,
    k ≤ length log →
    linked (expected_from zeroHash (take k log)) log' →
    (∀ e, e ∈ log' → e ∈ log) →
    log' `prefix_of` drop k log.
Proof.
  intros Hl Hnd. induction log' as [|e rest IH]; intros k Hk Hl' Hsub.
  - apply prefix_nil.
  - simpl in Hl'. destruct Hl' as (Hprev & Hcur & Hrest).
    destruct (list_elem_of_lookup_1 log e) as [j Hj]; [apply Hsub; by left|].
    pose proof (linked_names log j e Hl Hj) as Hnj.
    pose proof (named_hashes_expected log k Hk) as Hnk. rewrite <- Hprev in Hnk.
    assert (j = k) as -> by (by eapply NoDup_lookup).
    rewrite (drop_S _ _ _ Hj). apply prefix_cons.
    apply IH.
    + apply lookup_lt_Some in Hj. lia.
    + by rewrite (take_S_r _ _ _ Hj), expected_from_snoc.
    + intros e' He'. apply Hsub. by right.
Qed.

(** X9. Reordering, dropping or repeating entries is detected.  For a log
    the chain verification accepts and whose stored hashes are pairwise
    distinct and not the zero hash: a log made of entries of that log is
    accepted only when it is a prefix of it.  (With X8: exactly the
    prefixes.) *)
Theorem verifyHashChain_only_prefixes (gameLog gameLog' : list LogEntry) :
  fst (verifyHashChain gameLog) = true →
  NoDup (zeroHash :: map currentEntryChainHash gameLog) →
  (∀ e, e ∈ gameLog' → e ∈ gameLog) →
  fst (verifyHashChain gameLog') = true →
  gameLog' `prefix_of` gameLog.
Proof.
  unfold verifyHashChain. rewrite !verifyHashChain_loop_true.
  intros Hl Hnd Hsub Hl'.
  apply (linked_only_prefix gameLog Hl Hnd gameLog' 0); [lia|done|done].
Qed.

Lemma verifyHashChain_only_prefixes_witness :
  take 3 scenario_A_log `prefix_of` scenario_A_log.
Proof.
  apply (verifyHashChain_only_prefixes scenario_A_log (take 3 scenario_A_log)).
  - vm_compute. reflexivity.
  - apply (bool_decide_unpack (NoDup (zeroHash :: map currentEntryChainHash scenario_A_log))).
    vm_compute. reflexivity.
  - exact (subseteq_take 3 scenario_A_log).
  - vm_compute. reflexivity.
Defined.

(** Swapping two entries of scenario A is refused. *)
Example scenario_A_swapped :
  fst (verifyHashChain
         (take 3 scenario_A_log ++ entry_at scenario_A_log 4 ::
          entry_at scenario_A_log 3 :: drop 5 scenario_A_log)) = false.
Proof. vm_compute. reflexivity. Qed.

(** X10. Forging one of the two hash fields of an entry of an accepted log
    is detected at that entry, whatever is done to the entries after it:
    with a forged stored hash the entry no longer carries the hash of its
    content (the stored hash is not part of the hashed content), with a
    forged previous hash it no longer names its predecessor. *)
Theorem verifyHashChain_detects_forged_hash (gameLog post : list LogEntry) (i : nat)
    (e : LogEntry) (h : string) :
  fst (verifyHashChain gameLog) = true →
  gameLog !! i = Some e →
  (h ≠ currentEntryChainHash e →
   verifyHashChain (take i gameLog ++ set_currentEntryChainHash e h :: post) =
   (false, [logger_error "Entry hash mismatch! Data may be tampered."
              [("sequence", JNum (sequence e));
               ("calculated", JStr (currentEntryChainHash e));
               ("stored", JStr h)]])) ∧
  (h ≠ previousEntryChainHash e →
   verifyHashChain (take i gameLog ++ with_previous e h :: post) =
   (false, [logger_error "Hash chain broken!"
              [("sequence", JNum (sequence e));
               ("expected", JStr (previousEntryChainHash e));
               ("found", JStr h)]])).
Proof.
  unfold verifyHashChain. rewrite verifyHashChain_loop_true. intros Hl He.
  rewrite <- (take_drop_middle _ _ _ He) in Hl.
  apply linked_app in Hl as [Hpre Hl]. simpl in Hl. destruct Hl as (Hprev & Hcur & _).
  split; intros Hh; rewrite (verifyHashChain_loop_app _ _ _ Hpre); simpl.
  - rewrite Hprev, String.eqb_refl. simpl.
    change (calculateEntryHash (set_currentEntryChainHash e h)) with (entryHash e).
    rewrite <- Hcur.
    destruct (String.eqb_spec (currentEntryChainHash e) h); [congruence|done].
  - rewrite <- Hprev.
    destruct (String.eqb_spec h (previousEntryChainHash e)); [congruence|done].
Qed.

Lemma verifyHashChain_detects_forged_hash_witness :
  (forged_hash ≠ currentEntryChainHash (entry_at scenario_A_log 3) →
   verifyHashChain scenario_D_log =
   (false, [logger_error "Entry hash mismatch! Data may be tampered."
              [("sequence", JNum (sequence (entry_at scenario_A_log 3)));
               ("calculated", JStr (currentEntryChainHash (entry_at scenario_A_log 3)));
               ("stored", JStr forged_hash)]])) ∧
  (forged_hash ≠ previousEntryChainHash (entry_at scenario_A_log 3) →
   verifyHashChain (take 3 scenario_A_log ++
                    with_previous (entry_at scenario_A_log 3) forged_hash ::
                    with_previous (entry_at scenario_A_log 4) forged_hash ::
                    drop 5 scenario_A_log) =
   (false, [logger_error "Hash chain broken!"
              [("sequence", JNum (sequence (entry_at scenario_A_log 3)));
               ("expected", JStr (previousEntryChainHash (entry_at scenario_A_log 3)));
               ("found", JStr forged_hash)]])).
Proof.
  apply (verifyHashChain_detects_forged_hash scenario_A_log
           (with_previous (entry_at scenario_A_log 4) forged_hash :: drop 5 scenario_A_log)
           3 (entry_at scenario_A_log 3) forged_hash).
  - vm_compute. reflexivity.
  - vm_compute. reflexivity.
Defined.

End chain_tampering.

(** ** The log the page writes *)

Section authored_logs.

Implicit Types (s : Session) (e : LogEntry) (st : GameState).

Definition with_state (s : Session) (st : GameState) : Session :=
  {| currentGameState := st; gameLog := gameLog s;
     latestEntryChainHash := latestEntryChainHash s;
     sequenceNumber := sequenceNumber s |}.




(** The entries a click writes. *)
Definition rejected_data (st : GameState) (click : Click) : EventData :=
  {| move := None; playerId := Some (turn_player st);
     otherProps :=
       [("attemptedMove",
         Move_json {| rowIndex := clickRow click; colIndex := clickCol click |});
        ("reason", JStr occupied_text)] |}.

Definition validated_data (st : GameState) (click : Click) : EventData :=
  {| move := Some {| rowIndex := clickRow click; colIndex := clickCol click |};
     playerId := Some (turn_player st);
     otherProps := [("symbolPlaced", JStr (turn_symbol st))] |}.

Definition click_is_legal (st : GameState) (click : Click) : Prop :=
  (0 ≤ clickRow click ≤ 2)%Z ∧ (0 ≤ clickCol click ≤ 2)%Z ∧
  cell_at (board st) (clickRow click) (clickCol click) = Some "".

(** What a click does to the session, case by case: nothing when the game
    is over; a PLAYER_MOVE_REJECTED entry, the state left as it is, when the
    cell is taken or outside the board; otherwise the symbol is placed, the
    state moves on and a PLAYER_MOVE_VALIDATED entry is written; [render]
    follows. *)
Lemma handleCellClick_step s click :
  authored s →
  let st := currentGameState s in
  is_game_over (currentState st) ∧ handleCellClick s click = Returns s ∨
  is_turn (currentState st) ∧ ¬ click_is_legal st click ∧
    handleCellClick s click =
    Returns (render (addLogEntry s (clickTime click) "PLAYER_MOVE_REJECTED"
                       (rejected_data st click)) (gameOverTime click)) ∨
  is_turn (currentState st) ∧ click_is_legal st click ∧
    ∃ state,
      (state = win_state st ∨ state = STATES.GAME_OVER_DRAW ∨ state = other_turn st) ∧
      handleCellClick s click =
      Returns (render (addLogEntry
                         (with_state s
                            {| currentState := state;
                               board := place (board st) (clickRow click) (clickCol click)
                                          (turn_symbol st);
                               playerX := playerX st; playerO := playerO st |})
                         (clickTime click) "PLAYER_MOVE_VALIDATED"
                         (validated_data st click)) (gameOverTime click)).
Proof.
  intros [Hcore Hlast]. simpl. unfold handleCellClick.
  pose proof (is_game_over_prefix _ (authored_state _ Hcore)) as Hover.
  destruct (String.prefix "GAME_OVER" (currentState (currentGameState s))) eqn:Hp.
  { left. split; [by apply Hover|done]. }
  right.
  assert (Hturn : is_turn (currentState (currentGameState s))).
  { destruct (authored_state _ Hcore) as [|Hgo]; [done|]. apply Hover in Hgo. congruence. }
  destruct (replayed_players _ _ _ (authored_replay _ Hcore)) as [HX HO]. simpl in HX, HO.
  set (mv := {| rowIndex := clickRow click; colIndex := clickCol click |}).
  assert (Hpid : (if String.eqb (currentState (currentGameState s)) STATES.PLAYER_X_TURN
                  then playerX_Id else playerO_Id) = turn_player (currentGameState s)).
  { unfold turn_player, x_to_move. by rewrite HX, HO. }
  assert (Hsym : (if String.eqb (currentState (currentGameState s)) STATES.PLAYER_X_TURN
                  then "X" else "O") = turn_symbol (currentGameState s)) by done.
  rewrite Hpid, Hsym.
  set (attempt := {| move := Some mv; playerId := Some (turn_player (currentGameState s));
                     otherProps := [] |}).
  pose proof (transition_turn (currentGameState s) attempt mv Hturn eq_refl) as Htr.
  destruct (player_move_total (currentState (currentGameState s)) (board (currentGameState s))
              (turn_player (currentGameState s)) (turn_symbol (currentGameState s))
              (win_state (currentGameState s)) (other_turn (currentGameState s))
              (wrong_turn_text (currentGameState s)) (playerId attempt)
              (rowIndex mv) (colIndex mv) (authored_board _ Hcore)) as [res Hres].
  rewrite Hres in Htr. rewrite Htr. simpl bindC.
  apply player_move_outcome in Hres.
  destruct Hres as [Hne|_ Hnot|state _ Hr Hc Hcell Hstate].
  - by simpl in Hne.
  - left. split; [done|]. split; [done|]. simpl. rewrite GameState_eta.
    by destruct s.
  - right. split; [done|]. split; [done|]. exists state. split; [|done].
    destruct Hstate as [[-> _]|[[-> _]|[-> _]]]; auto.
Qed.

(** A game never throws, and along it the session stays [authored]; so a
    property of sessions that the start has and every click keeps holds of
    every game. *)
Lemma play_invariant (P : Session → Prop) :
  (∀ now, P (startGame now)) →
  (∀ s click s', authored s → P s → handleCellClick s click = Returns s' → P s') →
  ∀ startTime clicks,
    ∃ s, play startTime clicks = Returns s ∧ authored s ∧ P s.
Proof.
  intros Hstart Hstep startTime clicks. unfold play.
  assert (Hgen : ∀ s, authored s → P s →
                      ∃ s', clicks_from s clicks = Returns s' ∧ authored s' ∧ P s').
  { induction clicks as [|click rest IH]; intros s Hs HP; simpl; [by eauto|].
    destruct (handleCellClick_authored s click Hs) as (s1 & Hs1 & Ha1).
    rewrite Hs1. simpl. apply IH; [done|]. exact (Hstep s click s1 Hs HP Hs1). }
  apply Hgen; [apply startGame_authored|apply Hstart].
Qed.

(** The entry [addLogEntry] appends. *)
Definition new_entry (s : Session) (now : Z) (type : string) (data : EventData) : LogEntry :=
  default blank_entry (last (gameLog (addLogEntry s now type data))).

Lemma addLogEntry_log s now type data :
  gameLog (addLogEntry s now type data) = gameLog s ++ [new_entry s now type data].
Proof. unfold new_entry, addLogEntry. simpl. by rewrite last_snoc. Qed.

Lemma new_entry_fields s now type data :
  sequence (new_entry s now type data) = sequenceNumber s ∧
  eventType (new_entry s now type data) = type ∧
  clientTimestamp (new_entry s now type data) = now ∧
  eventData (new_entry s now type data) = data ∧
  boardState (new_entry s now type data) = Board_json (board (currentGameState s)) ∧
  fsmState (new_entry s now type data) = currentState (currentGameState s) ∧
  previousEntryChainHash (new_entry s now type data) = latestEntryChainHash s.
Proof. unfold new_entry, addLogEntry. simpl. by rewrite last_snoc. Qed.

(** *** Sequence numbers *)

Definition numbered (s : Session) : Prop :=
  sequenceNumber s = Z.of_nat (length (gameLog s)) ∧
  ∀ i e, gameLog s !! i = Some e → sequence e = Z.of_nat i.

Lemma addLogEntry_numbered s now type data :
  numbered s → numbered (addLogEntry s now type data).
Proof.
  intros [Hn Hseq]. split.
  - rewrite addLogEntry_log, length_app. simpl. unfold addLogEntry. simpl. lia.
  - intros i e. rewrite addLogEntry_log. intros [He|[Hi He]]%lookup_app_Some.
    + by apply Hseq.
    + apply list_lookup_singleton_Some in He as [Hi0 <-].
      destruct (new_entry_fields s now type data) as (-> & _). lia.
Qed.

Lemma render_numbered s now : numbered s → numbered (render s now).
Proof.
  intros Hs. unfold render. destruct (last (gameLog s)); [|done].
  destruct (_ && _); [|done]. by apply addLogEntry_numbered.
Qed.

(** Sequence numbers, in a game without overlap: the entry at position i
    carries the sequence number i, and the next number to give out is the
    length of the log. *)
Lemma play_sequence_numbers (startTime : Z) (clicks : list Click) :
  ∃ s,
    play startTime clicks = Returns s ∧
    sequenceNumber s = Z.of_nat (length (gameLog s)) ∧
    ∀ i e, gameLog s !! i = Some e → sequence e = Z.of_nat i.
Proof.
  destruct (play_invariant numbered) with (startTime := startTime) (clicks := clicks)
    as (s & Hplay & _ & Hn & Hseq).
  - intros now. unfold startGame. apply addLogEntry_numbered. split; [done|]. by intros [].
  - intros s click s' Hs Hnum Hclick.
    assert (Hw : ∀ st, numbered (with_state s st)) by (intros st; exact Hnum).
    destruct (handleCellClick_step s click Hs) as [[_ H]|[(_ & _ & H)|(_ & _ & st & _ & H)]];
      rewrite H in Hclick; injection Hclick as <-; try done;
      by apply render_numbered, addLogEntry_numbered.
  - by exists s.
Qed.

(** *** Moves on the board *)


(** *** The game-over entry *)








(** *** Entries that are no moves *)





End authored_logs.

(** ** The log of the page when no two handlers overlap *)

(** The page is [run]: handlers cut at their awaits, events in any order.
    The theorems of this section are about the runs in which every click
    (on a cell or on the restart button) arrives when no handler is
    waiting for a hash, [serial]; they say nothing of the other runs, where
    these properties fail ([overlapping_clicks]). *)
Section serial_runs.

Implicit Types (s : Session) (p : Page) (events : list PageEvent).

(** What holds of every game without overlap holds of every run without
    overlap, whenever no handler is waiting. *)
Lemma serial_run_invariant (P : Session → Prop) events :
  (∀ startTime clicks, ∃ s, play startTime clicks = Returns s ∧ P s) →
  serial events = true →
  ∃ p, run events = Returns p ∧ ∀ s, settled p = Some s → P s.
Proof.
  intros HP Hserial. destruct (serial_run_played events Hserial) as (p & Hrun & Hplayed).
  exists p. split; [done|]. intros s Hs.
  destruct (Hplayed s Hs) as (startTime & clicks & Hplay).
  destruct (HP startTime clicks) as (s' & Hplay' & Hs').
  rewrite Hplay in Hplay'. by injection Hplay' as <-.
Qed.

(** X11. Sequence numbers.  A run of the page in which no two handlers
    overlap never throws, and whenever no handler is waiting, the entry
    at position i of the log carries the sequence number i, and the next
    number to give out is the length of the log. *)
Theorem serial_sequence_numbers events :
  serial events = true →
  ∃ p, run events = Returns p ∧
    ∀ s, settled p = Some s →
      sequenceNumber s = Z.of_nat (length (gameLog s)) ∧
      ∀ i e, gameLog s !! i = Some e → sequence e = Z.of_nat i.
Proof. apply serial_run_invariant, play_sequence_numbers. Qed.




End serial_runs.

(** A run without overlap that has a rejected click in it: X (0,0); O
    clicks the taken (0,0); O (1,1); X (0,1); O (2,2); X (0,2). *)
Definition serial_clicks_A : list PageEvent :=
  [ Restarted 1700000000000; Hashed 0 1700000000001;
    Clicked 0 0 1700000001000; Hashed 0 1700000001001;
    Clicked 0 0 1700000002000; Hashed 0 1700000002001;
    Clicked 1 1 1700000003000; Hashed 0 1700000003001;
    Clicked 0 1 1700000004000; Hashed 0 1700000004001;
    Clicked 2 2 1700000005000; Hashed 0 1700000005001;
    Clicked 0 2 1700000006000; Hashed 0 1700000006002;
    Hashed 0 1700000006003 ].

Example serial_clicks_A_log :
  serial serial_clicks_A = true ∧
  default [] (gameLog <$> settled_session (run serial_clicks_A)) = scenario_A_log.
Proof. split; vm_compute; reflexivity. Qed.

Lemma serial_sequence_numbers_witness :
  ∃ p, run serial_clicks_A = Returns p ∧
    ∀ s, settled p = Some s →
      sequenceNumber s = Z.of_nat (length (gameLog s)) ∧
      ∀ i e, gameLog s !! i = Some e → sequence e = Z.of_nat i.
Proof. apply (serial_sequence_numbers serial_clicks_A). vm_compute. reflexivity. Defined.




(** With overlap none of this holds: in the log of [overlapping_clicks] two
    entries carry the sequence number 1 and none the number 2. *)
Example overlapping_sequence_numbers :
  map sequence overlapping_log = [0; 1; 1; 3; 4; 5; 6]%Z.
Proof. vm_compute. reflexivity. Qed.

(** ** The submission endpoint (server/index.js, [/api/submit-log]) *)

(** The request body, the session document and the response.  A field of
    the body that is missing is [None]; the handler's test [!field] also
    refuses the empty string. *)
Record SubmitBody := {
  body_gameId : option string;
  body_encryptedLog : option string;
  body_encryptedKey : option string;
  body_iv : option string
}.

Record GameDoc := {
  privateKeyPem : option string;
  doc_playerX_Id : string;
  doc_playerO_Id : string
}.

Record Response := {
  status : Z;
  json_body : json
}.

Definition falsy (field : option string) : bool :=
  match field with
  | None => true
  | Some s => String.eqb s ""
  end.

Definition field_value (field : option string) : string := default "" field.

Module Responses.
Definition missing_fields : Response :=
  {| status := 400;
     json_body := JObj [("error", JStr "Request body must contain all required fields.")] |}.
Definition not_found : Response :=
  {| status := 404; json_body := JObj [("error", JStr "Game session not found.")] |}.
Definition key_not_found : Response :=
  {| status := 500; json_body := JObj [("error", JStr "Key not found.")] |}.
Definition chain_mismatch : Response :=
  {| status := 400;
     json_body := JObj [("status", JStr "verification_failed");
                        ("reason", JStr "Hash chain mismatch.")] |}.
Definition fsm_mismatch : Response :=
  {| status := 400;
     json_body := JObj [("status", JStr "verification_failed");
                        ("reason", JStr "FSM gameplay mismatch.")] |}.
Definition verified : Response :=
  {| status := 200;
     json_body := JObj [("status", JStr "verified");
                        ("message",
                         JStr "Log successfully decrypted and all integrity checks passed.")] |}.
Definition processing_error : Response :=
  {| status := 500;
     json_body := JObj [("error", JStr "An error occurred during log processing.")] |}.
End Responses.

Section submit_log.

(** What the handler is given from outside the repository: the lookup of
    the session document ([None] when it does not exist), and steps 2 and
    3, which take the private key, the encrypted key, the encrypted log and
    the IV to the parsed log; either may throw. *)
Variable getGame : string → completion (option GameDoc).
Variable decryptLog : string → string → string → string → completion (list LogEntry).

(** The [try] block of the handler (server/index.js:210-244). *)
Definition submit_log_try (gameId encryptedLog encryptedKey iv : string)
  : completion Response :=
  (* Step 1: retrieve the private key *)
  gameDoc ←! getGame gameId;
  match gameDoc with
  | None => Returns Responses.not_found
  | Some doc =>
      if falsy (privateKeyPem doc) then Returns Responses.key_not_found
      else
        (* Steps 2 and 3: decrypt the log *)
        gameLog ←! decryptLog (field_value (privateKeyPem doc)) encryptedKey encryptedLog iv;
        (* Step 4: verify the hash chain *)
        let isChainValid := fst (verifyHashChain gameLog) in
        if negb isChainValid then Returns Responses.chain_mismatch
        else
          (* Step 5: verify the gameplay *)
          outcome ←! verifyFsmGameplay gameLog (doc_playerX_Id doc) (doc_playerO_Id doc);
          let isFsmValid := fst outcome in
          if negb isFsmValid then Returns Responses.fsm_mismatch
          else Returns Responses.verified
  end.

(** The handler of [/api/submit-log] (server/index.js:202-249). *)
Definition submit_log (body : SubmitBody) : Response :=
  if falsy (body_gameId body) || falsy (body_encryptedLog body) ||
     falsy (body_encryptedKey body) || falsy (body_iv body)
  then Responses.missing_fields
  else
    match submit_log_try (field_value (body_gameId body))
            (field_value (body_encryptedLog body))
            (field_value (body_encryptedKey body)) (field_value (body_iv body)) with
    | Returns response => response
    | Throws _ => Responses.processing_error
    end.

Lemma submit_log_accepts gameId encryptedLog encryptedKey iv doc key gameLog lines :
  gameId ≠ "" → encryptedLog ≠ "" → encryptedKey ≠ "" → iv ≠ "" →
  getGame gameId = Returns (Some doc) →
  privateKeyPem doc = Some key → key ≠ "" →
  decryptLog key encryptedKey encryptedLog iv = Returns gameLog →
  fst (verifyHashChain gameLog) = true →
  verifyFsmGameplay gameLog (doc_playerX_Id doc) (doc_playerO_Id doc) = Returns (true, lines) →
  submit_log {| body_gameId := Some gameId; body_encryptedLog := Some encryptedLog;
                body_encryptedKey := Some encryptedKey; body_iv := Some iv |} =
  Responses.verified.
Proof.
  intros Hg Hl Hk Hv Hdoc Hkey Hkey' Hlog Hchain Hfsm.
  unfold submit_log, submit_log_try. simpl.
  apply String.eqb_neq in Hg, Hl, Hk, Hv, Hkey'. rewrite Hg, Hl, Hk, Hv. simpl.
  rewrite Hdoc. simpl. rewrite Hkey. simpl. rewrite Hkey'. simpl.
  rewrite Hlog. simpl. rewrite Hchain. simpl. by rewrite Hfsm.
Qed.

(** X15. The endpoint answers "verified" in one case only: the four fields
    of the body are present and not empty, the session exists and has a
    key, decryption gives a log, [verifyHashChain] accepts that log and
    [verifyFsmGameplay], for the session's two players, returns true
    (returning false or throwing both lose the 200). *)
Theorem submit_log_verified_iff (body : SubmitBody) :
  submit_log body = Responses.verified ↔
  ∃ gameId encryptedLog encryptedKey iv doc key gameLog lines,
    body = {| body_gameId := Some gameId; body_encryptedLog := Some encryptedLog;
              body_encryptedKey := Some encryptedKey; body_iv := Some iv |} ∧
    gameId ≠ "" ∧ encryptedLog ≠ "" ∧ encryptedKey ≠ "" ∧ iv ≠ "" ∧
    getGame gameId = Returns (Some doc) ∧
    privateKeyPem doc = Some key ∧ key ≠ "" ∧
    decryptLog key encryptedKey encryptedLog iv = Returns gameLog ∧
    fst (verifyHashChain gameLog) = true ∧
    verifyFsmGameplay gameLog (doc_playerX_Id doc) (doc_playerO_Id doc) =
      Returns (true, lines).
Proof.
  unfold submit_log, submit_log_try. split.
  - destruct body as [[g|] [l|] [k|] [v|]]; simpl; try done;
      try (by destruct (String.eqb _ _); try destruct (String.eqb _ _);
              try destruct (String.eqb _ _)).
    destruct (String.eqb_spec g ""); [done|].
    destruct (String.eqb_spec l ""); [done|].
    destruct (String.eqb_spec k ""); [done|].
    destruct (String.eqb_spec v ""); [done|]. simpl.
    destruct (getGame g) as [[doc|]|] eqn:Hdoc; simpl; try done.
    destruct (privateKeyPem doc) as [key|] eqn:Hkey; simpl; [|done].
    destruct (String.eqb_spec key ""); [done|]. simpl.
    destruct (decryptLog key k l v) as [gameLog|] eqn:Hlog; simpl; [|done].
    destruct (fst (verifyHashChain gameLog)) eqn:Hchain; simpl; [|done].
    destruct (verifyFsmGameplay gameLog _ _) as [[[] lines]|] eqn:Hfsm; simpl; try done.
    intros _. exists g, l, k, v, doc, key, gameLog, lines. by split_and!.
  - intros (g & l & k & v & doc & key & gameLog & lines & -> & Hg & Hl & Hk & Hv &
            Hdoc & Hkey & Hkey' & Hlog & Hchain & Hfsm).
    by eapply submit_log_accepts.
Qed.

(** X16. An empty log is a processing error, not a verification failure:
    [verifyHashChain] accepts the empty log, [verifyFsmGameplay] then
    throws on it, and the handler's [catch] answers 500. *)
Theorem submit_log_empty_log (body : SubmitBody) gameId doc key :
  falsy (body_gameId body) || falsy (body_encryptedLog body) ||
  falsy (body_encryptedKey body) || falsy (body_iv body) = false →
  body_gameId body = Some gameId →
  getGame gameId = Returns (Some doc) →
  privateKeyPem doc = Some key → key ≠ "" →
  decryptLog key (field_value (body_encryptedKey body))
    (field_value (body_encryptedLog body)) (field_value (body_iv body)) = Returns [] →
  submit_log body = Responses.processing_error.
Proof.
  intros Hfields Hg Hdoc Hkey Hkey' Hlog. unfold submit_log, submit_log_try.
  rewrite Hfields, Hg. simpl. rewrite Hdoc. simpl. rewrite Hkey. simpl.
  apply String.eqb_neq in Hkey'. rewrite Hkey'. simpl. by rewrite Hlog.
Qed.

(** The answers of the endpoint. *)
Lemma submit_log_responses (body : SubmitBody) :
  In (submit_log body)
    [Responses.missing_fields; Responses.not_found; Responses.key_not_found;
     Responses.chain_mismatch; Responses.fsm_mismatch; Responses.verified;
     Responses.processing_error].
Proof.
  unfold submit_log, submit_log_try.
  destruct (_ || _); [simpl; auto 10|].
  destruct (getGame _) as [[doc|]|]; simpl; [|auto 10..].
  destruct (falsy _); simpl; [auto 10|].
  destruct (decryptLog _ _ _ _) as [gameLog|]; simpl; [|auto 10].
  destruct (negb _); simpl; [auto 10|].
  destruct (verifyFsmGameplay _ _ _) as [[[] ?]|]; simpl; auto 10.
Qed.

(** What [/api/create-game] stores for a session (server/index.js:184-190):
    the private key and the two player ids. *)
Definition created_doc (privateKey : string) : GameDoc :=
  {| privateKeyPem := Some privateKey; doc_playerX_Id := "DOGE"; doc_playerO_Id := "PEPE" |}.

Lemma authored_verifies s :
  authored s → is_game_over (currentState (currentGameState s)) →
  verifyHashChain (gameLog s) = chain_verified ∧
  verifyFsmGameplay (gameLog s) playerX_Id playerO_Id = gameplay_verified.
Proof.
  intros [[Hl Hlatest Hrep Hb Hst Hfirst] (e & Hlast & Hfsm & Htype)] Hover.
  specialize (Htype Hover). split.
  - by apply linked_verifyHashChain_loop.
  - apply verifyFsmGameplay_true. exists (currentGameState s), e.
    split_and!; try done. by destruct Htype as [-> | ->].
Qed.

(** X17. End to end, without overlap.  When the submitted log decrypts
    to the log of a run of the page in which no two handlers overlap, with
    the game over and no handler waiting, for a session as
    [/api/create-game] stores it, the endpoint answers "verified": the ids
    the page plays with are the ids the server stored, and both
    verifications pass.  (The log of a run with overlap is refused:
    [submit_log_overlapping_clicks].) *)
Theorem submit_log_serial_game gameId encryptedLog encryptedKey iv key
    (events : list PageEvent) (s : Session) :
  gameId ≠ "" → encryptedLog ≠ "" → encryptedKey ≠ "" → iv ≠ "" → key ≠ "" →
  getGame gameId = Returns (Some (created_doc key)) →
  serial events = true →
  settled_session (run events) = Some s →
  is_game_over (currentState (currentGameState s)) →
  decryptLog key encryptedKey encryptedLog iv = Returns (gameLog s) →
  submit_log {| body_gameId := Some gameId; body_encryptedLog := Some encryptedLog;
                body_encryptedKey := Some encryptedKey; body_iv := Some iv |} =
  Responses.verified.
Proof.
  intros Hg Hl Hk Hv Hkey Hdoc Hserial Hs Hover Hlog.
  destruct (serial_run_played events Hserial) as (p & Hrun & Hplayed).
  rewrite Hrun in Hs. simpl in Hs.
  destruct (authored_verifies s (played_authored s (Hplayed s Hs)) Hover) as [Hchain Hfsm].
  eapply (submit_log_accepts gameId encryptedLog encryptedKey iv (created_doc key) key
            (gameLog s)); [done..| |exact Hfsm].
  by rewrite Hchain.
Qed.

End submit_log.

(** The endpoint on concrete sessions: the session is found with the key
    "pem", and decryption gives a fixed log. *)
Definition sample_getGame (gameId : string) : completion (option GameDoc) :=
  Returns (Some (created_doc "pem")).

Definition sample_decrypt (log : list LogEntry)
    (key encryptedKey encryptedLog iv : string) : completion (list LogEntry) :=
  Returns log.

Definition sample_body : SubmitBody :=
  {| body_gameId := Some "game-1"; body_encryptedLog := Some "bG9n";
     body_encryptedKey := Some "a2V5"; body_iv := Some "aXY=" |}.

Lemma submit_log_empty_log_witness :
  submit_log sample_getGame (sample_decrypt []) sample_body = Responses.processing_error.
Proof.
  apply (submit_log_empty_log sample_getGame (sample_decrypt []) sample_body
           "game-1" (created_doc "pem") "pem"); try reflexivity.
  discriminate.
Defined.

Lemma submit_log_serial_game_witness :
  submit_log sample_getGame (sample_decrypt serial_log) sample_body = Responses.verified.
Proof.
  assert (Hstate : (currentState ∘ currentGameState) <$> settled_session (run serial_clicks) =
                   Some STATES.GAME_OVER_X_WINS) by (vm_compute; reflexivity).
  unfold serial_log.
  destruct (settled_session (run serial_clicks)) as [s|] eqn:Hs; [|discriminate Hstate].
  injection Hstate as Hstate.
  assert (Hserial : serial serial_clicks = true) by (vm_compute; reflexivity).
  refine (submit_log_serial_game sample_getGame (sample_decrypt (gameLog s))
            "game-1" "bG9n" "a2V5" "aXY=" "pem" serial_clicks s
            _ _ _ _ _ eq_refl Hserial Hs (or_introl Hstate) eq_refl); discriminate.
Defined.

(** The log of the game with two overlapping clicks is refused. *)
Example submit_log_overlapping_clicks :
  submit_log sample_getGame (sample_decrypt overlapping_log) sample_body =
  Responses.chain_mismatch.
Proof. vm_compute. reflexivity. Qed.

(** The log of a game that was created and not played is answered
    "verified" as well. *)
Example submit_log_created_log :
  submit_log sample_getGame (sample_decrypt created_log) sample_body = Responses.verified.
Proof. vm_compute. reflexivity. Qed.

(** ** The canonical string determines the value *)

From Stdlib Require DecimalZ DecimalPos.

Section canonical_injective.

Local Open Scope char_scope.
#[local] Arguments String.append : simpl nomatch.

Lemma append_assoc (a b c : string) : (a +:+ b) +:+ c = a +:+ (b +:+ c).
Proof. induction a as [|x a IH]; simpl; [done|]. by rewrite IH. Qed.

(** What may follow a serialized value inside a canonical string: nothing,
    or one of the three closing and separating characters. *)
Definition delimited (rest : string) : Prop :=
  match rest with
  | EmptyString => True
  | String c _ => c = "," ∨ c = "]" ∨ c = "}"
  end.

(** *** Numbers *)

Lemma string_of_uint_inj (d : Decimal.uint) : ∀ (d' : Decimal.uint) (r r' : string),
  NilEmpty.string_of_uint d +:+ r = NilEmpty.string_of_uint d' +:+ r' →
  delimited r → delimited r' → d = d' ∧ r = r'.
Proof.
  induction d as [|d IH|d IH|d IH|d IH|d IH|d IH|d IH|d IH|d IH|d IH];
    intros [|d'|d'|d'|d'|d'|d'|d'|d'|d'|d'] r r'; simpl; intros Heq Hr Hr';
    try discriminate Heq;
    try (injection Heq as Heq; destruct (IH _ _ _ Heq Hr Hr') as [-> ->]; done);
    try done;
    subst; simpl in *; destruct Hr as [?|[?|?]] || destruct Hr' as [?|[?|?]]; discriminate.
Qed.

Lemma to_int_not_nil (n : Z) :
  ∃ d, d ≠ Decimal.Nil ∧ (Z.to_int n = Decimal.Pos d ∨ Z.to_int n = Decimal.Neg d).
Proof.
  destruct n as [|p|p]; simpl.
  - exists (Decimal.D0 Decimal.Nil). by split; [|left].
  - exists (Pos.to_uint p). split; [apply DecimalPos.Unsigned.to_uint_nonnil|by left].
  - exists (Pos.to_uint p). split; [apply DecimalPos.Unsigned.to_uint_nonnil|by right].
Qed.

Lemma string_of_uint_not_nil d :
  d ≠ Decimal.Nil → NilZero.string_of_uint d = NilEmpty.string_of_uint d.
Proof. by destruct d. Qed.

(** A number starts with a minus sign or a digit. *)
Definition number_start (c : ascii) : Prop :=
  c = "-" ∨ c = "0" ∨ c = "1" ∨ c = "2" ∨ c = "3" ∨ c = "4" ∨ c = "5" ∨ c = "6" ∨
  c = "7" ∨ c = "8" ∨ c = "9".

Lemma JSON_stringify_number_start n :
  ∃ c s, JSON_stringify_number n = String c s ∧ number_start c.
Proof.
  unfold JSON_stringify_number, number_start.
  destruct (to_int_not_nil n) as (d & Hd & [-> | ->]); simpl.
  - rewrite string_of_uint_not_nil by done.
    destruct d; [done|..]; simpl; eexists _, _; (split; [reflexivity|]); tauto.
  - eexists _, _. split; [reflexivity|]. by left.
Qed.

Lemma JSON_stringify_number_inj n m r r' :
  JSON_stringify_number n +:+ r = JSON_stringify_number m +:+ r' →
  delimited r → delimited r' → n = m ∧ r = r'.
Proof.
  unfold JSON_stringify_number. intros Heq Hr Hr'.
  destruct (to_int_not_nil n) as (d & Hd & Hn), (to_int_not_nil m) as (d' & Hd' & Hm).
  assert (Z.to_int n = Z.to_int m ∧ r = r') as [Hnm ->]; [|split; [by apply DecimalZ.to_int_inj|done]].
  destruct Hn as [Hn|Hn], Hm as [Hm|Hm]; rewrite Hn, Hm in *; simpl in Heq;
    rewrite ?string_of_uint_not_nil in Heq by done.
  - by destruct (string_of_uint_inj _ _ _ _ Heq Hr Hr') as [-> ->].
  - destruct d; [done|..]; discriminate Heq.
  - destruct d'; [done|..]; discriminate Heq.
  - injection Heq as Heq. by destruct (string_of_uint_inj _ _ _ _ Heq Hr Hr') as [-> ->].
Qed.

(** *** Strings *)

Definition hex_value (c : ascii) : option N :=
  (fix find (digits : string) (n : N) : option N :=
     match digits with
     | EmptyString => None
     | String d digits' => if Ascii.eqb c d then Some n else find digits' (n + 1)%N
     end) "0123456789abcdef"%string 0%N.

(** Reads back the first code unit of an escaped string. *)
Definition unescape_head (s : string) : option (ascii * string) :=
  match s with
  | EmptyString => None
  | String c rest =>
      if Ascii.eqb c dquote then None
      else if Ascii.eqb c backslash then
        match rest with
        | String e rest' =>
            if Ascii.eqb e dquote then Some (dquote, rest')
            else if Ascii.eqb e backslash then Some (backslash, rest')
            else if Ascii.eqb e "b" then Some ("008", rest')
            else if Ascii.eqb e "t" then Some ("009", rest')
            else if Ascii.eqb e "n" then Some ("010", rest')
            else if Ascii.eqb e "f" then Some ("012", rest')
            else if Ascii.eqb e "r" then Some ("013", rest')
            else if Ascii.eqb e "u" then
              match rest' with
              | String _ (String _ (String h (String l rest''))) =>
                  match hex_value h, hex_value l with
                  | Some a, Some b => Some (ascii_of_N (16 * a + b), rest'')
                  | _, _ => None
                  end
              | _ => None
              end
            else None
        | EmptyString => None
        end
      else Some (c, rest)
  end.

Lemma unescape_head_escape (c : ascii) (rest : string) :
  unescape_head (escape_code_unit c +:+ rest) = Some (c, rest).
Proof. destruct c as [[] [] [] [] [] [] [] []]; reflexivity. Qed.

Lemma escape_string_inj (s : string) : ∀ (s' r r' : string),
  escape_string s +:+ String dquote r = escape_string s' +:+ String dquote r' →
  s = s' ∧ r = r'.
Proof.
  induction s as [|c s IH]; intros [|c' s'] r r'; simpl; rewrite ?append_assoc; intros Heq.
  - by injection Heq as ->.
  - apply (f_equal unescape_head) in Heq. by rewrite unescape_head_escape in Heq.
  - apply (f_equal unescape_head) in Heq. by rewrite unescape_head_escape in Heq.
  - apply (f_equal unescape_head) in Heq. rewrite !unescape_head_escape in Heq.
    injection Heq as -> Heq. by destruct (IH _ _ _ Heq) as [-> ->].
Qed.

Lemma JSON_stringify_string_inj s s' r r' :
  JSON_stringify_string s +:+ r = JSON_stringify_string s' +:+ r' → s = s' ∧ r = r'.
Proof.
  unfold JSON_stringify_string. simpl. rewrite !append_assoc. simpl.
  intros [= Heq]. by apply escape_string_inj.
Qed.

(** A quoted key, the colon and what follows (the opening quote taken off). *)
Lemma key_value_inj k k' v v' t t' :
  ((escape_string k +:+ String dquote "") +:+ String ":" v) +:+ t =
  ((escape_string k' +:+ String dquote "") +:+ String ":" v') +:+ t' →
  k = k' ∧ v +:+ t = v' +:+ t'.
Proof.
  rewrite !append_assoc. simpl. intros Heq.
  apply escape_string_inj in Heq as [-> Heq]. by injection Heq as Heq.
Qed.

(** *** Arrays and objects *)

(** The serialized items after the first, each behind its comma, up to
    what closes the list. *)
Fixpoint items_tail (items : list string) (close : string) : string :=
  match items with
  | [] => close
  | item :: items' => String "," (item +:+ items_tail items' close)
  end.

Lemma concat_items (items : list string) (close : string) :
  String.concat "," items +:+ close =
  match items with
  | [] => close
  | item :: items' => item +:+ items_tail items' close
  end.
Proof.
  destruct items as [|item items]; [done|].
  revert item. induction items as [|item' items IH]; intros item; [done|].
  change (String.concat "," (item :: item' :: items))
    with (item +:+ "," +:+ String.concat "," (item' :: items)).
  rewrite !append_assoc, IH. done.
Qed.

Lemma items_tail_delimited items close r :
  (close = "]" ∨ close = "}") → delimited (items_tail items (String close r)).
Proof. destruct items; simpl; tauto. Qed.

Lemma getCanonicalString_arr items r :
  getCanonicalString (JArr items) +:+ r =
  String "[" (match map getCanonicalString items with
              | [] => String "]" r
              | item :: items' => item +:+ items_tail items' (String "]" r)
              end).
Proof.
  change (getCanonicalString (JArr items))
    with ("[" +:+ String.concat "," (map getCanonicalString items) +:+ "]")%string.
  simpl. f_equal. rewrite append_assoc. apply concat_items.
Qed.

Lemma getCanonicalString_obj_rest props r :
  getCanonicalString (JObj props) +:+ r =
  String "{"
    (match map (fun key => JSON_stringify_string key +:+ ":" +:+
                           getCanonicalString (get_prop JNull props key))%string
               (sort_keys (Object_keys props)) with
     | [] => String "}" r
     | item :: items' => item +:+ items_tail items' (String "}" r)
     end).
Proof.
  rewrite getCanonicalString_obj. simpl. f_equal. rewrite append_assoc. apply concat_items.
Qed.

(** A serialized value starts with a character that opens a value. *)
Definition value_start (c : ascii) : Prop :=
  c = "n" ∨ c = "t" ∨ c = "f" ∨ c = dquote ∨ c = "[" ∨ c = "{" ∨ number_start c.

Lemma getCanonicalString_start v :
  ∃ c s, getCanonicalString v = String c s ∧ value_start c.
Proof.
  unfold value_start. destruct v as [|[]|n|s|items|props].
  - eexists _, _. split; [reflexivity|]. tauto.
  - eexists _, _. split; [reflexivity|]. tauto.
  - eexists _, _. split; [reflexivity|]. tauto.
  - destruct (JSON_stringify_number_start n) as (c & s & Hs & Hc).
    exists c, s. split; [exact Hs|]. tauto.
  - eexists _, _. split; [reflexivity|]. tauto.
  - eexists _, _. split; [reflexivity|]. tauto.
  - eexists _, _. split; [reflexivity|]. tauto.
Qed.

(** Induction on a value, with the hypothesis for every item of an array
    and every property of an object. *)
Lemma json_nested_ind (P : json → Prop) :
  P JNull → (∀ b, P (JBool b)) → (∀ n, P (JNum n)) → (∀ s, P (JStr s)) →
  (∀ items, Forall P items → P (JArr items)) →
  (∀ props, Forall (fun kv => P kv.2) props → P (JObj props)) →
  ∀ v, P v.
Proof.
  intros Hnull Hbool Hnum Hstr Harr Hobj.
  fix IH 1. intros [|b|n|s|items|props]; [done..| |].
  - apply Harr. induction items as [|x items IHitems]; constructor; [apply IH|done].
  - apply Hobj. induction props as [|[k x] props IHprops]; constructor; [apply IH|done].
Qed.

Lemma wf_json_arr items : wf_json (JArr items) ↔ Forall wf_json items.
Proof.
  simpl. induction items as [|x items IH]; [by split; [constructor|]|].
  rewrite Forall_cons, <- IH. done.
Qed.

Lemma wf_json_obj props :
  wf_json (JObj props) ↔ NoDup (map fst props) ∧ Forall (fun kv => wf_json kv.2) props.
Proof.
  simpl. apply and_iff_compat_l.
  induction props as [|[k x] props IH]; [by split; [constructor|]|].
  rewrite Forall_cons, <- IH. done.
Qed.

Lemma get_prop_NoDup {A} (d : A) props key v :
  NoDup (map fst props) → (key, v) ∈ props → get_prop d props key = v.
Proof.
  induction props as [|[k x] props IH]; simpl; intros Hnd Hin.
  - by apply elem_of_nil in Hin.
  - apply NoDup_cons in Hnd as [Hk Hnd].
    apply elem_of_cons in Hin as [[= -> ->]|Hin]; [by rewrite String.eqb_refl|].
    destruct (String.eqb_spec k key) as [->|_]; [|by apply IH].
    destruct Hk. apply list_elem_of_fmap. by exists (key, v).
Qed.

(** The statement that is proved by induction: a serialized value can be
    read off the front of a string in one way only. *)
Definition reads_back (a : json) : Prop :=
  wf_json a → ∀ (b : json) (r r' : string),
    wf_json b →
    getCanonicalString a +:+ r = getCanonicalString b +:+ r' →
    delimited r → delimited r' →
    same_value a b ∧ r = r'.

Lemma items_inj (xs : list json) : ∀ (ys : list json) (r r' : string),
  Forall reads_back xs → Forall wf_json xs → Forall wf_json ys →
  items_tail (map getCanonicalString xs) (String "]" r) =
  items_tail (map getCanonicalString ys) (String "]" r') →
  Forall2 same_value xs ys ∧ r = r'.
Proof.
  induction xs as [|x xs IH]; intros [|y ys] r r' Hxs Hwx Hwy; simpl; intros Heq;
    try discriminate Heq.
  - injection Heq as ->. by split.
  - injection Heq as Heq.
    apply Forall_cons in Hxs as [Hx Hxs], Hwx as [Hwx Hwxs], Hwy as [Hwy Hwys].
    destruct (Hx Hwx y _ _ Hwy Heq) as [Hxy Htail];
      [apply items_tail_delimited; by left..|].
    destruct (IH ys r r' Hxs Hwxs Hwys Htail) as [Hall ->]. by split; [constructor|].
Qed.

Lemma pairs_inj (ps qs : list (string * json)) (ks : list string) :
  ∀ (ks' : list string) (r r' : string),
  Forall (fun k => reads_back (get_prop JNull ps k) ∧ wf_json (get_prop JNull ps k)) ks →
  Forall (fun k => wf_json (get_prop JNull qs k)) ks' →
  items_tail (map (fun key => JSON_stringify_string key +:+ ":" +:+
                              getCanonicalString (get_prop JNull ps key))%string ks)
             (String "}" r) =
  items_tail (map (fun key => JSON_stringify_string key +:+ ":" +:+
                              getCanonicalString (get_prop JNull qs key))%string ks')
             (String "}" r') →
  ks = ks' ∧ Forall (fun k => same_value (get_prop JNull ps k) (get_prop JNull qs k)) ks ∧
  r = r'.
Proof.
  induction ks as [|k ks IH]; intros [|k' ks'] r r' Hks Hks'; cbn [List.map items_tail];
    intros Heq; try discriminate Heq.
  - injection Heq as ->. by split_and!.
  - injection Heq as Heq. apply key_value_inj in Heq as [-> Heq].
    apply Forall_cons in Hks as [[Hk Hwk] Hks], Hks' as [Hwk' Hks'].
    destruct (Hk Hwk _ _ _ Hwk' Heq) as [Hv Htail];
      [apply items_tail_delimited; by right..|].
    destruct (IH ks' r r' Hks Hks' Htail) as (-> & Hall & ->). by split_and!; [|constructor|].
Qed.

Lemma reads_back_all (a : json) : reads_back a.
Proof.
  induction a as [|b|n|s|xs IH|ps IH] using json_nested_ind; intros Hwa b' r r' Hwb Heq Hr Hr'.
  - destruct (getCanonicalString_start b') as (c & s' & Hs & Hc).
    destruct b' as [|[]|m|s0|ys|qs]; try discriminate Heq.
    + injection Heq as ->. split; [constructor|done].
    + destruct (JSON_stringify_number_start m) as (c0 & s0 & Hm & Hc0).
      change (getCanonicalString (JNum m)) with (JSON_stringify_number m) in Heq.
      rewrite Hm in Heq. injection Heq as <- _.
      unfold number_start in Hc0. by repeat destruct Hc0 as [Hc0|Hc0].
  - destruct b as [|]; destruct b' as [|[]|m|s0|ys|qs]; try discriminate Heq.
    + injection Heq as ->. split; [constructor|done].
    + destruct (JSON_stringify_number_start m) as (c0 & s0 & Hm & Hc0).
      change (getCanonicalString (JNum m)) with (JSON_stringify_number m) in Heq.
      rewrite Hm in Heq. injection Heq as <- _.
      unfold number_start in Hc0. by repeat destruct Hc0 as [Hc0|Hc0].
    + injection Heq as ->. split; [constructor|done].
    + destruct (JSON_stringify_number_start m) as (c0 & s0 & Hm & Hc0).
      change (getCanonicalString (JNum m)) with (JSON_stringify_number m) in Heq.
      rewrite Hm in Heq. injection Heq as <- _.
      unfold number_start in Hc0. by repeat destruct Hc0 as [Hc0|Hc0].
  - change (getCanonicalString (JNum n)) with (JSON_stringify_number n) in Heq.
    destruct (JSON_stringify_number_start n) as (c0 & s0 & Hn & Hc0).
    destruct b' as [|[]|m|s1|ys|qs];
      try (rewrite Hn in Heq; injection Heq as -> _;
           unfold number_start in Hc0; by repeat destruct Hc0 as [Hc0|Hc0]).
    + change (getCanonicalString (JNum m)) with (JSON_stringify_number m) in Heq.
      destruct (JSON_stringify_number_inj _ _ _ _ Heq Hr Hr') as [-> ->].
      split; [constructor|done].
  - change (getCanonicalString (JStr s)) with (JSON_stringify_string s) in Heq.
    destruct b' as [|[]|m|s1|ys|qs]; try discriminate Heq.
    + destruct (JSON_stringify_number_start m) as (c0 & s0 & Hm & Hc0).
      change (getCanonicalString (JNum m)) with (JSON_stringify_number m) in Heq.
      rewrite Hm in Heq. injection Heq as <- _.
      unfold number_start in Hc0. by repeat destruct Hc0 as [Hc0|Hc0].
    + change (getCanonicalString (JStr s1)) with (JSON_stringify_string s1) in Heq.
      apply JSON_stringify_string_inj in Heq as [-> ->]. split; [constructor|done].
  - rewrite getCanonicalString_arr in Heq.
    destruct b' as [|[]|m|s1|ys|qs]; try discriminate Heq.
    + destruct (JSON_stringify_number_start m) as (c0 & s0 & Hm & Hc0).
      change (getCanonicalString (JNum m)) with (JSON_stringify_number m) in Heq.
      rewrite Hm in Heq. injection Heq as <- _.
      unfold number_start in Hc0. by repeat destruct Hc0 as [Hc0|Hc0].
    + rewrite getCanonicalString_arr in Heq. injection Heq as Heq.
      apply wf_json_arr in Hwa, Hwb.
      assert (Forall2 same_value xs ys ∧ r = r') as [Hall ->].
      { destruct xs as [|x xs], ys as [|y ys]; simpl in Heq.
        - injection Heq as ->. by split.
        - destruct (getCanonicalString_start y) as (c & s' & Hs & Hc).
          rewrite Hs in Heq. injection Heq as <- _.
          unfold value_start, number_start in Hc. by repeat destruct Hc as [Hc|Hc].
        - destruct (getCanonicalString_start x) as (c & s' & Hs & Hc).
          rewrite Hs in Heq. injection Heq as -> _.
          unfold value_start, number_start in Hc. by repeat destruct Hc as [Hc|Hc].
        - apply Forall_cons in IH as [Hx Hxs], Hwa as [Hwx Hwxs], Hwb as [Hwy Hwys].
          destruct (Hx Hwx y _ _ Hwy Heq) as [Hxy Htail];
            [apply items_tail_delimited; by left..|].
          destruct (items_inj xs ys r r' Hxs Hwxs Hwys Htail) as [Hall ->].
          by split; [constructor|]. }
      split; [|done]. apply same_arr; [by eapply Forall2_length|].
      intros i x y. by apply Forall2_lookup_lr.
  - rewrite getCanonicalString_obj_rest in Heq.
    destruct b' as [|[]|m|s1|ys|qs]; try discriminate Heq.
    + destruct (JSON_stringify_number_start m) as (c0 & s0 & Hm & Hc0).
      change (getCanonicalString (JNum m)) with (JSON_stringify_number m) in Heq.
      rewrite Hm in Heq. injection Heq as <- _.
      unfold number_start in Hc0. by repeat destruct Hc0 as [Hc0|Hc0].
    + rewrite getCanonicalString_obj_rest in Heq. injection Heq as Heq.
      apply wf_json_obj in Hwa as [Hnd Hwa], Hwb as [Hnd' Hwb].
      assert (Hks : Forall (fun k => reads_back (get_prop JNull ps k) ∧
                                     wf_json (get_prop JNull ps k))
                      (sort_keys (Object_keys ps))).
      { apply Forall_forall. intros k Hk. rewrite elem_of_sort_keys in Hk.
        destruct (get_prop_elem_of JNull ps k Hk) as (v & Hv & ->).
        rewrite Forall_forall in IH, Hwa. split; [apply (IH _ Hv)|apply (Hwa _ Hv)]. }
      assert (Hks' : Forall (fun k => wf_json (get_prop JNull qs k))
                       (sort_keys (Object_keys qs))).
      { apply Forall_forall. intros k Hk. rewrite elem_of_sort_keys in Hk.
        destruct (get_prop_elem_of JNull qs k Hk) as (v & Hv & ->).
        rewrite Forall_forall in Hwb. apply (Hwb _ Hv). }
      assert (sort_keys (Object_keys ps) = sort_keys (Object_keys qs) ∧
              Forall (fun k => same_value (get_prop JNull ps k) (get_prop JNull qs k))
                (sort_keys (Object_keys ps)) ∧ r = r') as (Hkeys & Hall & ->).
      { destruct (sort_keys (Object_keys ps)) as [|k ks],
                 (sort_keys (Object_keys qs)) as [|k' ks']; cbn [List.map] in Heq.
        - injection Heq as ->. by split_and!.
        - discriminate Heq.
        - discriminate Heq.
        - injection Heq as Heq. apply key_value_inj in Heq as [-> Heq].
          apply Forall_cons in Hks as [[Hk Hwk] Hks], Hks' as [Hwk' Hks'].
          destruct (Hk Hwk _ _ _ Hwk' Heq) as [Hv Htail];
            [apply items_tail_delimited; by right..|].
          destruct (pairs_inj ps qs ks ks' r r' Hks Hks' Htail) as (-> & Hall & ->).
          by split_and!; [|constructor|]. }
      split; [|done]. apply same_obj.
      * unfold sort_keys in Hkeys.
        rewrite <- (merge_sort_Permutation key_le (Object_keys ps)), Hkeys.
        apply merge_sort_Permutation.
      * intros k v w Hv Hw. rewrite Forall_forall in Hall.
        rewrite <- (get_prop_NoDup JNull ps k v Hnd Hv),
                <- (get_prop_NoDup JNull qs k w Hnd' Hw).
        apply Hall, elem_of_sort_keys, list_elem_of_fmap. by exists (k, v).
Qed.

(** The numbers on which [JSON_stringify_number] is what [JSON.stringify]
    prints: the safe integers of JavaScript. *)
Definition safe_integer (n : Z) : Prop :=
  (-9007199254740992 < n < 9007199254740992)%Z.

(** A value all of whose numbers are safe integers. *)
Fixpoint safe_json (v : json) : Prop :=
  match v with
  | JNum n => safe_integer n
  | JArr items => (fix all (l : list json) : Prop :=
                     match l with [] => True | x :: l' => safe_json x ∧ all l' end) items
  | JObj props => (fix all (l : list (string * json)) : Prop :=
                     match l with [] => True | (_, x) :: l' => safe_json x ∧ all l' end) props
  | _ => True
  end.

(** X19. Nothing is lost in the canonical string, on the values of this
    model: trees of null, booleans, safe integers, strings of code units
    below 256, arrays and objects with no key twice.  Two such values that
    serialize to the same string are the same value up to the insertion
    order of their keys: keys are quoted and escaped, items are separated,
    and a number is always followed by a separator, so the text reads back
    in one way only.  (Fractions, the negative zero, which prints as 0, and
    numbers from 2^53 on are no values of the model.) *)
Theorem getCanonicalString_injective (a b : json) :
  wf_json a → wf_json b → safe_json a → safe_json b →
  getCanonicalString a = getCanonicalString b → same_value a b.
Proof.
  intros Ha Hb _ _ Heq.
  destruct (reads_back_all a Ha b EmptyString EmptyString Hb) as [Hab _]; try done.
  by rewrite Heq.
Qed.

End canonical_injective.

(** A move written with its two keys in either order. *)
Definition sample_move_1 : json := JObj [("rowIndex", JNum 0); ("colIndex", JNum 2)].
Definition sample_move_2 : json := JObj [("colIndex", JNum 2); ("rowIndex", JNum 0)].

Lemma getCanonicalString_injective_witness : same_value sample_move_1 sample_move_2.
Proof.
  apply (getCanonicalString_injective sample_move_1 sample_move_2).
  - split; [by apply (bool_decide_unpack _)|done].
  - split; [by apply (bool_decide_unpack _)|done].
  - unfold sample_move_1, safe_json, safe_integer. lia.
  - unfold sample_move_2, safe_json, safe_integer. lia.
  - vm_compute. reflexivity.
Defined.

(** ** The split of the encrypted log (server/index.js, [/api/submit-log]) *)

Section auth_tag.

Context {A : Type}.

(** An index of [Buffer.prototype.slice]: a negative one counts from the
    end, and both kinds are clamped to the buffer. *)
Definition slice_index (len i : Z) : Z :=
  if (i <? 0)%Z then Z.max (len + i) 0 else Z.min i len.

(** [buf.slice(start, end)]. *)
Definition Buffer_slice (buf : list A) (start end_ : Z) : list A :=
  let len := Z.of_nat (length buf) in
  let first := slice_index len start in
  let last := slice_index len end_ in
  take (Z.to_nat (last - first)) (drop (Z.to_nat first) buf).

(** [encryptedLogBuffer.slice(encryptedLogBuffer.length - 16)]
    (server/index.js:222); the end defaults to the length. *)
Definition authTag (encryptedLogBuffer : list A) : list A :=
  let len := Z.of_nat (length encryptedLogBuffer) in
  Buffer_slice encryptedLogBuffer (len - 16) len.

(** [encryptedLogBuffer.slice(0, encryptedLogBuffer.length - 16)]
    (server/index.js:223). *)
Definition ciphertext (encryptedLogBuffer : list A) : list A :=
  let len := Z.of_nat (length encryptedLogBuffer) in
  Buffer_slice encryptedLogBuffer 0 (len - 16).

(** Where the two slices cut a buffer of [len] bytes. *)
Definition tag_start (len : nat) : nat :=
  if decide (len < 16) then len + len - 16 else len - 16.

Lemma slice_index_tag_start (len : nat) :
  slice_index (Z.of_nat len) (Z.of_nat len - 16) = Z.of_nat (tag_start len).
Proof.
  unfold slice_index, tag_start.
  destruct (Z.ltb_spec (Z.of_nat len - 16) 0); case_decide; lia.
Qed.

Lemma slice_index_0 (len : nat) : slice_index (Z.of_nat len) 0 = 0%Z.
Proof. unfold slice_index. simpl. lia. Qed.

Lemma slice_index_length (len : nat) : slice_index (Z.of_nat len) (Z.of_nat len) = Z.of_nat len.
Proof. unfold slice_index. destruct (Z.ltb_spec (Z.of_nat len) 0); lia. Qed.

Lemma ciphertext_take (buf : list A) : ciphertext buf = take (tag_start (length buf)) buf.
Proof.
  unfold ciphertext, Buffer_slice.
  rewrite slice_index_tag_start, slice_index_0. simpl. rewrite drop_0. f_equal. lia.
Qed.

Lemma authTag_drop (buf : list A) : authTag buf = drop (tag_start (length buf)) buf.
Proof.
  unfold authTag, Buffer_slice.
  rewrite slice_index_tag_start, slice_index_length, Nat2Z.id.
  apply take_ge. rewrite length_drop. lia.
Qed.

(** X20. The two slices split the buffer: the ciphertext followed by the
    tag is the buffer again, whatever its length.  From 16 bytes on the tag
    is the last 16 bytes.  A shorter buffer is split as well: the negative
    index counts from the end, and the tag then has fewer than 16 bytes
    (all of a buffer of up to 8 bytes). *)
Theorem authTag_split (encryptedLogBuffer : list A) :
  ciphertext encryptedLogBuffer ++ authTag encryptedLogBuffer = encryptedLogBuffer ∧
  (16 ≤ length encryptedLogBuffer →
   authTag encryptedLogBuffer = drop (length encryptedLogBuffer - 16) encryptedLogBuffer ∧
   length (authTag encryptedLogBuffer) = 16%nat) ∧
  (length encryptedLogBuffer < 16 →
   length (authTag encryptedLogBuffer) =
     (length encryptedLogBuffer `min` (16 - length encryptedLogBuffer))%nat).
Proof.
  rewrite ciphertext_take, authTag_drop, take_drop, length_drop. unfold tag_start.
  split_and!; [done|..]; intros Hlen; case_decide; try lia.
  split; [done|lia].
Qed.

End auth_tag.

(** ** The format of the hashes *)

Section hash_format.

#[local] Arguments String.append : simpl nomatch.

Definition is_hex (c : ascii) : Prop :=
  In c (list_ascii_of_string "0123456789abcdef").

(** A hash as the log carries it: 64 lowercase hexadecimal digits. *)
Definition is_hash (s : string) : Prop :=
  String.length s = 64%nat ∧ Forall is_hex (list_ascii_of_string s).

Lemma hex_digit_is_hex (n : N) : is_hex (hex_digit n).
Proof.
  unfold hex_digit, is_hex. generalize (N.to_nat n) as i. intros i.
  do 16 (destruct i as [|i]; [simpl; tauto|]).
  simpl. tauto.
Qed.

Transparent sha256_hex.

(** Every byte of the digest is written as two digits (the client pads
    with a zero), so a digest is always 64 digits long. *)
Lemma sha256_hex_is_hash (s : string) : is_hash (sha256_hex s).
Proof.
  unfold sha256_hex, SHA256.digest_hex.
  generalize (foldl SHA256.compress SHA256.initial
                (SHA256.blocks (length (SHA256.pad (SHA256.utf8 s)))
                   (SHA256.words (length (SHA256.pad (SHA256.utf8 s)))
                      (SHA256.pad (SHA256.utf8 s))))).
  intros h. split; [reflexivity|].
  cbv [String.concat map SHA256.hex_word SHA256.hex_byte SHA256.be_bytes String.append
       list_ascii_of_string].
  repeat (apply Forall_cons; split; [apply hex_digit_is_hex|]). apply Forall_nil_2.
Qed.

Opaque sha256_hex.

Lemma zeroHash_is_hash : is_hash zeroHash.
Proof.
  split; [reflexivity|]. unfold is_hex. vm_compute. repeat constructor.
Qed.

Lemma linked_is_hash prev log :
  is_hash prev → linked prev log →
  ∀ e, e ∈ log → is_hash (previousEntryChainHash e) ∧ is_hash (currentEntryChainHash e).
Proof.
  revert prev. induction log as [|e0 log IH]; intros prev Hprev Hlinked e He.
  - by apply elem_of_nil in He.
  - destruct Hlinked as (Hp & Hc & Hrest).
    assert (Hcur : is_hash (currentEntryChainHash e0)).
    { rewrite Hc. apply sha256_hex_is_hash. }
    apply elem_of_cons in He as [->|He].
    + by rewrite Hp.
    + by apply (IH (currentEntryChainHash e0)).
Qed.

(** X21. The hash fields of a log the chain verification accepts all
    have the format of the zero hash the chain starts from: both hashes of
    every entry are 64 lowercase hexadecimal digits. *)
Theorem verifyHashChain_hash_format (gameLog : list LogEntry) :
  fst (verifyHashChain gameLog) = true →
  ∀ e, e ∈ gameLog →
    is_hash (previousEntryChainHash e) ∧ is_hash (currentEntryChainHash e).
Proof.
  intros Hchain. apply (linked_is_hash zeroHash); [apply zeroHash_is_hash|].
  by apply (proj1 (verifyHashChain_loop_true zeroHash gameLog)).
Qed.

End hash_format.

Lemma verifyHashChain_hash_format_witness :
  Forall (fun e => is_hash (previousEntryChainHash e) ∧ is_hash (currentEntryChainHash e))
    scenario_A_log.
Proof.
  apply (proj2 (Forall_forall _ scenario_A_log)).
  apply (verifyHashChain_hash_format scenario_A_log).
  vm_compute. reflexivity.
Defined.
